(** * desync: store utilities, self-seed and Windows tar, checked against the Go sources

    A shallow embedding of the parts of the repository that the specification
    makes claims about:
    - [SelfSeed]   : selfSeed.add / LongestMatchWith / maxMatchFrom
    - [GoStrings]  : the functions of Go's strings and path/filepath packages
                     that the stores call
    - [HexID]      : ChunkID.String and ChunkIDFromString
    - [Stores]     : LocalStore.StoreChunk, LocalStore.Prune and RemoveChunk,
                     GCSStore.Prune, idFromName and HasChunk,
                     MultiStoreWithCache, MultiStoreWithRouter, storeGroup
    - [TarWindows] : the Windows variant of tar

    and, beyond what the specification claims, of the code around them:
    - [SelfSeedProps]    : what a query of the self-seed finds, how add advances
    - [StoresProps]      : LocalStore.HasChunk, and more on RemoveChunk, Prune,
                           StoreChunk and the object names of the GCS store
    - [StoreUtilsProps]  : CmdStoreOptions.MergedWith, NewGCSStore
    - [Config]           : Config.GetS3CredentialsFor
    - [Cmd]              : the prune and list-chunks commands
    - [TarWindowsProps]  : errors, skipped nodes, goodbye and count of tar
    - [DiskFS]           : mkdev
    - [TarFS]            : TarWriteFS.CreateDevice

    Go's [int] is a 64-bit two's complement integer; it is modelled as [Z] with
    the wrap-around written out where the code does arithmetic on it.  Go
    strings are byte sequences and are modelled by [string]. *)

From Stdlib Require Import ZArith Lia String Ascii Bool.
From stdpp Require Import gmap strings list.

Local Open Scope Z_scope.

(** ** Go runtime conventions shared by all modules *)

(** The result of running a piece of Go code that can panic at run time (index
    out of range).  [OutOfFuel] is only produced by loops that are modelled
    with a fuel argument; every such loop comes with a lemma that the fuel it
    is started with is enough. *)
Inductive outcome (A : Type) : Type :=
| Done (a : A)
| Panic
| OutOfFuel.
Arguments Done {A} a.
Arguments Panic {A}.
Arguments OutOfFuel {A}.

Definition obind {A B} (m : outcome A) (k : A → outcome B) : outcome B :=
  match m with
  | Done a => k a
  | Panic => Panic
  | OutOfFuel => OutOfFuel
  end.

Notation "'let!' x := m 'in' k" := (obind m (λ x, k))
  (at level 10, x name, m at level 100, k at level 200, only parsing).

(** [int] arithmetic: the value of a mathematical result once stored in an
    [int] variable. *)
Definition int_max : Z := 2 ^ 63 - 1.
Definition wrap_int (z : Z) : Z := (z + 2 ^ 63) `mod` 2 ^ 64 - 2 ^ 63.

(** [l[i]] for a Go slice: [None] stands for the index-out-of-range panic. *)
Definition index_at {A} (l : list A) (i : Z) : option A :=
  if decide (i < 0) then None else l !! Z.to_nat i.

(** [len(l)] as an [int]. *)
Definition len {A} (l : list A) : Z := Z.of_nat (length l).

(** ** selfSeed (src/unnamed/part_002) *)
Module SelfSeed.
Section SelfSeed.

(** A chunk ID is a 32-byte array; the self-seed only compares IDs and uses
    them as map keys. *)
Context {ChunkID : Type} `{Countable ChunkID}.

Record IndexChunk := mkIndexChunk {
  ID : ChunkID;
  Start : Z;
  Size : Z;
}.

Record Index := mkIndex {
  Chunks : list IndexChunk;
}.

Record IndexSegment := mkIndexSegment {
  index : Index;
  first : Z;
  last : Z;
}.

(** A slice expression [s.index.Chunks[lo:hi]]: a view of the positions
    [lo], ..., [hi-1] of the index. *)
Record chunkSlice := mkSlice {
  lo : Z;
  hi : Z;
}.

(** The mutex [mu] has no field here: [add] runs under the lock, and a query
    is taken to run between two [add] calls. *)
Record selfSeed := mkSelfSeed {
  file : string;
  seedIndex : Index;
  pos : gmap ChunkID (list Z);
  canReflink : bool;
  written : Z;
  cache : gmap Z Z;
}.

(** [CanClone(file, file)] probes the file system; its answer is an input. *)
Definition newSelfSeed (file : string) (index : Index) (canClone : bool)
  : selfSeed :=
  {| file := file; seedIndex := index; pos := ∅; canReflink := canClone;
     written := 0; cache := ∅ |}.

(** The inner loop of [add]:
    [for i := s.written; i < next; i++ { ... s.pos[chunk.ID] = append(s.pos[chunk.ID], i) }],
    with [n] the number of iterations left. *)
Fixpoint record_range (chunks : list IndexChunk) (pos : gmap ChunkID (list Z))
    (i : Z) (n : nat) : option (gmap ChunkID (list Z)) :=
  match n with
  | O => Some pos
  | S n' =>
      match index_at chunks i with
      | None => None
      | Some chunk =>
          record_range chunks
            (<[ID chunk := default [] (pos !! ID chunk) ++ [i]]> pos)
            (i + 1) n'
      end
  end.

(** The outer [for] loop of [add]. *)
Fixpoint add_loop (fuel : nat) (s : selfSeed) : outcome selfSeed :=
  match fuel with
  | O => OutOfFuel
  | S fuel' =>
      match cache s !! written s with
      | None => Done s
      | Some next =>
          match record_range (Chunks (seedIndex s)) (pos s) (written s)
                  (Z.to_nat (next - written s)) with
          | None => Panic
          | Some pos' =>
              add_loop fuel'
                {| file := file s; seedIndex := seedIndex s; pos := pos';
                   canReflink := canReflink s; written := next;
                   cache := delete (written s) (cache s) |}
          end
      end
  end.

(** [s.cache[segment.first] = segment.last + 1] *)
Definition record_segment (s : selfSeed) (segment : IndexSegment) : selfSeed :=
  {| file := file s; seedIndex := seedIndex s; pos := pos s;
     canReflink := canReflink s; written := written s;
     cache := <[first segment := wrap_int (last segment + 1)]> (cache s) |}.

Definition add (s : selfSeed) (segment : IndexSegment) : outcome selfSeed :=
  let s1 := record_segment s segment in
  add_loop (S (size (cache s1))) s1.

(** A sequence of [add] calls, in the order in which they get the lock. *)
Fixpoint add_all (s : selfSeed) (segments : list IndexSegment)
  : outcome selfSeed :=
  match segments with
  | [] => Done s
  | seg :: rest => let! s' := add s seg in add_all s' rest
  end.

(** The loop of [maxMatchFrom]; [chunks] is [chunks[sp:]]. *)
Fixpoint match_loop (idx : list IndexChunk) (written : Z)
    (chunks : list IndexChunk) (dp : Z) : outcome Z :=
  match chunks with
  | [] => Done dp
  | c :: rest =>
      if decide (written ≤ dp) then Done dp
      else match index_at idx dp with
           | None => Panic
           | Some d =>
               if decide (ID c = ID d) then match_loop idx written rest (dp + 1)
               else Done dp
           end
  end.

(** [a[lo:hi]] panics unless [0 <= lo <= hi <= cap(a)]. *)
Definition slice_expr (idx : list IndexChunk) (lo hi : Z) : outcome chunkSlice :=
  if decide (0 ≤ lo ∧ lo ≤ hi ∧ hi ≤ len idx) then Done (mkSlice lo hi)
  else Panic.

(** [None] is the nil slice. *)
Definition maxMatchFrom (s : selfSeed) (chunks : list IndexChunk) (p : Z)
  : outcome (option chunkSlice) :=
  match chunks with
  | [] => Done None
  | _ =>
      let! dp := match_loop (Chunks (seedIndex s)) (written s) chunks p in
      let! sl := slice_expr (Chunks (seedIndex s)) p dp in
      Done (Some sl)
  end.

Definition slice_len (m : option chunkSlice) : Z :=
  match m with
  | None => 0
  | Some sl => hi sl - lo sl
  end.

(** The chunks a slice holds. *)
Definition slice_chunks (idx : Index) (m : option chunkSlice) : list IndexChunk :=
  match m with
  | None => []
  | Some sl => take (Z.to_nat (hi sl - lo sl)) (drop (Z.to_nat (lo sl)) (Chunks idx))
  end.

(** Modelled from the spec: [newFileSeedSegment] (the seed segment type is
    not part of the sources at hand); it stores its arguments. *)
Record fileSeedSegment := mkFileSeedSegment {
  segFile : string;
  segChunks : option chunkSlice;
  segCanReflink : bool;
  segNeedValidation : bool;
}.

Definition newFileSeedSegment (file : string) (chunks : option chunkSlice)
    (canReflink needValidation : bool) : fileSeedSegment :=
  mkFileSeedSegment file chunks canReflink needValidation.

(** [for _, p := range pos { ... }] in [LongestMatchWith]. *)
Fixpoint longest_loop (s : selfSeed) (chunks : list IndexChunk) (ps : list Z)
    (mtch : option chunkSlice) (max : Z) : outcome (option chunkSlice * Z) :=
  match ps with
  | [] => Done (mtch, max)
  | p :: ps' =>
      let! m := maxMatchFrom s chunks p in
      if decide (max < slice_len m) then longest_loop s chunks ps' m (slice_len m)
      else longest_loop s chunks ps' mtch max
  end.

(** The second component is [None] for a nil [SeedSegment]. *)
Definition LongestMatchWith (s : selfSeed) (chunks : list IndexChunk)
  : outcome (Z * option fileSeedSegment) :=
  match chunks with
  | [] => Done (0, None)
  | c0 :: _ =>
      if decide (len (Chunks (seedIndex s)) = 0) then Done (0, None)
      else match pos s !! ID c0 with
           | None => Done (0, None)
           | Some ps =>
               let! r := longest_loop s chunks ps None 0 in
               Done (r.2, Some (newFileSeedSegment (file s) r.1 (canReflink s) false))
           end
  end.

(** The slice a query result covers ([None]: no position at all). *)
Definition matched (r : Z * option fileSeedSegment) : option chunkSlice :=
  match r.2 with
  | None => None
  | Some seg => segChunks seg
  end.

(** *** Invariants of the seed state *)

(** Every position recorded in [pos] indexes the index. *)
Definition pos_in_range (chunks : list IndexChunk) (pos : gmap ChunkID (list Z)) : Prop :=
  ∀ id ps p, pos !! id = Some ps → p ∈ ps → 0 ≤ p < len chunks.

Definition seed_ok (s : selfSeed) : Prop :=
  written s ≤ len (Chunks (seedIndex s)) ∧
  pos_in_range (Chunks (seedIndex s)) (pos s).

Lemma index_at_Some {A} (l : list A) i x :
  index_at l i = Some x → 0 ≤ i < len l.
Proof.
  unfold index_at, len. case_decide; [done|].
  intros Hl%lookup_lt_Some. lia.
Qed.

Lemma index_at_is_Some {A} (l : list A) i :
  0 ≤ i < len l → is_Some (index_at l i).
Proof.
  unfold index_at, len. intros Hi. case_decide; [lia|].
  apply lookup_lt_is_Some. lia.
Qed.

Lemma record_range_in_range chunks pos i n pos' :
  record_range chunks pos i n = Some pos' →
  pos_in_range chunks pos →
  pos_in_range chunks pos' ∧ (n ≠ 0%nat → 0 ≤ i ∧ i + Z.of_nat n ≤ len chunks).
Proof.
  revert pos i. induction n as [|n IH]; intros pos i; simpl.
  - intros [= <-] Hp. split; [done|lia].
  - destruct (index_at chunks i) as [c|] eqn:Hc; [|done].
    intros Hr Hp. apply index_at_Some in Hc.
    apply IH in Hr as [Hp' Hn].
    + split; [done|]. intros _. destruct n; [lia|]. lia.
    + intros id ps p. destruct (decide (ID c = id)) as [<-|Hne].
      * rewrite lookup_insert_eq. intros [= <-].
        rewrite elem_of_app, list_elem_of_singleton. intros [Hin| ->]; [|done].
        destruct (pos !! ID c) as [ps0|] eqn:Hps; simpl in Hin.
        -- by eapply Hp.
        -- by apply elem_of_nil in Hin.
      * rewrite lookup_insert_ne by done. apply Hp.
Qed.

Lemma add_loop_ok fuel s s' :
  add_loop fuel s = Done s' → seed_ok s → seed_ok s'.
Proof.
  revert s. induction fuel as [|fuel IH]; intros s; simpl; [done|].
  destruct (cache s !! written s) as [next|] eqn:Hnext.
  - destruct (record_range _ _ _ _) as [pos'|] eqn:Hr; [|done].
    intros Hl [Hw Hp]. apply IH in Hl; [done|].
    apply record_range_in_range in Hr as [Hp' Hn]; [|done].
    split; simpl; [|done].
    destruct (decide (next ≤ written s)); [lia|].
    destruct Hn; lia.
  - by intros [= <-].
Qed.

Lemma add_ok s seg s' : add s seg = Done s' → seed_ok s → seed_ok s'.
Proof. unfold add. intros Hl Hs. by eapply add_loop_ok. Qed.

Lemma add_all_ok segs s s' : add_all s segs = Done s' → seed_ok s → seed_ok s'.
Proof.
  revert s. induction segs as [|seg segs IH]; intros s; simpl.
  - by intros [= <-].
  - destruct (add s seg) as [s1| |] eqn:Hadd; simpl; [|done..].
    intros Hl Hs. eapply IH; [done|]. by eapply add_ok.
Qed.

Lemma newSelfSeed_ok f idx cc : seed_ok (newSelfSeed f idx cc).
Proof.
  split; simpl; [unfold len; lia|]. intros id ps p. by rewrite lookup_empty.
Qed.

(** *** The matching loop never runs past [written] *)

Lemma match_loop_bound idx w chunks dp :
  0 ≤ dp → w ≤ len idx →
  ∃ dp', match_loop idx w chunks dp = Done dp' ∧ dp ≤ dp' ∧ (dp' = dp ∨ dp' ≤ w).
Proof.
  revert dp. induction chunks as [|c rest IH]; intros dp Hdp Hw; simpl.
  - exists dp. split; [done|]. lia.
  - case_decide as Hwd.
    + exists dp. split; [done|]. lia.
    + destruct (index_at_is_Some idx dp) as [d Hd]; [lia|]. rewrite Hd.
      case_decide.
      * destruct (IH (dp + 1)) as (dp' & Hl & Hle & Hb); [lia..|].
        exists dp'. split; [done|]. lia.
      * exists dp. split; [done|]. lia.
Qed.

(** What [maxMatchFrom] returns from a recorded position: a slice that starts
    at [p] and, when it is not empty, ends at or before [written]. *)
Definition slice_written (s : selfSeed) (m : option chunkSlice) : Prop :=
  ∀ sl, m = Some sl → lo sl < hi sl → 0 ≤ lo sl ∧ hi sl ≤ written s.

Lemma maxMatchFrom_written s chunks p :
  seed_ok s → 0 ≤ p < len (Chunks (seedIndex s)) →
  ∃ m, maxMatchFrom s chunks p = Done m ∧ slice_written s m.
Proof.
  intros [Hw Hp] Hpr. unfold maxMatchFrom.
  destruct chunks as [|c rest]; [by exists None|].
  destruct (match_loop_bound (Chunks (seedIndex s)) (written s) (c :: rest) p)
    as (dp & -> & Hle & Hb); [lia..|].
  cbn [obind]. unfold slice_expr. case_decide as Hsl; [|lia].
  cbn [obind]. eexists. split; [done|].
  intros sl [= <-]; simpl. lia.
Qed.

Lemma longest_loop_written s chunks ps mtch max :
  seed_ok s →
  (∀ p, p ∈ ps → 0 ≤ p < len (Chunks (seedIndex s))) →
  slice_written s mtch → max = slice_len mtch → 0 ≤ max →
  ∃ mtch' max', longest_loop s chunks ps mtch max = Done (mtch', max') ∧
    slice_written s mtch' ∧ max' = slice_len mtch' ∧ 0 ≤ max'.
Proof.
  intros Hs. revert mtch max.
  induction ps as [|p ps IH]; intros mtch max Hps Hm Hmax Hpos; simpl.
  - by exists mtch, max.
  - destruct (maxMatchFrom_written s chunks p Hs) as (m & -> & Hmw).
    { apply Hps. by left. }
    cbn [obind]. case_decide.
    + apply IH; [|done|done|lia]. intros q Hq. apply Hps. by right.
    + apply IH; [|done..]. intros q Hq. apply Hps. by right.
Qed.

(** C1.  After any sequence of [add] calls, with any segments in any order,
    every query [LongestMatchWith] returns normally, and the match it reports
    covers only index positions strictly below the current [written]: the seed
    never reports a chunk that has not been confirmed written. *)
Theorem LongestMatchWith_below_written f idx cc segs s chunks :
  add_all (newSelfSeed f idx cc) segs = Done s →
  ∃ r, LongestMatchWith s chunks = Done r ∧
       r.1 = slice_len (matched r) ∧
       ∀ sl, matched r = Some sl →
             ∀ q, lo sl ≤ q < hi sl → 0 ≤ q < written s.
Proof.
  intros Hadd.
  assert (seed_ok s) as Hs by (eapply add_all_ok; [done|apply newSelfSeed_ok]).
  unfold LongestMatchWith.
  destruct chunks as [|c0 rest].
  { exists (0, None). split; [done|]. split; [done|]. intros sl [=]. }
  case_decide.
  { exists (0, None). split; [done|]. split; [done|]. intros sl [=]. }
  destruct (pos s !! ID c0) as [ps|] eqn:Hps.
  2: { exists (0, None). split; [done|]. split; [done|]. intros sl [=]. }
  destruct (longest_loop_written s (c0 :: rest) ps None 0 Hs)
    as (m & mx & -> & Hm & Hmx & Hpos); [|done|done|done|].
  { intros p Hp. destruct Hs as [_ Hr]. by eapply Hr. }
  cbn [obind]. eexists. split; [done|]. unfold matched; simpl.
  split; [done|]. intros sl -> q Hq.
  destruct (Hm sl); [done|lia|lia].
Qed.

(** *** The loop of [add] terminates: every round deletes a cache entry *)

Lemma size_delete_lt (m : gmap Z Z) k v :
  m !! k = Some v → (size (delete k m) < size m)%nat.
Proof.
  intros Hk.
  pose proof (map_size_delete_Some k m (mk_is_Some _ _ Hk)).
  pose proof (map_size_ne_0_lookup_2 m k (mk_is_Some _ _ Hk)).
  lia.
Qed.

Lemma add_loop_fuel fuel s :
  (size (cache s) < fuel)%nat → add_loop fuel s ≠ OutOfFuel.
Proof.
  revert s. induction fuel as [|fuel IH]; intros s Hsz; [lia|]. simpl.
  destruct (cache s !! written s) as [next|] eqn:Hnext; [|done].
  destruct (record_range _ _ _ _) as [pos'|]; [|done].
  apply IH. simpl.
  pose proof (size_delete_lt _ _ _ Hnext). lia.
Qed.

Lemma add_loop_more_fuel fuel fuel' s s' :
  add_loop fuel s = Done s' → (fuel ≤ fuel')%nat → add_loop fuel' s = Done s'.
Proof.
  revert fuel' s. induction fuel as [|fuel IH]; intros fuel' s; [done|].
  intros Hl Hle. destruct fuel' as [|fuel']; [lia|]. simpl in *.
  destruct (cache s !! written s) as [next|]; [|done].
  destruct (record_range _ _ _ _) as [pos'|]; [|done].
  apply (IH fuel'); [done|lia].
Qed.





(** *** What a sequence of [add] calls leaves in [written] and [pos] *)

(** A segment covers the index chunks [first..last]. *)
Definition covers (seg : IndexSegment) (q : Z) : Prop :=
  first seg ≤ q ≤ last seg.

Definition covered (segs : list IndexSegment) (q : Z) : Prop :=
  ∃ seg, seg ∈ segs ∧ covers seg q.

Definition well_formed (idx : Index) (seg : IndexSegment) : Prop :=
  0 ≤ first seg ∧ first seg ≤ last seg ∧ last seg < len (Chunks idx).

(** The segments are the segments of one partition of the index: two of them
    that share a position are the same range. *)
Definition one_partition (segs : list IndexSegment) : Prop :=
  ∀ x y, x ∈ segs → y ∈ segs → first x ≤ last y → first y ≤ last x →
         first x = first y ∧ last x = last y.

(** Position [q] of the index holds a chunk with ID [id]. *)
Definition has_id (idx : Index) (id : ChunkID) (q : Z) : Prop :=
  ID <$> index_at (Chunks idx) q = Some id.

#[global] Instance has_id_dec idx id q : Decision (has_id idx id q).
Proof. unfold has_id. apply _. Defined.

(** The positions below [w] that hold [id], in increasing order. *)
Definition positions (idx : Index) (w : Z) (id : ChunkID) : list Z :=
  filter (has_id idx id) (seqZ 0 w).

Lemma wrap_int_id z : - 2 ^ 63 ≤ z ≤ int_max → wrap_int z = z.
Proof.
  unfold wrap_int, int_max. intros Hz.
  rewrite Z.mod_small by lia. lia.
Qed.

Lemma record_range_spec idx pos i n :
  0 ≤ i → i + Z.of_nat n ≤ len (Chunks idx) →
  ∃ pos', record_range (Chunks idx) pos i n = Some pos' ∧
    (∀ id, default [] (pos' !! id) =
           default [] (pos !! id) ++ filter (has_id idx id) (seqZ i (Z.of_nat n))) ∧
    ((∀ id, pos !! id ≠ Some []) → ∀ id, pos' !! id ≠ Some []).
Proof.
  revert pos i. induction n as [|n IH]; intros pos i Hi Hn.
  - exists pos. split; [done|]. split; [|done].
    intros id. rewrite seqZ_nil by lia. by rewrite filter_nil, app_nil_r.
  - simpl. destruct (index_at_is_Some (Chunks idx) i) as [c Hc]; [lia|].
    rewrite Hc.
    destruct (IH (<[ID c := default [] (pos !! ID c) ++ [i]]> pos) (i + 1))
      as (pos' & Hr & Happ & Hne); [lia..|].
    exists pos'. split; [done|]. split.
    + intros id. rewrite Happ, (seqZ_cons i) by lia.
      replace (Z.succ i) with (i + 1) by lia.
      replace (Z.pred (Z.of_nat (S n))) with (Z.of_nat n) by lia.
      destruct (decide (ID c = id)) as [<-|Hid].
      * rewrite lookup_insert_eq, filter_cons_True; simpl.
        -- by rewrite <- app_assoc.
        -- unfold has_id. by rewrite Hc.
      * rewrite lookup_insert_ne, filter_cons_False; [done| |done].
        unfold has_id. rewrite Hc. simpl. congruence.
    + intros Hpos. apply Hne. intros id.
      destruct (decide (ID c = id)) as [<-|Hid].
      * rewrite lookup_insert_eq. intros [= Hnil].
        by apply app_nil in Hnil as [_ [=]].
      * by rewrite lookup_insert_ne.
Qed.

(** The invariant that links the seed to the segments added so far. *)
Record tracks (idx : Index) (added : list IndexSegment) (s : selfSeed) : Prop := {
  tr_index : seedIndex s = idx;
  tr_written : 0 ≤ written s ≤ len (Chunks idx);
  tr_prefix : ∀ q, 0 ≤ q < written s → covered added q;
  tr_whole : ∀ seg, seg ∈ added → last seg < written s ∨ written s ≤ first seg;
  tr_pending : ∀ seg, seg ∈ added → written s ≤ first seg →
                      cache s !! first seg = Some (last seg + 1);
  tr_cache : ∀ k v, cache s !! k = Some v →
                    ∃ seg, seg ∈ added ∧ first seg = k ∧ last seg + 1 = v;
  tr_pos : ∀ id, default [] (pos s !! id) = positions idx (written s) id;
  tr_nonempty : ∀ id, pos s !! id ≠ Some [];
}.

Lemma tracks_record idx added s seg :
  len (Chunks idx) ≤ int_max →
  (∀ x, x ∈ seg :: added → well_formed idx x) →
  one_partition (seg :: added) →
  tracks idx added s →
  tracks idx (seg :: added) (record_segment s seg).
Proof.
  intros Hmax Hwf Hpart [Hi Hw Hpre Hwh Hpend Hc Hpos Hne].
  assert (wrap_int (last seg + 1) = last seg + 1) as Hwrap.
  { destruct (Hwf seg) as (? & ? & ?); [by left|].
    apply wrap_int_id. unfold int_max in *. lia. }
  split; simpl; try done.
  - intros q Hq. destruct (Hpre q Hq) as (x & Hx & Hcov).
    exists x. split; [by right|done].
  - intros x [->|Hx]%elem_of_cons; [|by apply Hwh].
    destruct (decide (written s ≤ first seg)) as [|Hlt]; [by right|]. left.
    destruct (decide (last seg < written s)) as [|Hge]; [done|].
    destruct (Hwf seg) as (Hf0 & Hfl & _); [by left|].
    destruct (Hpre (first seg)) as (y & Hy & Hcy); [lia|].
    destruct (Hpart seg y) as [Hf Hl]; [by left|by right|unfold covers in *; lia..|].
    destruct (Hwh y Hy); lia.
  - rewrite Hwrap. intros x Hx Hwx.
    destruct (decide (first x = first seg)) as [Hf|Hf].
    + rewrite Hf, lookup_insert_eq.
      destruct (Hwf x Hx) as (_ & ? & _). destruct (Hwf seg) as (_ & ? & _); [by left|].
      destruct (Hpart x seg) as [_ ->]; [done|by left|lia..|done].
    + rewrite lookup_insert_ne by done.
      apply elem_of_cons in Hx as [->|Hx]; [done|]. by apply Hpend.
  - rewrite Hwrap. intros k v.
    destruct (decide (first seg = k)) as [<-|Hk].
    + rewrite lookup_insert_eq. intros [= <-]. exists seg. split; [by left|done].
    + rewrite lookup_insert_ne by done. intros (x & Hx & ?)%Hc.
      exists x. split; [by right|done].
Qed.

Lemma positions_app idx w n id :
  0 ≤ w → 0 ≤ n →
  positions idx (w + n) id = positions idx w id ++ filter (has_id idx id) (seqZ w n).
Proof.
  intros Hw Hn. unfold positions.
  by rewrite seqZ_app, filter_app by done.
Qed.

Lemma tracks_add_loop idx added fuel s :
  (∀ x, x ∈ added → well_formed idx x) →
  one_partition added →
  (size (cache s) < fuel)%nat →
  tracks idx added s →
  ∃ s', add_loop fuel s = Done s' ∧ tracks idx added s' ∧
        cache s' !! written s' = None.
Proof.
  intros Hwf Hpart. revert s.
  induction fuel as [|fuel IH]; intros s Hsz Ht; [lia|]. simpl.
  destruct (cache s !! written s) as [next|] eqn:Hnext; [|by exists s].
  destruct Ht as [Hi Hw Hpre Hwh Hpend Hc Hpos Hne].
  destruct (Hc _ _ Hnext) as (seg & Hseg & Hfirst & Hlast).
  destruct (Hwf seg Hseg) as (Hf0 & Hfl & Hll).
  rewrite Hi.
  destruct (record_range_spec idx (pos s) (written s) (Z.to_nat (next - written s)))
    as (pos' & -> & Happ & Hne'); [lia..|].
  apply IH.
  { simpl. pose proof (size_delete_lt _ _ _ Hnext). lia. }
  split; simpl; try done.
  - lia.
  - intros q Hq. destruct (decide (q < written s)); [apply Hpre; lia|].
    exists seg. split; [done|]. unfold covers. lia.
  - intros x Hx. destruct (Hwh x Hx) as [|Hwx]; [lia|].
    destruct (decide (next ≤ first x)); [by right|]. left.
    destruct (Hwf x Hx) as (_ & ? & _).
    destruct (Hpart x seg) as [_ Hl]; [done|done|lia..|]. lia.
  - intros x Hx Hnx. rewrite lookup_delete_ne by lia. apply Hpend; [done|lia].
  - intros k v Hkv. apply Hc.
    destruct (decide (written s = k)) as [<-|]; [by rewrite lookup_delete_eq in Hkv|].
    by rewrite lookup_delete_ne in Hkv.
  - intros id. rewrite Happ, Hpos.
    replace next with (written s + Z.of_nat (Z.to_nat (next - written s))) at 2 by lia.
    by rewrite positions_app by lia.
  - by apply Hne'.
Qed.

Lemma tracks_add_all idx segs added s :
  len (Chunks idx) ≤ int_max →
  (∀ x, x ∈ added ++ segs → well_formed idx x) →
  one_partition (added ++ segs) →
  tracks idx added s →
  cache s !! written s = None →
  ∃ s', add_all s segs = Done s' ∧ tracks idx (added ++ segs) s' ∧
        cache s' !! written s' = None.
Proof.
  intros Hmax. revert added s.
  induction segs as [|seg segs IH]; intros added s Hwf Hpart Ht Hnone; simpl.
  - exists s. by rewrite app_nil_r.
  - assert (∀ x, x ∈ seg :: added → x ∈ added ++ seg :: segs) as Hsub.
    { intros x. rewrite elem_of_cons, elem_of_app, elem_of_cons. tauto. }
    assert (∀ x, x ∈ (seg :: added) ++ segs ↔ x ∈ added ++ seg :: segs) as Heq.
    { intros x. rewrite !elem_of_app, !elem_of_cons. tauto. }
    destruct (tracks_add_loop idx (seg :: added)
                (S (size (cache (record_segment s seg)))) (record_segment s seg))
      as (s1 & Hadd & Ht1 & Hnone1).
    + intros x Hx. apply Hwf. by apply Hsub.
    + intros x y Hx Hy. apply Hpart; by apply Hsub.
    + lia.
    + apply tracks_record; [done| | |done].
      * intros x Hx. apply Hwf. by apply Hsub.
      * intros x y Hx Hy. apply Hpart; by apply Hsub.
    + unfold add. rewrite Hadd. cbn [obind].
      destruct (IH (seg :: added) s1) as (s' & Hall & Ht' & Hnone'); [| |done|done|].
      * intros x Hx. apply Hwf. by apply Heq.
      * intros x y Hx Hy. apply Hpart; by apply Heq.
      * exists s'. split; [done|]. split; [|done].
        destruct Ht' as [Hi Hw Hpre Hwh Hpend Hc Hpos Hne].
        split; try done.
        -- intros q Hq. destruct (Hpre q Hq) as (x & Hx & ?).
           exists x. split; [by apply Heq|done].
        -- intros x Hx. apply Hwh. by apply Heq.
        -- intros x Hx. apply Hpend. by apply Heq.
        -- intros k v (x & Hx & ?)%Hc. exists x. split; [by apply Heq|done].
Qed.

Lemma tracks_new f idx cc : tracks idx [] (newSelfSeed f idx cc).
Proof.
  split; simpl.
  - done.
  - unfold len. lia.
  - intros q Hq. lia.
  - intros x Hx. by apply elem_of_nil in Hx.
  - intros x Hx. by apply elem_of_nil in Hx.
  - intros k v. by rewrite lookup_empty.
  - intros id. rewrite lookup_empty. unfold positions. by rewrite seqZ_nil.
  - intros id. by rewrite lookup_empty.
Qed.

(** Segments that overlap or repeat at will: [pos] still holds exactly the
    positions below [written]. *)
Record recorded (idx : Index) (s : selfSeed) : Prop := {
  rc_index : seedIndex s = idx;
  rc_written : 0 ≤ written s ≤ len (Chunks idx);
  rc_cache : ∀ k v, cache s !! k = Some v → 0 ≤ k ∧ k < v ∧ v ≤ len (Chunks idx);
  rc_pos : ∀ id, default [] (pos s !! id) = positions idx (written s) id;
  rc_nonempty : ∀ id, pos s !! id ≠ Some [];
}.

Lemma recorded_add_loop idx fuel s :
  (size (cache s) < fuel)%nat → recorded idx s →
  ∃ s', add_loop fuel s = Done s' ∧ recorded idx s'.
Proof.
  revert s. induction fuel as [|fuel IH]; intros s Hsz Hr; [lia|]. simpl.
  destruct (cache s !! written s) as [next|] eqn:Hnext; [|by exists s].
  destruct Hr as [Hi Hw Hc Hpos Hne].
  destruct (Hc _ _ Hnext) as (_ & Hlt & Hle). rewrite Hi.
  destruct (record_range_spec idx (pos s) (written s) (Z.to_nat (next - written s)))
    as (pos' & -> & Happ & Hne'); [lia..|].
  apply IH.
  { simpl. pose proof (size_delete_lt _ _ _ Hnext). lia. }
  split; simpl; try done.
  - lia.
  - intros k v Hkv. apply Hc.
    destruct (decide (written s = k)) as [<-|]; [by rewrite lookup_delete_eq in Hkv|].
    by rewrite lookup_delete_ne in Hkv.
  - intros id. rewrite Happ, Hpos.
    replace next with (written s + Z.of_nat (Z.to_nat (next - written s))) at 2 by lia.
    by rewrite positions_app by lia.
  - by apply Hne'.
Qed.

Lemma recorded_add_all idx segs s :
  len (Chunks idx) ≤ int_max →
  Forall (well_formed idx) segs → recorded idx s →
  ∃ s', add_all s segs = Done s' ∧ recorded idx s'.
Proof.
  intros Hmax Hwf. revert s.
  induction Hwf as [|seg segs (Hf0 & Hfl & Hll) _ IH]; intros s Hr; simpl.
  - by exists s.
  - destruct (recorded_add_loop idx (S (size (cache (record_segment s seg))))
                (record_segment s seg)) as (s1 & Hadd & Hr1); [lia| |].
    + destruct Hr as [Hi Hw Hc Hpos Hne]. split; simpl; try done.
      rewrite wrap_int_id by (unfold int_max in *; lia).
      intros k v. destruct (decide (first seg = k)) as [<-|Hk].
      * rewrite lookup_insert_eq. intros [= <-]. lia.
      * rewrite lookup_insert_ne by done. apply Hc.
    + unfold add. rewrite Hadd. cbn [obind]. by apply IH.
Qed.

Lemma recorded_new f idx cc : recorded idx (newSelfSeed f idx cc).
Proof.
  split; simpl.
  - done.
  - unfold len. lia.
  - intros k v. by rewrite lookup_empty.
  - intros id. rewrite lookup_empty. unfold positions. by rewrite seqZ_nil.
  - intros id. by rewrite lookup_empty.
Qed.




End SelfSeed.

(** A run with natural numbers as chunk IDs: an index of five chunks, the
    segment [2..3] arriving before the segment [0..1]. *)
Definition demo_index : Index (ChunkID := nat) :=
  mkIndex [mkIndexChunk 7%nat 0 10; mkIndexChunk 8%nat 10 10;
           mkIndexChunk 7%nat 20 10; mkIndexChunk 9%nat 30 10;
           mkIndexChunk 8%nat 40 10].

Definition demo_segments : list (IndexSegment (ChunkID := nat)) :=
  [mkIndexSegment demo_index 2 3; mkIndexSegment demo_index 0 1].

Definition demo_seed : selfSeed (ChunkID := nat) :=
  {| file := "out"; seedIndex := demo_index;
     pos := {[ 7%nat := [0; 2]; 8%nat := [1]; 9%nat := [3] ]};
     canReflink := true; written := 4; cache := ∅ |}.

Lemma demo_seed_reached :
  add_all (newSelfSeed "out" demo_index true) demo_segments = Done demo_seed.
Proof. vm_compute. reflexivity. Qed.

Lemma LongestMatchWith_below_written_witness :
  ∃ r, LongestMatchWith demo_seed
         [mkIndexChunk 7%nat 0 10; mkIndexChunk 9%nat 10 10; mkIndexChunk 8%nat 20 10]
       = Done r ∧
       r.1 = slice_len (matched r) ∧
       ∀ sl, matched r = Some sl →
             ∀ q, lo sl ≤ q < hi sl → 0 ≤ q < written demo_seed.
Proof.
  apply (LongestMatchWith_below_written "out" demo_index true demo_segments).
  vm_compute. reflexivity.
Defined.


Lemma demo_segments_one_partition : one_partition demo_segments.
Proof.
  intros x y Hx Hy. unfold demo_segments in *.
  repeat (apply elem_of_cons in Hx as [->|Hx]);
    repeat (apply elem_of_cons in Hy as [->|Hy]);
    try (by apply elem_of_nil in Hx); try (by apply elem_of_nil in Hy);
    simpl; lia.
Qed.

(** The query on the demo seed: the chunk IDs 7, 9, 8 match the positions 2
    and 3; position 4 holds the ID 8 as well, but is not written yet. *)
Example LongestMatchWith_demo :
  LongestMatchWith demo_seed
    [mkIndexChunk 7%nat 0 10; mkIndexChunk 9%nat 10 10; mkIndexChunk 8%nat 20 10]
  = Done (2, Some (newFileSeedSegment "out" (Some (mkSlice 2 4)) true false)).
Proof. vm_compute. reflexivity. Qed.

End SelfSeed.


(** ** Go's [strings] and [path/filepath] functions used by the stores *)
Module GoStrings.

Local Open Scope string_scope.
Local Open Scope nat_scope.

(** [s[i:]] for [i <= len(s)]. *)
Fixpoint string_drop (n : nat) (s : string) : string :=
  match n, s with
  | O, _ => s
  | S n', String _ s' => string_drop n' s'
  | S _, EmptyString => EmptyString
  end.

(** [s[:i]] for [i <= len(s)]. *)
Fixpoint string_take (n : nat) (s : string) : string :=
  match n, s with
  | O, _ => EmptyString
  | S n', String c s' => String c (string_take n' s')
  | S _, EmptyString => EmptyString
  end.

(** [len(s) >= len(prefix) && s[:len(prefix)] == prefix] *)
Definition HasPrefix (s prefix : string) : bool :=
  (String.length prefix <=? String.length s) &&
  String.eqb (string_take (String.length prefix) s) prefix.

(** [len(s) >= len(suffix) && s[len(s)-len(suffix):] == suffix] *)
Definition HasSuffix (s suffix : string) : bool :=
  (String.length suffix <=? String.length s) &&
  String.eqb (string_drop (String.length s - String.length suffix) s) suffix.

Definition TrimPrefix (s prefix : string) : string :=
  if HasPrefix s prefix then string_drop (String.length prefix) s else s.

Definition TrimSuffix (s suffix : string) : string :=
  if HasSuffix s suffix then string_take (String.length s - String.length suffix) s
  else s.

(** [strings.Split(s, sep)] for a separator of one byte: the fields between
    the separators, empty fields included; always at least one field. *)
Fixpoint Split (s : string) (sep : ascii) : list string :=
  match s with
  | EmptyString => [EmptyString]
  | String c s' =>
      if Ascii.eqb c sep then EmptyString :: Split s' sep
      else match Split s' sep with
           | [] => [String c EmptyString]
           | f :: fs => String c f :: fs
           end
  end.

Fixpoint contains_byte (s : string) (c : ascii) : bool :=
  match s with
  | EmptyString => false
  | String d s' => Ascii.eqb d c || contains_byte s' c
  end.

(** [strings.ContainsAny(s, chars)] for ASCII [chars]. *)
Fixpoint ContainsAny (s chars : string) : bool :=
  match s with
  | EmptyString => false
  | String c s' => contains_byte chars c || ContainsAny s' chars
  end.

(** The text after the last ["/"] of [s] ([s] itself when it has none). *)
Fixpoint last_element (s : string) : string :=
  match s with
  | EmptyString => EmptyString
  | String c s' =>
      if contains_byte s' "/" then last_element s'
      else if Ascii.eqb c "/" then s' else s
  end.

(** Drops the slashes at the end of [s]. *)
Fixpoint strip_slashes (s : string) : string :=
  match s with
  | EmptyString => EmptyString
  | String c s' =>
      match strip_slashes s' with
      | EmptyString => if Ascii.eqb c "/" then EmptyString else String c EmptyString
      | t => String c t
      end
  end.

(** [filepath.Base] with ["/"] as the separator: ["."] for the empty path,
    trailing slashes dropped, then the last element; ["/"] when the path was
    slashes only. *)
Definition filepath_Base (path : string) : string :=
  match path with
  | EmptyString => "."
  | _ =>
      match last_element (strip_slashes path) with
      | EmptyString => "/"
      | b => b
      end
  end.

Lemma length_append a b :
  String.length (a ++ b) = String.length a + String.length b.
Proof. induction a as [|c a IH]; simpl; [done|]. by rewrite IH. Qed.

Lemma string_drop_app a b : string_drop (String.length a) (a ++ b) = b.
Proof. induction a as [|c a IH]; simpl; done. Qed.

Lemma string_take_app a b : string_take (String.length a) (a ++ b) = a.
Proof. induction a as [|c a IH]; simpl; [done|]. by rewrite IH. Qed.

Lemma HasSuffix_app a e : HasSuffix (a ++ e) e = true.
Proof.
  unfold HasSuffix. rewrite length_append.
  replace (String.length a + String.length e - String.length e)
    with (String.length a) by lia.
  rewrite string_drop_app, String.eqb_refl, andb_true_r.
  apply Nat.leb_le. lia.
Qed.

Lemma TrimSuffix_app a e : TrimSuffix (a ++ e) e = a.
Proof.
  unfold TrimSuffix. rewrite HasSuffix_app, length_append.
  replace (String.length a + String.length e - String.length e)
    with (String.length a) by lia.
  apply string_take_app.
Qed.

Lemma HasPrefix_app p r : HasPrefix (p ++ r) p = true.
Proof.
  unfold HasPrefix. rewrite length_append, string_take_app, String.eqb_refl.
  rewrite andb_true_r. apply Nat.leb_le. lia.
Qed.

Lemma TrimPrefix_app p r : TrimPrefix (p ++ r) p = r.
Proof. unfold TrimPrefix. by rewrite HasPrefix_app, string_drop_app. Qed.

Lemma string_take_drop n s : string_take n s ++ string_drop n s = s.
Proof.
  revert s. induction n as [|n IH]; intros [|c s]; simpl; try done.
  exact (f_equal (String c) (IH s)).
Qed.

Lemma HasSuffix_true s e : HasSuffix s e = true → ∃ a, s = a ++ e.
Proof.
  unfold HasSuffix. intros [_ Heq]%andb_true_iff.
  apply String.eqb_eq in Heq.
  exists (string_take (String.length s - String.length e) s).
  pose proof (string_take_drop (String.length s - String.length e) s) as Htd.
  by rewrite Heq in Htd.
Qed.

Lemma HasPrefix_take s n :
  n ≤ String.length s → HasPrefix s (string_take n s) = true.
Proof.
  intros Hn. rewrite <- (string_take_drop n s) at 1. apply HasPrefix_app.
Qed.

(** Fields without separators are split back apart. *)
Lemma Split_no_sep s sep : contains_byte s sep = false → Split s sep = [s].
Proof.
  induction s as [|c s IH]; simpl; [done|].
  intros [Hc Hs]%orb_false_iff. rewrite Hc, IH; done.
Qed.

Lemma Split_app a b sep :
  contains_byte a sep = false →
  Split (a ++ String sep b) sep = a :: Split b sep.
Proof.
  induction a as [|c a IH]; simpl.
  - intros _. by rewrite Ascii.eqb_refl.
  - intros [Hc Ha]%orb_false_iff. rewrite Hc, IH; done.
Qed.

Lemma contains_byte_app a b c :
  contains_byte (a ++ b) c = contains_byte a c || contains_byte b c.
Proof.
  induction a as [|d a IH]; simpl; [done|]. by rewrite IH, orb_assoc.
Qed.

Lemma last_element_no_sep s : contains_byte s "/" = false → last_element s = s.
Proof.
  destruct s as [|c s]; simpl; [done|].
  intros [Hc Hs]%orb_false_iff. by rewrite Hs, Hc.
Qed.

Lemma last_element_app a b :
  contains_byte b "/" = false → last_element (a ++ String "/" b) = b.
Proof.
  intros Hb. induction a as [|c a IH]; simpl.
  - by rewrite Hb.
  - rewrite contains_byte_app. simpl. by rewrite orb_true_r.
Qed.

Lemma strip_slashes_id s :
  s ≠ EmptyString → contains_byte s "/" = false → strip_slashes s = s.
Proof.
  induction s as [|c s IH]; [done|]. intros _. simpl.
  intros [Hc Hs]%orb_false_iff.
  destruct s as [|d s]; simpl.
  - by rewrite Hc.
  - simpl in IH. rewrite IH; [done..|]. done.
Qed.

Lemma strip_slashes_app a b :
  b ≠ EmptyString → contains_byte b "/" = false →
  strip_slashes (a ++ b) = a ++ b.
Proof.
  intros Hb Hs. induction a as [|c a IH]; simpl.
  - by apply strip_slashes_id.
  - rewrite IH. change (String c a ++ b) with (String c (a ++ b)).
    destruct (a ++ b) eqn:Hab; [|done].
    destruct a; simpl in Hab; [done|discriminate].
Qed.

Lemma append_sep_assoc dir c name :
  (dir ++ String c EmptyString) ++ name = dir ++ String c name.
Proof.
  induction dir as [|d dir IH]; [done|]. exact (f_equal (String d) IH).
Qed.

(** The base name of [dir/name] is [name], for a plain [name]. *)
Lemma filepath_Base_app dir name :
  name ≠ EmptyString → contains_byte name "/" = false →
  filepath_Base (dir ++ String "/" name) = name.
Proof.
  intros Hne Hs. unfold filepath_Base.
  destruct (dir ++ String "/" name) eqn:Hp.
  { destruct dir; discriminate. }
  rewrite <- Hp, <- append_sep_assoc.
  rewrite strip_slashes_app by done.
  rewrite append_sep_assoc, last_element_app by done.
  by destruct name.
Qed.

End GoStrings.

(** ** Chunk IDs and their string form *)
Module HexID.

Local Open Scope string_scope.
Local Open Scope N_scope.

(** Modelled from the spec: a ChunkID is a 32-byte digest whose stable string
    form is lowercase hex ([ChunkID.String], [ChunkIDFromString]; the chunk ID
    type is not part of the sources at hand).  The 32 bytes are held as a
    [string]; the parser reads hex digits of either case and wants 32
    bytes. *)
Definition ChunkID : Type := string.

Definition hex_digit (n : N) : ascii :=
  if n <? 10 then ascii_of_N (48 + n) else ascii_of_N (87 + n).

Definition hex_value (c : ascii) : option N :=
  let n := N_of_ascii c in
  if (48 <=? n) && (n <=? 57) then Some (n - 48)
  else if (97 <=? n) && (n <=? 102) then Some (n - 87)
  else if (65 <=? n) && (n <=? 70) then Some (n - 55)
  else None.

Fixpoint EncodeToString (b : string) : string :=
  match b with
  | EmptyString => EmptyString
  | String c b' =>
      String (hex_digit (N_of_ascii c / 16))
        (String (hex_digit (N_of_ascii c mod 16)) (EncodeToString b'))
  end.

Fixpoint DecodeString (s : string) : option string :=
  match s with
  | EmptyString => Some EmptyString
  | String _ EmptyString => None
  | String c1 (String c2 s') =>
      match hex_value c1, hex_value c2, DecodeString s' with
      | Some h, Some l, Some b => Some (String (ascii_of_N (16 * h + l)) b)
      | _, _, _ => None
      end
  end.

Definition ChunkID_String (id : ChunkID) : string := EncodeToString id.

Definition ChunkIDFromString (s : string) : option ChunkID :=
  match DecodeString s with
  | Some b => if (String.length b =? 32)%nat then Some b else None
  | None => None
  end.





Lemma length_EncodeToString b :
  String.length (EncodeToString b) = (2 * String.length b)%nat.
Proof. induction b as [|c b IH]; simpl; [done|]. rewrite IH. lia. Qed.



(** The ID whose 32 bytes all are [c]. *)
Definition uniform_id (c : ascii) : ChunkID :=
  String.concat "" (replicate 32 (String c "")).

End HexID.

(** ** The chunk stores (src/gcs.go: LocalStore and GCSStore; src/store_utils.go) *)
Module Stores.

Local Open Scope string_scope.
Import GoStrings.

(** The error numbers of the operating system that the code tells apart. *)
Inductive errno : Type := ENOENT | EEXIST | ENOTEMPTY | EACCES | EBUSY | EIO.

#[global] Instance errno_eq_dec : EqDecision errno.
Proof. solve_decision. Defined.

(** Modelled from the spec: the [StoreOptions] struct (its declaration is not
    part of the sources at hand); these are the fields the code reads. *)
Record StoreOptions := mkStoreOptions {
  N : Z;
  ClientCert : string;
  ClientKey : string;
  CACert : string;
  SkipVerify : bool;
  TrustInsecure : bool;
  Timeout : Z;
  ErrorRetry : Z;
  Uncompressed : bool;
}.

(** Modelled from the spec: the chunk file extensions, [<full_id>.cacnk]
    (compressed) and [<full_id>.uncacnk] (uncompressed). *)
Definition CompressedChunkExt : string := ".cacnk".
Definition UncompressedChunkExt : string := ".uncacnk".

Record LocalStore := mkLocalStore {
  Base : string;
  UpdateTimes : bool;
  opt : StoreOptions;
}.

(** The extension a store with options [o] gives its chunks. *)
Definition chunk_ext (o : StoreOptions) : string :=
  if Uncompressed o then UncompressedChunkExt else CompressedChunkExt.

Section Stores.

(** A chunk ID is a 32-byte digest; [ChunkID_String] is [ChunkID.String]
    (lowercase hex) and [ChunkIDFromString] its parser.  Neither is part of
    the sources at hand, nor is [filepath.Join] of Go's library. *)
Context {ChunkID : Type} `{Countable ChunkID}.
Variable ChunkID_String : ChunkID → string.
Variable ChunkIDFromString : string → option ChunkID.
Variable filepath_Join : string → string → string.

(** Modelled from the spec: a [Chunk] with its memoized ID ([chunk.ID()]) and
    the digest of its data (what [ID()] computes once [idCalculated] is
    reset). *)
Variable Chunk : Type.
Variable chunk_ID : Chunk → ChunkID.
Variable chunk_digest : Chunk → ChunkID.

Inductive error : Type :=
| ChunkMissing (id : ChunkID)
| ChunkInvalid (id sum : ChunkID)
| Interrupted
| PathError (e : errno)
| ErrObjectNotExist
| Failure (msg : string).

(** [os.IsNotExist] and [os.IsExist] look at the error number under the
    error; a nil error is neither. *)
Definition os_IsNotExist (err : option error) : bool :=
  match err with
  | Some (PathError ENOENT) => true
  | _ => false
  end.

Definition os_IsExist (err : option error) : bool :=
  match err with
  | Some (PathError EEXIST) | Some (PathError ENOTEMPTY) => true
  | _ => false
  end.

(** [LocalStore.nameFromID]; [sID[0:4]] never panics, an ID string has 64
    characters. *)
Definition nameFromID (s : LocalStore) (id : ChunkID) : string * string :=
  let sID := ChunkID_String id in
  let dir := filepath_Join (Base s) (string_take 4 sID) in
  let name := filepath_Join dir sID in
  (dir, name ++ chunk_ext (opt s)).

(** *** Calls into the operating system and into code outside the sources

    Each call is answered by the environment; a program is the tree of the
    calls it makes. *)
Inductive call : Type → Type :=
| os_Stat (name : string) : call (option error)
| chunk_Uncompressed (c : Chunk) : call (string * option error)
| chunk_Compressed (c : Chunk) : call (string * option error)
| os_MkdirAll (path : string) (perm : Z) : call (option error)
| tempfile_NewSuffixAndMode (dir pfx sfx : string) (mode : Z)
    : call (string * option error)
| file_Write (name : string) (b : string) : call (option error)
| file_Close (name : string) : call unit
| os_Remove (name : string) : call (option error)
| os_Rename (oldpath newpath : string) : call (option error)
| ioutil_ReadFile (name : string) : call (option string * option error)
| NewChunkWithID (id : ChunkID) (uncompressed compressed : option string)
    (skipVerify : bool) : call (Chunk + error)
| fmt_Printf (format : string) : call unit
| time_Sleep (milliseconds : Z) : call unit.

Inductive prog (A : Type) : Type :=
| Ret (a : A)
| Do (T : Type) (c : call T) (k : T → prog A).
Arguments Ret {A} a.
Arguments Do {A T} c k.

Fixpoint pbind {A B} (m : prog A) (f : A → prog B) : prog B :=
  match m with
  | Ret a => f a
  | Do c k => Do c (λ t, pbind (k t) f)
  end.

Notation "'call!' x := c 'in' k" := (Do c (λ x, k))
  (at level 10, x pattern, c at level 100, k at level 200, only parsing).
Notation "'run!' x := m 'in' k" := (pbind m (λ x, k))
  (at level 10, x pattern, m at level 100, k at level 200, only parsing).

(** A call together with the answer it got. *)
Inductive event : Type :=
| Ev (T : Type) (c : call T) (t : T).
Arguments Ev {T} c t.

(** The environment answers a call knowing everything that happened before
    ([h]); a run yields the events of the program, in order, and its result. *)
Definition env : Type := ∀ T, list event → call T → T.

Fixpoint exec {A} (e : env) (h : list event) (p : prog A) : list event * A :=
  match p with
  | Ret a => ([], a)
  | Do c k =>
      let t := e _ h c in
      let r := exec e (h ++ [Ev c t]) (k t) in
      (Ev c t :: r.1, r.2)
  end.

(** [LocalStore.GetChunk] *)
Definition GetChunk (s : LocalStore) (id : ChunkID) : prog (Chunk + error) :=
  let p := (nameFromID s id).2 in
  call! r := ioutil_ReadFile p in
  if os_IsNotExist r.2 then Ret (inr (ChunkMissing id))
  else if Uncompressed (opt s) then
    call! c := NewChunkWithID id r.1 None (SkipVerify (opt s)) in Ret c
  else
    call! c := NewChunkWithID id None r.1 (SkipVerify (opt s)) in Ret c.

(** [LocalStore.getChunkForceValidate]; only the error matters to its
    caller. *)
Definition getChunkForceValidate (s : LocalStore) (id : ChunkID)
  : prog (option error) :=
  run! r := GetChunk s id in
  match r with
  | inr err => Ret (Some err)
  | inl chunk =>
      if SkipVerify (opt s) then
        let sum := chunk_digest chunk in
        if decide (sum = id) then Ret None
        else Ret (Some (ChunkInvalid id sum))
      else Ret None
  end.

(** How the body of the retry loop ends: with a [return], or by falling
    through to the retry. *)
Inductive flow : Type :=
| Return (err : option error)
| Fallthrough.

(** The [if ... else] at the head of the loop body in [StoreChunk]. *)
Definition inspect_destination (s : LocalStore) (id : ChunkID) (tmp p : string)
  : prog flow :=
  call! st := os_Stat p in
  if os_IsNotExist st then
    call! _ := fmt_Printf "Failed to rename file from `%s` to `%s`, error: %s\n" in
    Ret Fallthrough
  else
    run! verr := getChunkForceValidate s id in
    match verr with
    | Some (ChunkInvalid _ _) =>
        call! rerr := os_Remove p in
        match rerr with
        | None => Ret Fallthrough
        | Some _ =>
            if os_IsNotExist rerr then Ret Fallthrough
            else
              call! _ := fmt_Printf "Failed to remove invalid chunk `%s`, error %s\n" in
              Ret Fallthrough
        end
    | None =>
        call! rerr := os_Remove tmp in
        match rerr with
        | Some _ =>
            call! _ := fmt_Printf
              "Valid chunk already exists, failed to remove temp file `%s`, error: %s\n" in
            Ret Fallthrough
        | None => Ret (Return None)
        end
    | Some other => Ret (Return (Some other))
    end.

(** [for err != nil { ... }; return err], entered with the error of the
    latest rename. *)
Fixpoint rename_loop (s : LocalStore) (id : ChunkID) (tmp p : string)
    (retriesLeft : nat) (err : option error) : prog (option error) :=
  match err with
  | None => Ret None
  | Some _ =>
      run! f := inspect_destination s id tmp p in
      match f with
      | Return r => Ret r
      | Fallthrough =>
          match retriesLeft with
          | O => Ret err
          | S retriesLeft' =>
              call! _ := time_Sleep 200 in
              call! err' := os_Rename tmp p in
              rename_loop s id tmp p retriesLeft' err'
          end
      end
  end.

(** [LocalStore.StoreChunk] *)
Definition StoreChunk (s : LocalStore) (chunk : Chunk) : prog (option error) :=
  let '(d, p) := nameFromID s (chunk_ID chunk) in
  call! err := os_Stat p in
  if os_IsExist err then Ret None
  else
    call! b := (if Uncompressed (opt s) then chunk_Uncompressed chunk
                else chunk_Compressed chunk) in
    match b.2 with
    | Some e => Ret (Some e)
    | None =>
        call! err := os_MkdirAll d 493 in
        match err with
        | Some e => Ret (Some e)
        | None =>
            call! tmp := tempfile_NewSuffixAndMode d "cacnk" ".tmp" 420 in
            match tmp.2 with
            | Some e => Ret (Some e)
            | None =>
                call! err := file_Write tmp.1 b.1 in
                match err with
                | Some e =>
                    call! _ := file_Close tmp.1 in
                    call! _ := os_Remove tmp.1 in
                    Ret (Some e)
                | None =>
                    call! _ := file_Close tmp.1 in
                    call! err := os_Rename tmp.1 p in
                    rename_loop s (chunk_ID chunk) tmp.1 p 10 err
                end
            end
        end
    end.

Arguments nameFromID : simpl never.
Arguments GetChunk : simpl never.
Arguments getChunkForceValidate : simpl never.
Arguments inspect_destination : simpl never.

(** *** Observations on a run *)

Definition is_rename (ev : event) : bool :=
  match ev with
  | Ev c _ =>
      match c with
      | os_Rename _ _ => true
      | _ => false
      end
  end.

Definition is_sleep (ms : Z) (ev : event) : bool :=
  match ev with
  | Ev c _ =>
      match c with
      | time_Sleep d => bool_decide (d = ms)
      | _ => false
      end
  end.


Definition is_temp_create (ev : event) : bool :=
  match ev with
  | Ev c _ =>
      match c with
      | tempfile_NewSuffixAndMode _ _ _ _ => true
      | _ => false
      end
  end.

Definition is_write (ev : event) : bool :=
  match ev with
  | Ev c _ =>
      match c with
      | file_Write _ _ => true
      | _ => false
      end
  end.

Definition is_compress (ev : event) : bool :=
  match ev with
  | Ev c _ =>
      match c with
      | chunk_Uncompressed _ | chunk_Compressed _ => true
      | _ => false
      end
  end.

Definition count (f : event → bool) (tr : list event) : nat :=
  length (filter (λ ev, f ev = true) tr).


(** The error of the last rename in [tr], [err0] when it has none. *)
Fixpoint last_rename_error (err0 : option error) (tr : list event)
  : option error :=
  match tr with
  | [] => err0
  | Ev c t :: tr' =>
      match c in call T return T → option error with
      | os_Rename _ _ => λ r, last_rename_error r tr'
      | _ => λ _, last_rename_error err0 tr'
      end t
  end.

Lemma exec_bind {A B} (e : env) h (m : prog A) (f : A → prog B) :
  exec e h (pbind m f) =
  let r1 := exec e h m in
  let r2 := exec e (h ++ r1.1) (f r1.2) in
  ((r1.1 ++ r2.1)%list, r2.2).
Proof.
  revert h. induction m as [a|T c k IH]; intros h; simpl.
  - rewrite app_nil_r. by destruct (exec e h (f a)).
  - rewrite IH. simpl. by rewrite <- app_assoc.
Qed.

Lemma count_nil f : count f [] = 0%nat.
Proof. done. Qed.

Lemma count_cons f ev tr :
  count f (ev :: tr) = ((if f ev then 1 else 0) + count f tr)%nat.
Proof.
  unfold count. destruct (f ev) eqn:Hf.
  - by rewrite filter_cons_True.
  - rewrite filter_cons_False; [done|]. by rewrite Hf.
Qed.




Lemma last_rename_error_app err0 tr1 tr2 :
  count is_rename tr1 = 0%nat →
  last_rename_error err0 (tr1 ++ tr2) = last_rename_error err0 tr2.
Proof.
  induction tr1 as [|[T c t] tr1 IH]; simpl; [done|].
  rewrite count_cons. destruct c; simpl; try done; apply IH.
Qed.

(** *** One round of the retry loop *)




(** The loop body, run once: inspect the destination; unless that returns,
    give up when no retry is left, else sleep 200 ms, rename again and go
    round with the new error. *)
Lemma exec_rename_loop e h s id tmp p n err0 :
  exec e h (rename_loop s id tmp p n (Some err0)) =
  let r1 := exec e h (inspect_destination s id tmp p) in
  match r1.2 with
  | Return r => (r1.1, r)
  | Fallthrough =>
      match n with
      | O => (r1.1, Some err0)
      | S n' =>
          let h1 := (h ++ r1.1 ++ [Ev (time_Sleep 200) ()])%list in
          let err' := e _ h1 (os_Rename tmp p) in
          let r2 := exec e (h1 ++ [Ev (os_Rename tmp p) err'])
                      (rename_loop s id tmp p n' err') in
          ((r1.1 ++ Ev (time_Sleep 200) () :: Ev (os_Rename tmp p) err' :: r2.1)%list,
           r2.2)
      end
  end.
Proof.
  destruct n as [|n']; cbn [rename_loop]; rewrite exec_bind; cbv zeta.
  - destruct (exec e h (inspect_destination s id tmp p)) as [tr1 [r|]];
      cbn [exec fst snd]; by rewrite app_nil_r.
  - destruct (exec e h (inspect_destination s id tmp p)) as [tr1 [r|]];
      cbn [exec fst snd]; cbv zeta.
    + by rewrite app_nil_r.
    + destruct (e unit (h ++ tr1)%list (time_Sleep 200)).
      by rewrite <- !app_assoc.
Qed.


(** The destination is not there: a message, then the retry. *)
Lemma inspect_not_exist (e : env) h s id tmp p :
  os_IsNotExist (e _ h (os_Stat p)) = true →
  ∃ msg, exec e h (inspect_destination s id tmp p) =
         ([Ev (os_Stat p) (e _ h (os_Stat p)); Ev (fmt_Printf msg) ()], Fallthrough).
Proof.
  intros Hst. unfold inspect_destination. cbn [exec]. cbv zeta. rewrite Hst.
  cbn [exec fst snd]. cbv zeta. eexists.
  by destruct (e unit _ (fmt_Printf _)).
Qed.



(** Any other validation error is returned as it is. *)
Lemma inspect_unexpected (e : env) h s id tmp p other :
  let st := e _ h (os_Stat p) in
  let h1 := (h ++ [Ev (os_Stat p) st])%list in
  let rv := exec e h1 (getChunkForceValidate s id) in
  os_IsNotExist st = false → rv.2 = Some other →
  (∀ a b, other ≠ ChunkInvalid a b) →
  exec e h (inspect_destination s id tmp p) =
    ((Ev (os_Stat p) st :: rv.1)%list, Return (Some other)).
Proof.
  intros st h1 rv Hst Hrv Hother. unfold inspect_destination.
  cbn [exec]. cbv zeta. fold st. rewrite Hst.
  rewrite exec_bind. cbv zeta. fold h1. fold rv. rewrite Hrv.
  destruct other; cbn [exec fst snd]; try by rewrite app_nil_r.
  by destruct (Hother id0 sum).
Qed.











(** *** The early return of [StoreChunk] *)

(** The events a run has before its first rename. *)
Fixpoint before_rename (tr : list event) : list event :=
  match tr with
  | [] => []
  | ev :: tr' => if is_rename ev then [] else ev :: before_rename tr'
  end.

(** The temp file was made and written, in this order, without an error. *)
Fixpoint temp_written (made : bool) (tr : list event) : bool :=
  match tr with
  | [] => false
  | Ev c t :: tr' =>
      match c in call T return T → bool with
      | tempfile_NewSuffixAndMode _ _ _ _ => λ r,
          temp_written (bool_decide (r.2 = None)) tr'
      | file_Write _ _ => λ r,
          (made && bool_decide (r = None)) || temp_written made tr'
      | _ => λ _, temp_written made tr'
      end t
  end.

(** C8.  [os.IsExist] is false of a nil error and of a not-exist error, the
    two answers [os.Stat] has for a destination that is, or is not, there; so
    [StoreChunk] never takes its early return: whatever the destination, the
    run goes on to fetch the chunk data after the [os.Stat], a run that
    returns nil has renamed, and every rename comes after the temp file was
    created and written. *)
Theorem StoreChunk_early_return_unreachable (e : env) (s : LocalStore)
    (chunk : Chunk) :
  let p := (nameFromID s (chunk_ID chunk)).2 in
  let st := e _ [] (os_Stat p) in
  st = None ∨ os_IsNotExist st = true →
  let r := exec e [] (StoreChunk s chunk) in
  os_IsExist st = false ∧
  (∃ ev tr, r.1 = Ev (os_Stat p) st :: ev :: tr ∧ is_compress ev = true) ∧
  (r.2 = None → (1 ≤ count is_rename r.1)%nat) ∧
  ((1 ≤ count is_rename r.1)%nat → temp_written false (before_rename r.1) = true).
Proof.
  intros p st Hst r.
  assert (os_IsExist st = false) as Hex.
  { destruct Hst as [->|Hst]; [done|]. by destruct st as [[| | |[]| |]|]. }
  split; [done|]. subst r. unfold StoreChunk.
  subst st p. destruct (nameFromID s (chunk_ID chunk)) as [d p].
  cbn [snd] in *. cbn [exec]. cbv zeta. rewrite Hex. clear Hst Hex.
  cbn [exec fst snd]. cbv zeta.
  match goal with |- context [e _ ?h ?c] =>
    match c with
    | (if _ then _ else _) =>
        assert (is_compress (Ev c (e _ h c)) = true) as Hc
          by (by destruct (Uncompressed (opt s)));
        assert (is_rename (Ev c (e _ h c)) = false) as Hr
          by (by destruct (Uncompressed (opt s)));
        destruct (e _ h c) as [b [eb|]]
    end
  end; cbn [exec fst snd]; cbv zeta.
  { split; [eauto|]. rewrite !count_cons, Hr. cbn. split; [done|lia]. }
  match goal with |- context [e _ ?h (os_MkdirAll d 493)] =>
    destruct (e _ h (os_MkdirAll d 493)) as [em|]
  end; cbn [exec fst snd]; cbv zeta.
  { split; [eauto|]. rewrite !count_cons, Hr. cbn. split; [done|lia]. }
  match goal with |- context [e _ ?h (tempfile_NewSuffixAndMode d ?a ?b ?c)] =>
    destruct (e _ h (tempfile_NewSuffixAndMode d a b c)) as [tmp [et|]]
  end; cbn [exec fst snd]; cbv zeta.
  { split; [eauto|]. rewrite !count_cons, Hr. cbn. split; [done|lia]. }
  match goal with |- context [e _ ?h (file_Write tmp b)] =>
    destruct (e _ h (file_Write tmp b)) as [ew|]
  end; cbn [exec fst snd]; cbv zeta.
  { split; [eauto|]. rewrite !count_cons, Hr. cbn. split; [done|lia]. }
  split; [eauto|]. rewrite !count_cons, Hr. cbn [is_rename].
  split; [lia|]. intros _. by destruct (Uncompressed (opt s)).
Qed.

(** *** Prune and RemoveChunk of the local store

    The files under the store: the paths that exist, each a regular file or a
    directory. *)
Inductive entry : Type := RegularFile | Directory.

(** What the operating system may refuse while one path is visited: the
    [os.Stat] and the [os.Remove] of [RemoveChunk] fail with these error
    numbers when they are set. *)
Record faults := mkFaults {
  stat_fault : option errno;
  remove_fault : option errno;
}.

(** One call of the walk function by [filepath.Walk]: the path, whether the
    context is cancelled by then, the error [Walk] hands over for a directory
    it could not read, and the faults of the system during the call. *)
Record visit := mkVisit {
  v_path : string;
  v_cancelled : bool;
  v_err : option error;
  v_faults : faults;
}.

Definition fs_Stat (fs : gmap string entry) (name : string) (f : faults)
  : option error :=
  match stat_fault f with
  | Some e => Some (PathError e)
  | None =>
      match fs !! name with
      | Some _ => None
      | None => Some (PathError ENOENT)
      end
  end.

Definition fs_Remove (fs : gmap string entry) (name : string) (f : faults)
  : gmap string entry * option error :=
  match remove_fault f with
  | Some e => (fs, Some (PathError e))
  | None =>
      match fs !! name with
      | Some _ => (delete name fs, None)
      | None => (fs, Some (PathError ENOENT))
      end
  end.

(** [LocalStore.RemoveChunk] *)
Definition RemoveChunk (s : LocalStore) (fs : gmap string entry) (id : ChunkID)
    (f : faults) : gmap string entry * option error :=
  let p := (nameFromID s id).2 in
  match fs_Stat fs p f with
  | Some _ => (fs, Some (ChunkMissing id))
  | None => fs_Remove fs p f
  end.

(** What the walk function of [Prune] decides before it removes anything. *)
Inductive verdict : Type :=
| Stop (err : error)
| Skip
| Drop (id : ChunkID).

(** The walk function of [LocalStore.Prune] up to the look-up in [ids];
    [info] is [nil] only together with an error. *)
Definition prune_verdict (s : LocalStore) (ids : gset ChunkID) (path : string)
    (cancelled : bool) (info : option entry) (err : option error) : verdict :=
  if cancelled then Stop Interrupted
  else match err with
  | Some e => Stop e
  | None =>
      match info with
      | Some Directory => Skip
      | _ =>
          let sID :=
            if Uncompressed (opt s) then
              if negb (HasSuffix path UncompressedChunkExt) then None
              else Some (TrimSuffix (filepath_Base path) UncompressedChunkExt)
            else
              if negb (HasSuffix path CompressedChunkExt) then None
              else Some (TrimSuffix (filepath_Base path) CompressedChunkExt) in
          match sID with
          | None => Skip
          | Some sID =>
              match ChunkIDFromString sID with
              | None => Skip
              | Some id => if decide (id ∈ ids) then Skip else Drop id
              end
          end
      end
  end.

Definition prune_walkFn (s : LocalStore) (ids : gset ChunkID)
    (fs : gmap string entry) (v : visit) (info : option entry)
    (err : option error) : gmap string entry * option error :=
  match prune_verdict s ids (v_path v) (v_cancelled v) info err with
  | Stop e => (fs, Some e)
  | Skip => (fs, None)
  | Drop id => RemoveChunk s fs id (v_faults v)
  end.

(** [filepath.Walk] calls the walk function for each path in turn, with the
    error of [lstat] when the path is gone by then, and stops at the first
    error the function returns. *)
Fixpoint Walk (walkFn : gmap string entry → visit → option entry →
                        option error → gmap string entry * option error)
    (fs : gmap string entry) (visits : list visit)
  : gmap string entry * option error :=
  match visits with
  | [] => (fs, None)
  | v :: rest =>
      let r :=
        match fs !! v_path v with
        | Some info => walkFn fs v (Some info) (v_err v)
        | None => walkFn fs v None (Some (PathError ENOENT))
        end in
      match r.2 with
      | Some e => r
      | None => Walk walkFn r.1 rest
      end
  end.

(** [LocalStore.Prune] *)
Definition Prune (s : LocalStore) (ids : gset ChunkID)
    (fs : gmap string entry) (visits : list visit)
  : gmap string entry * option error :=
  Walk (prune_walkFn s ids) fs visits.

(** *** The GCS store *)

Record GCSStore := mkGCSStore {
  Location : string;
  prefix : string;
  gcs_opt : StoreOptions;
}.

(** [GCSStore.nameFromID] *)
Definition gcs_nameFromID (s : GCSStore) (id : ChunkID) : string :=
  let sID := ChunkID_String id in
  let name := prefix s ++ string_take 4 sID ++ "/" ++ sID in
  if Uncompressed (gcs_opt s) then name ++ UncompressedChunkExt
  else name ++ CompressedChunkExt.

(** [GCSStore.idFromName]; [None] stands for its errors. *)
Definition idFromName (s : GCSStore) (name : string) : option ChunkID :=
  let n :=
    if Uncompressed (gcs_opt s) then
      if negb (HasSuffix name UncompressedChunkExt) then None
      else Some (TrimSuffix (TrimPrefix name (prefix s)) UncompressedChunkExt)
    else
      if negb (HasSuffix name CompressedChunkExt) then None
      else Some (TrimSuffix (TrimPrefix name (prefix s)) CompressedChunkExt) in
  match n with
  | None => None
  | Some n =>
      match Split n "/" with
      | [idx; sid] =>
          if negb (HasPrefix sid idx) then None else ChunkIDFromString sid
      | _ => None
      end
  end.

(** [GCSStore.HasChunk]; [attrs] is the error of [Object(name).Attrs]. *)
Definition HasChunk (s : GCSStore) (attrs : string → option error)
    (id : ChunkID) : bool * option error :=
  let name := gcs_nameFromID s id in
  let err := attrs name in
  (bool_decide (err = None), None).

(** [GCSStore.RemoveChunk]: [Object(name).Delete]; the service may refuse
    ([fault]), and says so when the object is not there. *)
Definition gcs_RemoveChunk (s : GCSStore) (bucket : gmap string string)
    (id : ChunkID) (fault : option error) : gmap string string * option error :=
  let name := gcs_nameFromID s id in
  match fault with
  | Some e => (bucket, Some e)
  | None =>
      match bucket !! name with
      | Some _ => (delete name bucket, None)
      | None => (bucket, Some ErrObjectNotExist)
      end
  end.

(** One round of the loop of [GCSStore.Prune]: what [it.Next()] returns (an
    error, or the name of the next object), whether the context is cancelled
    by then, and what the service refuses the delete with. *)
Record listing := mkListing {
  l_next : error + string;
  l_cancelled : bool;
  l_fault : option error;
}.

Definition gcs_prune_verdict (s : GCSStore) (ids : gset ChunkID) (l : listing)
  : verdict :=
  match l_next l with
  | inl err => Stop err
  | inr name =>
      if l_cancelled l then Stop Interrupted
      else match idFromName s name with
           | None => Skip
           | Some id => if decide (id ∈ ids) then Skip else Drop id
           end
  end.

(** [GCSStore.Prune]; the listing ends with [iterator.Done]. *)
Fixpoint gcs_Prune (s : GCSStore) (ids : gset ChunkID)
    (bucket : gmap string string) (listings : list listing)
  : gmap string string * option error :=
  match listings with
  | [] => (bucket, None)
  | l :: rest =>
      match gcs_prune_verdict s ids l with
      | Stop e => (bucket, Some e)
      | Skip => gcs_Prune s ids bucket rest
      | Drop id =>
          let r := gcs_RemoveChunk s bucket id (l_fault l) in
          match r.2 with
          | Some e => r
          | None => gcs_Prune s ids r.1 rest
          end
      end
  end.

(** *** Prune stops at the first failed delete *)

Lemma RemoveChunk_failed s fs id f fs' e :
  RemoveChunk s fs id f = (fs', Some e) → fs' = fs.
Proof.
  unfold RemoveChunk, fs_Remove. destruct (fs_Stat _ _ _); [congruence|].
  destruct (remove_fault f); [congruence|].
  destruct (fs !! _); [done|congruence].
Qed.

Lemma gcs_RemoveChunk_failed s bucket id fault bucket' e :
  gcs_RemoveChunk s bucket id fault = (bucket', Some e) → bucket' = bucket.
Proof.
  unfold gcs_RemoveChunk. destruct fault; [congruence|].
  destruct (bucket !! _); [done|congruence].
Qed.

Lemma Walk_app walkFn fs pre post :
  Walk walkFn fs (pre ++ post) =
  match (Walk walkFn fs pre).2 with
  | Some _ => Walk walkFn fs pre
  | None => Walk walkFn (Walk walkFn fs pre).1 post
  end.
Proof.
  revert fs. induction pre as [|v pre IH]; intros fs; [done|].
  cbn [app Walk]. cbv zeta.
  destruct (fs !! v_path v) as [info|].
  - destruct (walkFn fs v (Some info) (v_err v)) as [fs1 [e|]]; cbn [fst snd];
      [done|apply IH].
  - destruct (walkFn fs v None _) as [fs1 [e|]]; cbn [fst snd]; [done|apply IH].
Qed.

Lemma gcs_Prune_app s ids bucket pre post :
  gcs_Prune s ids bucket (pre ++ post) =
  match (gcs_Prune s ids bucket pre).2 with
  | Some _ => gcs_Prune s ids bucket pre
  | None => gcs_Prune s ids (gcs_Prune s ids bucket pre).1 post
  end.
Proof.
  revert bucket. induction pre as [|l pre IH]; intros bucket; [done|].
  cbn [app gcs_Prune]. destruct (gcs_prune_verdict s ids l); [done|apply IH|].
  cbv zeta. destruct (gcs_RemoveChunk _ _ _ _) as [b1 [e|]]; cbn [fst snd];
    [done|apply IH].
Qed.

(** C3 (as amended).  [Prune] never continues past a failed chunk delete: at
    whatever point of the walk (or of the listing) [RemoveChunk] fails, with
    a [ChunkMissing] error like with any other, the prune stops there and
    returns that error, the store left as it was at that point and the rest
    of the walk not looked at; no failure is skipped. *)
Theorem Prune_stops_at_failed_delete :
  (∀ (s : LocalStore) ids fs pre v rest fs1 info id fs2 e,
     Prune s ids fs pre = (fs1, None) →
     fs1 !! v_path v = Some info →
     prune_verdict s ids (v_path v) (v_cancelled v) (Some info) (v_err v) = Drop id →
     RemoveChunk s fs1 id (v_faults v) = (fs2, Some e) →
     Prune s ids fs (pre ++ v :: rest) = (fs1, Some e)) ∧
  (∀ (s : GCSStore) ids bucket pre l rest b1 id b2 e,
     gcs_Prune s ids bucket pre = (b1, None) →
     gcs_prune_verdict s ids l = Drop id →
     gcs_RemoveChunk s b1 id (l_fault l) = (b2, Some e) →
     gcs_Prune s ids bucket (pre ++ l :: rest) = (b1, Some e)).
Proof.
  split.
  - intros s ids fs pre v rest fs1 info id fs2 e Hpre Hinfo Hv Hrm.
    unfold Prune in *. rewrite Walk_app, Hpre. cbn [fst snd Walk]. cbv zeta.
    rewrite Hinfo. unfold prune_walkFn. rewrite Hv, Hrm. cbn [snd].
    by rewrite (RemoveChunk_failed _ _ _ _ _ _ Hrm).
  - intros s ids bucket pre l rest b1 id b2 e Hpre Hv Hrm.
    rewrite gcs_Prune_app, Hpre. cbn [fst snd gcs_Prune]. rewrite Hv. cbv zeta.
    rewrite Hrm. cbn [snd].
    by rewrite (gcs_RemoveChunk_failed _ _ _ _ _ _ Hrm).
Qed.

(** *** Prune removes chunk files only *)

(** What is known of the functions that are not part of the sources: an ID
    that was parsed from a string prints to a string that parses to it again,
    the string of an ID has no path separator, and [filepath.Join] ends its
    result with ["/"] and the name it was given, for such a name. *)
Hypothesis String_parse :
  ∀ str id, ChunkIDFromString str = Some id →
            ChunkIDFromString (ChunkID_String id) = Some id.
Hypothesis String_plain :
  ∀ id, contains_byte (ChunkID_String id) "/" = false.
Hypothesis Join_plain :
  ∀ dir id, ∃ dir', filepath_Join dir (ChunkID_String id)
                    = dir' ++ String "/" (ChunkID_String id).



Lemma chunk_ext_plain o :
  chunk_ext o ≠ EmptyString ∧ contains_byte (chunk_ext o) "/" = false.
Proof. unfold chunk_ext. by destruct (Uncompressed o). Qed.

Lemma append_assoc_sep a c b e :
  (a ++ String c b) ++ e = a ++ String c (b ++ e).
Proof.
  induction a as [|d a IH]; [done|]. exact (f_equal (String d) IH).
Qed.



Lemma contains_byte_take n str c :
  contains_byte str c = false → contains_byte (string_take n str) c = false.
Proof.
  revert str. induction n as [|n IH]; intros [|d str]; simpl; try done.
  intros [Hd Hs]%orb_false_iff. by rewrite Hd, IH.
Qed.

Lemma HasPrefix_string_take str n : HasPrefix str (string_take n str) = true.
Proof.
  rewrite <- (string_take_drop n str) at 1. apply HasPrefix_app.
Qed.










(** *** HasChunk of the GCS store *)

(** C9.  [GCSStore.HasChunk] never returns an error: whatever [Attrs]
    answers, the error is nil, and the flag says whether [Attrs] worked; so a
    missing object and a failure of the service (a transient network error,
    say) give the same [(false, nil)]. *)
Theorem HasChunk_never_fails (s : GCSStore) (id : ChunkID) :
  (∀ attrs, (HasChunk s attrs id).2 = None ∧
            ((HasChunk s attrs id).1 = true ↔ attrs (gcs_nameFromID s id) = None)) ∧
  (∀ attrs e, attrs (gcs_nameFromID s id) = Some e →
              HasChunk s attrs id = (false, None)) ∧
  (∀ attrs1 attrs2 msg,
     attrs1 (gcs_nameFromID s id) = Some ErrObjectNotExist →
     attrs2 (gcs_nameFromID s id) = Some (Failure msg) →
     HasChunk s attrs1 id = HasChunk s attrs2 id).
Proof.
  unfold HasChunk. split; [|split].
  - intros attrs. split; [done|]. cbn [fst]. apply bool_decide_eq_true.
  - intros attrs e He. by rewrite He.
  - intros attrs1 attrs2 msg H1 H2. by rewrite H1, H2.
Qed.

(** *** Store locations (src/store_utils.go, src/options.go) *)

(** A call that returns [(value, error)]: [Err a e] is a non-nil error [e]
    returned with the value [a] ([None] for nil); [Crash] is a run-time
    panic. *)
Inductive result (A : Type) : Type :=
| Ok (a : A)
| Err (a : option A) (e : error)
| Crash.
Arguments Ok {A} a.
Arguments Err {A} a e.
Arguments Crash {A}.

(** [x, err := f(); if err != nil { return nil, err }] *)
Definition rbind {A B} (m : result A) (k : A → result B) : result B :=
  match m with
  | Ok a => k a
  | Err _ e => Err None e
  | Crash => Crash
  end.

Notation "'try!' x := m 'in' k" := (rbind m (λ x, k))
  (at level 10, x name, m at level 100, k at level 200, only parsing).

Record CmdStoreOptions := mkCmdStoreOptions {
  cmd_N : Z;
  cmd_ClientCert : string;
  cmd_ClientKey : string;
  cmd_CaCert : string;
  cmd_SkipVerify : bool;
  cmd_TrustInsecure : bool;
}.

(** [CmdStoreOptions.MergedWith] *)
Definition MergedWith (o : CmdStoreOptions) (opt : StoreOptions) : StoreOptions :=
  {| N := cmd_N o;
     ClientCert := if String.eqb (cmd_ClientCert o) "" then ClientCert opt
                   else cmd_ClientCert o;
     ClientKey := if String.eqb (cmd_ClientKey o) "" then ClientKey opt
                  else cmd_ClientKey o;
     CACert := if String.eqb (cmd_CaCert o) "" then CACert opt else cmd_CaCert o;
     SkipVerify := if cmd_SkipVerify o then true else SkipVerify opt;
     TrustInsecure := if cmd_TrustInsecure o then true else TrustInsecure opt;
     Timeout := Timeout opt;
     ErrorRetry := ErrorRetry opt;
     Uncompressed := Uncompressed opt |}.

(** The part of a parsed [url.URL] that the code reads. *)
Record URL := mkURL {
  Scheme : string;
  Host : string;
  Path : string;
  lookup : string;
}.

(** Go's library, the configuration and the backends whose constructors are
    not in the sources at hand: [url.Parse] (with [Query().Get("lookup")] as
    the field [lookup]); [Cfg.GetStoreOptionsFor], [Cfg.HTTPTimeout] and
    [Cfg.HTTPErrorRetry]; [os.Stat] followed by [IsDir]; the constructors of
    the SSH, SFTP, HTTP and S3 stores and [storage.NewClient]; and whether a
    remote store has [StoreChunk]. *)
Variable url_Parse : string → result URL.
Variable Cfg_GetStoreOptionsFor : string → StoreOptions.
Variable Cfg_HTTPTimeout : Z.
Variable Cfg_HTTPErrorRetry : Z.
Variable os_Stat_IsDir : string → result bool.
Variable Remote : Type.
Variable NewRemoteSSHStore : URL → StoreOptions → result Remote.
Variable NewSFTPStore : URL → StoreOptions → result Remote.
Variable NewRemoteHTTPStore : URL → StoreOptions → result Remote.
Variable NewS3Store : URL → StoreOptions → string → result Remote.
Variable storage_NewClient : URL → option error.
Variable remote_WriteStore : Remote → bool.

(** The values of the interface [Store].  Modelled from the spec: a router
    and a failover group are ordered lists of stores, a cache is a pair of a
    primary store and a cache store ([NewStoreRouter], [NewFailoverGroup] and
    [NewCache] are not in the sources at hand). *)
#[warnings="-register-all"]
Inductive Store : Type :=
| SLocal (s : LocalStore)
| SGCS (s : GCSStore)
| SRemote (r : Remote)
| StoreRouter (stores : list Store)
| FailoverGroup (stores : list Store)
| Cache (s l : Store).

Definition NewStoreRouter (stores : list Store) : Store := StoreRouter stores.
Definition NewFailoverGroup (stores : list Store) : Store := FailoverGroup stores.
Definition NewCache (s l : Store) : Store := Cache s l.

(** [NewLocalStore] *)
Definition NewLocalStore (dir : string) (opt : StoreOptions) : result LocalStore :=
  match os_Stat_IsDir dir with
  | Ok true => Ok {| Base := dir; UpdateTimes := false; opt := opt |}
  | Ok false => Err None (Failure (dir ++ " is not a directory"))
  | Err _ e => Err None e
  | Crash => Crash
  end.

(** [NewGCSStoreBase] and [NewGCSStore]; [u.Path[1:]] panics on an empty
    path. *)
Definition NewGCSStore (u : URL) (opt : StoreOptions) : result GCSStore :=
  if negb (String.eqb (Scheme u) "gs") then
    Err None (Failure ("invalid scheme '" ++ Scheme u ++ "', expected 'gs'"))
  else
    match Path u with
    | EmptyString => Crash
    | String _ rest =>
        let prefix := if String.eqb rest "" then rest else rest ++ "/" in
        match storage_NewClient u with
        | Some e => Err None e
        | None => Ok {| Location := Scheme u ++ "://" ++ Host u ++ Path u;
                        prefix := prefix; gcs_opt := opt |}
        end
    end.

Definition fmap_result {A B} (f : A → B) (m : result A) : result B :=
  try! a := m in Ok (f a).

(** [StoreFromLocation] *)
Definition StoreFromLocation (location : string) (cmdOpt : CmdStoreOptions)
  : result Store :=
  match url_Parse location with
  | Err _ _ =>
      Err None (Failure ("Unable to parse store location " ++ location))
  | Crash => Crash
  | Ok loc =>
      let opt := MergedWith cmdOpt (Cfg_GetStoreOptionsFor location) in
      let scheme := Scheme loc in
      if String.eqb scheme "ssh" then
        fmap_result SRemote (NewRemoteSSHStore loc opt)
      else if String.eqb scheme "sftp" then
        fmap_result SRemote (NewSFTPStore loc opt)
      else if String.eqb scheme "http" || String.eqb scheme "https" then
        let opt1 :=
          if ((Timeout opt =? 0) && (0 <? Cfg_HTTPTimeout))%Z then
            {| N := N opt; ClientCert := ClientCert opt; ClientKey := ClientKey opt;
               CACert := CACert opt; SkipVerify := SkipVerify opt;
               TrustInsecure := TrustInsecure opt; Timeout := Cfg_HTTPTimeout;
               ErrorRetry := ErrorRetry opt; Uncompressed := Uncompressed opt |}
          else opt in
        let opt2 :=
          if ((ErrorRetry opt1 =? 0) && (0 <? Cfg_HTTPErrorRetry))%Z then
            {| N := N opt1; ClientCert := ClientCert opt1;
               ClientKey := ClientKey opt1; CACert := CACert opt1;
               SkipVerify := SkipVerify opt1; TrustInsecure := TrustInsecure opt1;
               Timeout := Timeout opt1; ErrorRetry := Cfg_HTTPErrorRetry;
               Uncompressed := Uncompressed opt1 |}
          else opt1 in
        fmap_result SRemote (NewRemoteHTTPStore loc opt2)
      else if String.eqb scheme "s3+http" || String.eqb scheme "s3+https" then
        let ls := lookup loc in
        if String.eqb ls "dns" || String.eqb ls "path" || String.eqb ls ""
           || String.eqb ls "auto" then
          fmap_result SRemote (NewS3Store loc opt ls)
        else Err None (Failure "unknown S3 bucket lookup type")
      else if String.eqb scheme "gs" then
        fmap_result SGCS (NewGCSStore loc opt)
      else
        fmap_result SLocal (NewLocalStore location opt)
  end.

(** [store, ok := s.(WriteStore)]: the local and the GCS store have
    [StoreChunk] (the sources assert it); [StoreFromLocation] returns no
    other value than these and the remote ones. *)
Definition is_WriteStore (s : Store) : bool :=
  match s with
  | SLocal _ | SGCS _ => true
  | SRemote r => remote_WriteStore r
  | _ => false
  end.

(** [WritableStore] *)
Definition WritableStore (location : string) (cmdOpt : CmdStoreOptions)
  : result Store :=
  try! s := StoreFromLocation location cmdOpt in
  if is_WriteStore s then Ok s
  else Err None (Failure ("store '" ++ location ++ "' does not support writing")).

(** The loop of [storeGroup] over the members, [stores] being the slice built
    so far. *)
Fixpoint storeGroup_loop (cmdOpt : CmdStoreOptions) (members : list string)
    (stores : list Store) : result Store :=
  match members with
  | [] => Ok (NewFailoverGroup stores)
  | m :: rest =>
      try! s := StoreFromLocation m cmdOpt in
      storeGroup_loop cmdOpt rest (stores ++ [s])
  end.

(** [storeGroup] *)
Definition storeGroup (location : string) (cmdOpt : CmdStoreOptions)
  : result Store :=
  if negb (ContainsAny location "|") then StoreFromLocation location cmdOpt
  else storeGroup_loop cmdOpt (Split location "|") [].

(** The loop of [MultiStoreWithRouter]. *)
Fixpoint router_loop (cmdOpt : CmdStoreOptions) (storeLocations : list string)
    (stores : list Store) : result Store :=
  match storeLocations with
  | [] => Ok (NewStoreRouter stores)
  | location :: rest =>
      try! s := storeGroup location cmdOpt in
      router_loop cmdOpt rest (stores ++ [s])
  end.

(** [MultiStoreWithRouter] *)
Definition MultiStoreWithRouter (cmdOpt : CmdStoreOptions)
    (storeLocations : list string) : result Store :=
  router_loop cmdOpt storeLocations [].

(** [MultiStoreWithCache].  A type assertion on an interface that holds a
    struct yields a copy of the struct: [ls.UpdateTimes = true] sets the field
    of the local variable [ls], and [cache] still holds the value it held. *)
Definition MultiStoreWithCache (cmdOpt : CmdStoreOptions) (cacheLocation : string)
    (storeLocations : list string) : result Store :=
  try! store := MultiStoreWithRouter cmdOpt storeLocations in
  if negb (String.eqb cacheLocation "") then
    match WritableStore cacheLocation cmdOpt with
    | Err _ e => Err (Some store) e
    | Crash => Crash
    | Ok cache =>
        let ls :=
          match cache with
          | SLocal ls =>
              Some {| Base := Base ls; UpdateTimes := true; opt := opt ls |}
          | _ => None
          end in
        Ok (NewCache store cache)
    end
  else Ok store.

(** The cache store of a store made by [NewCache]. *)
Definition cache_of (s : Store) : option Store :=
  match s with
  | Cache _ l => Some l
  | _ => None
  end.

(** *** The stores of a list of locations, as the specification words it *)

(** Each item in turn, up to the first that fails. *)
Fixpoint each {A B} (f : A → result B) (l : list A) : result (list B) :=
  match l with
  | [] => Ok []
  | x :: rest =>
      try! y := f x in
      try! ys := each f rest in
      Ok (y :: ys)
  end.

(** A location with a ["|"] is split on ["|"], each member is initialized as
    a store of its own and the members are wrapped into a failover group; a
    location without is initialized directly. *)
Definition group_of_location (cmdOpt : CmdStoreOptions) (location : string)
  : result Store :=
  if contains_byte location "|" then
    fmap_result FailoverGroup
      (each (λ m, StoreFromLocation m cmdOpt) (Split location "|"))
  else StoreFromLocation location cmdOpt.

(** The stores of all locations, in the order of the locations, in a
    router. *)
Definition router_of_locations (cmdOpt : CmdStoreOptions)
    (locations : list string) : result Store :=
  fmap_result StoreRouter (each (group_of_location cmdOpt) locations).

Lemma ContainsAny_bar location :
  ContainsAny location "|" = contains_byte location "|".
Proof.
  induction location as [|c l IH]; [done|]. cbn [ContainsAny contains_byte].
  by rewrite IH, orb_false_r, Ascii.eqb_sym.
Qed.

Lemma storeGroup_loop_each cmdOpt members stores :
  storeGroup_loop cmdOpt members stores =
  fmap_result (λ l, FailoverGroup (stores ++ l))
    (each (λ m, StoreFromLocation m cmdOpt) members).
Proof.
  revert stores. induction members as [|m rest IH]; intros stores.
  - cbn. by rewrite app_nil_r.
  - cbn [storeGroup_loop each].
    destruct (StoreFromLocation m cmdOpt) as [st|a e|]; cbn [rbind]; [|done..].
    rewrite IH. unfold fmap_result.
    destruct (each _ rest) as [l|a e|]; cbn [rbind]; [|done..].
    by rewrite <- app_assoc.
Qed.

Lemma storeGroup_group_of_location cmdOpt location :
  storeGroup location cmdOpt = group_of_location cmdOpt location.
Proof.
  unfold storeGroup, group_of_location. rewrite ContainsAny_bar.
  destruct (contains_byte location "|"); cbn [negb]; [|done].
  apply storeGroup_loop_each.
Qed.

Lemma router_loop_each cmdOpt locations stores :
  router_loop cmdOpt locations stores =
  fmap_result (λ l, StoreRouter (stores ++ l))
    (each (group_of_location cmdOpt) locations).
Proof.
  revert stores. induction locations as [|loc rest IH]; intros stores.
  - cbn. by rewrite app_nil_r.
  - cbn [router_loop each]. rewrite storeGroup_group_of_location.
    destruct (group_of_location cmdOpt loc) as [st|a e|]; cbn [rbind]; [|done..].
    rewrite IH. unfold fmap_result.
    destruct (each _ rest) as [l|a e|]; cbn [rbind]; [|done..].
    by rewrite <- app_assoc.
Qed.

(** C6.  For every list of locations [MultiStoreWithRouter] returns what the
    words say: the locations are taken in order, one with a ["|"] is split on
    ["|"] and its members, each initialized as a store of its own, are wrapped
    into a [FailoverGroup], one without is initialized directly, and the
    stores of all locations are combined, in the order of the locations, into
    a [StoreRouter]; the first store that fails to initialize fails the
    call. *)
Theorem MultiStoreWithRouter_router_of_groups cmdOpt locations :
  MultiStoreWithRouter cmdOpt locations = router_of_locations cmdOpt locations ∧
  (∀ location, storeGroup location cmdOpt = group_of_location cmdOpt location) ∧
  (∀ stores,
     Forall2 (λ location s, storeGroup location cmdOpt = Ok s) locations stores →
     MultiStoreWithRouter cmdOpt locations = Ok (StoreRouter stores)) ∧
  (∀ location members,
     contains_byte location "|" = true →
     Forall2 (λ m s, StoreFromLocation m cmdOpt = Ok s) (Split location "|") members →
     storeGroup location cmdOpt = Ok (FailoverGroup members)).
Proof.
  assert (∀ A B (f : A → result B) l ys,
            Forall2 (λ x y, f x = Ok y) l ys → each f l = Ok ys) as Heach.
  { intros A B f l ys. induction 1 as [|x y l ys Hx _ IH]; [done|].
    cbn [each]. by rewrite Hx, IH. }
  assert (MultiStoreWithRouter cmdOpt locations = router_of_locations cmdOpt locations)
    as Hrouter.
  { unfold MultiStoreWithRouter. by rewrite router_loop_each. }
  split; [done|]. split; [apply storeGroup_group_of_location|]. split.
  - intros stores Hall. rewrite Hrouter. unfold router_of_locations.
    rewrite (Heach _ _ _ _ stores); [done|].
    eapply Forall2_impl; [done|]. intros loc st. cbv beta.
    by rewrite storeGroup_group_of_location.
  - intros location members Hbar Hall.
    rewrite storeGroup_group_of_location. unfold group_of_location.
    by rewrite Hbar, (Heach _ _ _ _ members).
Qed.

(** What [MultiStoreWithCache] wraps as the cache store is the store that
    [WritableStore] returned, as it was returned. *)
Lemma MultiStoreWithCache_cache cmdOpt cacheLocation storeLocations st :
  cacheLocation ≠ "" →
  MultiStoreWithCache cmdOpt cacheLocation storeLocations = Ok st →
  ∃ store cache,
    MultiStoreWithRouter cmdOpt storeLocations = Ok store ∧
    WritableStore cacheLocation cmdOpt = Ok cache ∧
    st = Cache store cache.
Proof.
  intros Hne. unfold MultiStoreWithCache.
  destruct (MultiStoreWithRouter cmdOpt storeLocations) as [store|a e|];
    cbn [rbind]; [|done..].
  apply String.eqb_neq in Hne. rewrite Hne. cbn [negb].
  destruct (WritableStore cacheLocation cmdOpt) as [cache|a e|]; [|done..].
  intros [= <-]. eauto.
Qed.

(** A local store that comes out of [StoreFromLocation] has [UpdateTimes]
    false. *)
Lemma StoreFromLocation_local location cmdOpt ls :
  StoreFromLocation location cmdOpt = Ok (SLocal ls) → UpdateTimes ls = false.
Proof.
  unfold StoreFromLocation, fmap_result, rbind, NewLocalStore. intros Hs.
  repeat case_match; by simplify_eq.
Qed.

(** C5 (what the code does).  For every call of [MultiStoreWithCache] with a
    non-empty [cacheLocation] that returns a store, the cache store wrapped
    into the returned [Cache], when it is a [LocalStore], has [UpdateTimes]
    false: the assignment [ls.UpdateTimes = true] reaches a copy only, and
    the flag the claim expects to be true is never set. *)
Theorem MultiStoreWithCache_UpdateTimes cmdOpt cacheLocation storeLocations st ls :
  cacheLocation ≠ "" →
  MultiStoreWithCache cmdOpt cacheLocation storeLocations = Ok st →
  cache_of st = Some (SLocal ls) →
  UpdateTimes ls = false.
Proof.
  intros Hne Hst Hc.
  destruct (MultiStoreWithCache_cache _ _ _ _ Hne Hst) as (store & cache & _ & Hw & ->).
  injection Hc as ->. unfold WritableStore in Hw.
  destruct (StoreFromLocation cacheLocation cmdOpt) as [s0|a e|] eqn:Hs;
    cbn [rbind] in Hw; [|done..].
  destruct (is_WriteStore s0); [|done]. injection Hw as ->.
  by eapply StoreFromLocation_local.
Qed.

End Stores.

Arguments Ok {ChunkID A} a.
Arguments Err {ChunkID A} a e.
Arguments Crash {ChunkID A}.

(** *** A concrete store on a concrete system

    Chunk IDs are the 32-byte strings of [HexID]; paths are joined with
    ["/"]; a chunk is its data. *)
Definition demo_Join (dir name : string) : string := dir ++ "/" ++ name.

Definition demo_opt : StoreOptions := mkStoreOptions 10 "" "" "" false false 0 0 false.

Definition demo_local : LocalStore := mkLocalStore "/store" false demo_opt.

Definition demo_gcs : GCSStore := mkGCSStore "gs://bucket/chunks" "chunks/" demo_opt.

(** The IDs [abab...ab] and [cdcd...cd]. *)
Definition id_ab : HexID.ChunkID := HexID.uniform_id "171".
Definition id_cd : HexID.ChunkID := HexID.uniform_id "205".

Definition demo_chunk_ID (c : string) : HexID.ChunkID := id_ab.



Local Abbreviation demo_StoreChunk :=
  (StoreChunk HexID.ChunkID_String demo_Join string demo_chunk_ID demo_chunk_ID).
Local Abbreviation demo_rename_loop :=
  (rename_loop HexID.ChunkID_String demo_Join string demo_chunk_ID).
Local Abbreviation demo_Prune :=
  (Prune HexID.ChunkID_String HexID.ChunkIDFromString demo_Join).
Local Abbreviation demo_gcs_Prune :=
  (gcs_Prune HexID.ChunkID_String HexID.ChunkIDFromString).

(** The destination and the temp file of [demo_StoreChunk]. *)
Definition demo_p : string :=
  "/store/abab/abababababababababababababababababababababababababababababababab.cacnk".
Definition demo_tmp : string := "/store/abab/cacnk123.tmp".

(** A system on which every rename fails: the destination is there
    ([there]) or not, what is read from it validates ([valid]) or not, and
    removing anything works ([removes]) or not. *)
Definition demo_env (there valid removes : bool) : env (ChunkID := HexID.ChunkID) string :=
  λ T h c,
    match c in call _ T return T with
    | os_Stat _ _ => if there then None else Some (PathError ENOENT)
    | chunk_Uncompressed _ data => (data, None)
    | chunk_Compressed _ data => (data, None)
    | os_MkdirAll _ _ _ => None
    | tempfile_NewSuffixAndMode _ dir _ _ _ => (dir ++ "/cacnk123.tmp", None)
    | file_Write _ _ _ => None
    | file_Close _ _ => ()
    | os_Remove _ _ => if removes then None else Some (PathError EBUSY)
    | os_Rename _ _ _ => Some (PathError EACCES)
    | ioutil_ReadFile _ _ => (Some "data", None)
    | NewChunkWithID _ id _ _ _ =>
        if valid then inl "data" else inr (ChunkInvalid id id_cd)
    | fmt_Printf _ _ => ()
    | time_Sleep _ _ => ()
    end.



Lemma StoreChunk_early_return_unreachable_witness :
  os_IsExist (demo_env true true true _ [] (os_Stat string demo_p)) = false ∧
  (∃ ev tr,
     (exec string (demo_env true true true) [] (demo_StoreChunk demo_local "data")).1
       = Ev string _ (os_Stat string demo_p)
            (demo_env true true true _ [] (os_Stat string demo_p)) :: ev :: tr ∧
     is_compress string ev = true) ∧
  ((exec string (demo_env true true true) [] (demo_StoreChunk demo_local "data")).2
     = None →
   (1 ≤ count string (is_rename string)
          (exec string (demo_env true true true) []
             (demo_StoreChunk demo_local "data")).1)%nat) ∧
  ((1 ≤ count string (is_rename string)
          (exec string (demo_env true true true) []
             (demo_StoreChunk demo_local "data")).1)%nat →
   temp_written string false
     (before_rename string
        (exec string (demo_env true true true) []
           (demo_StoreChunk demo_local "data")).1) = true).
Proof.
  apply (StoreChunk_early_return_unreachable HexID.ChunkID_String demo_Join string
           demo_chunk_ID demo_chunk_ID (demo_env true true true) demo_local "data").
  left. reflexivity.
Defined.

(** A store with one chunk in a directory that is not the one of its ID, and
    one chunk in its place; neither is in the live set. *)
Definition stray_ab : string :=
  "/store/0000/abababababababababababababababababababababababababababababababab.cacnk".
Definition chunk_cd : string :=
  "/store/cdcd/cdcdcdcdcdcdcdcdcdcdcdcdcdcdcdcdcdcdcdcdcdcdcdcdcdcdcdcdcdcdcdcd.cacnk".

Definition demo_fs : gmap string entry :=
  {[ stray_ab := RegularFile; chunk_cd := RegularFile ]}.

Definition no_faults : faults := mkFaults None None.

Definition demo_walk : list (visit (ChunkID := HexID.ChunkID)) :=
  [mkVisit stray_ab false None no_faults; mkVisit chunk_cd false None no_faults].

(** C3, as first stated, fails.  The walk meets the stray chunk first;
    [RemoveChunk] looks for the chunk in the directory of its ID, finds
    nothing and fails with [ChunkMissing]; [Prune] returns that error and does
    not go on: the other chunk, which a prune of its own removes, is still
    there. *)
Lemma Prune_stops_at_ChunkMissing :
  demo_Prune demo_local ∅ demo_fs demo_walk = (demo_fs, Some (ChunkMissing id_ab)) ∧
  demo_fs !! chunk_cd = Some RegularFile ∧
  demo_Prune demo_local ∅ demo_fs [mkVisit chunk_cd false None no_faults]
    = ({[ stray_ab := RegularFile ]}, None).
Proof.
  repeat split;
    match goal with |- _ = ?r => vm_cast_no_check (eq_refl r) end.
Qed.

Lemma Prune_stops_at_failed_delete_witness :
  demo_Prune demo_local ∅ demo_fs
    ([] ++ mkVisit chunk_cd false None (mkFaults None (Some EACCES)) ::
       [mkVisit stray_ab false None no_faults])
  = (demo_fs, Some (PathError EACCES)).
Proof.
  apply (proj1 (Prune_stops_at_failed_delete HexID.ChunkID_String
                  HexID.ChunkIDFromString demo_Join)
           demo_local ∅ demo_fs [] _ _ demo_fs RegularFile id_cd demo_fs);
    match goal with |- _ = ?r => vm_cast_no_check (eq_refl r) end.
Defined.


Lemma HasChunk_never_fails_witness :
  HasChunk HexID.ChunkID_String demo_gcs (λ _, Some (Failure "i/o timeout")) id_ab
  = (false, None).
Proof.
  apply (proj1 (proj2 (HasChunk_never_fails HexID.ChunkID_String demo_gcs id_ab))
           _ (Failure "i/o timeout")).
  reflexivity.
Defined.

(** A system for the store locations: every location parses as a plain path
    and is a directory; there are no remote stores. *)
Definition demo_url_Parse (location : string) : result (ChunkID := HexID.ChunkID) URL :=
  Ok (mkURL "" "" location "").

Definition no_remote (u : URL) (o : StoreOptions) : result (ChunkID := HexID.ChunkID) Empty_set :=
  Err None (Failure "no such backend").

Definition demo_cmdOpt : CmdStoreOptions := mkCmdStoreOptions 10 "" "" "" false false.

Local Abbreviation demo_MultiStoreWithRouter :=
  (MultiStoreWithRouter demo_url_Parse (λ _, demo_opt) 0 0 (λ _, Ok true) Empty_set
     no_remote no_remote no_remote (λ u o _, no_remote u o) (λ _, None)).
Local Abbreviation demo_MultiStoreWithCache :=
  (MultiStoreWithCache demo_url_Parse (λ _, demo_opt) 0 0 (λ _, Ok true) Empty_set
     no_remote no_remote no_remote (λ u o _, no_remote u o) (λ _, None)
     (λ r, match r with end)).

Definition local_at (dir : string) : Store Empty_set :=
  SLocal Empty_set (mkLocalStore dir false demo_opt).

Lemma MultiStoreWithRouter_router_of_groups_witness :
  demo_MultiStoreWithRouter demo_cmdOpt ["/a|/b"; "/c"]
  = Ok (StoreRouter Empty_set
          [FailoverGroup Empty_set [local_at "/a"; local_at "/b"]; local_at "/c"]).
Proof.
  apply (proj1 (proj2 (proj2
           (MultiStoreWithRouter_router_of_groups demo_url_Parse (λ _, demo_opt) 0 0
              (λ _, Ok true) Empty_set no_remote no_remote no_remote
              (λ u o _, no_remote u o) (λ _, None) demo_cmdOpt ["/a|/b"; "/c"])))).
  repeat constructor.
Defined.

(** C5 fails on the code.  With [/cache] a directory,
    [MultiStoreWithCache(opts, "/cache", "/store")] returns a cache whose cache
    store is the local store at [/cache] with [UpdateTimes] false: the flag
    was set on a copy. *)
Lemma MultiStoreWithCache_UpdateTimes_not_set :
  demo_MultiStoreWithCache demo_cmdOpt "/cache" ["/store"]
  = Ok (Cache Empty_set (StoreRouter Empty_set [local_at "/store"])
          (SLocal Empty_set (mkLocalStore "/cache" false demo_opt))).
Proof. vm_compute. reflexivity. Qed.

Lemma MultiStoreWithCache_UpdateTimes_witness :
  ∃ st ls,
    demo_MultiStoreWithCache demo_cmdOpt "/cache" ["/store"] = Ok st ∧
    cache_of Empty_set st = Some (SLocal Empty_set ls) ∧
    Base ls = "/cache" ∧
    UpdateTimes ls = false.
Proof.
  eexists _, (mkLocalStore "/cache" false demo_opt).
  split; [vm_compute; reflexivity|]. split; [reflexivity|]. split; [reflexivity|].
  apply (MultiStoreWithCache_UpdateTimes demo_url_Parse (λ _, demo_opt) 0 0
           (λ _, Ok true) Empty_set no_remote no_remote no_remote
           (λ u o _, no_remote u o) (λ _, None) (λ r, match r with end)
           demo_cmdOpt "/cache" ["/store"]
           (Cache Empty_set (StoreRouter Empty_set [local_at "/store"])
              (SLocal Empty_set (mkLocalStore "/cache" false demo_opt)))).
  - discriminate.
  - vm_compute. reflexivity.
  - reflexivity.
Defined.

End Stores.

(** ** The Windows variant of tar (src/tar_windows.go) *)
Module TarWindows.

(** [uint64(z)] and [int64(z)] *)
Definition uint64 (z : Z) : Z := z `mod` 2 ^ 64.
Definition int64 (z : Z) : Z := wrap_int z.

(** [os.FileMode]: the type bits of Go's library. *)
Definition ModeDir : Z := 2 ^ 31.
Definition ModeSymlink : Z := 2 ^ 27.
Definition ModeDevice : Z := 2 ^ 26.
Definition ModeNamedPipe : Z := 2 ^ 25.
Definition ModeSocket : Z := 2 ^ 24.
Definition ModeCharDevice : Z := 2 ^ 21.
Definition ModeIrregular : Z := 2 ^ 19.
Definition ModeType : Z :=
  Z.lor ModeDir (Z.lor ModeSymlink (Z.lor ModeNamedPipe (Z.lor ModeSocket
    (Z.lor ModeDevice (Z.lor ModeCharDevice ModeIrregular))))).

Definition IsDir (m : Z) : bool := negb (Z.land m ModeDir =? 0).
Definition IsRegular (m : Z) : bool := Z.land m ModeType =? 0.

(** src/unnamed/part_000 *)
Definition isSymlink (m : Z) : bool := negb (Z.land m ModeSymlink =? 0).
Definition isDevice (m : Z) : bool := negb (Z.land m ModeDevice =? 0).

(** [hash]: FNV-1a, 64 bits, over the bytes of [s]. *)
Definition fnv_step (h : Z) (c : ascii) : Z :=
  (Z.lxor h (Z.of_N (N_of_ascii c)) * 1099511628211) `mod` 2 ^ 64.

Fixpoint fnv_from (h : Z) (s : string) : Z :=
  match s with
  | EmptyString => h
  | String c s' => fnv_from (fnv_step h c) s'
  end.

Definition hash (s : string) : Z := fnv_from 14695981039346656037 s.

Inductive error : Type :=
| Interrupted
| Failure (msg : string).

(** What [os.FileInfo] tells of a node. *)
Record FileInfo := mkFileInfo {
  fi_Name : string;
  fi_Size : Z;
  fi_Mode : Z;
  fi_ModTime : Z;
}.

(** A node of the tree that is archived: its [FileInfo], what
    [ioutil.ReadDir] answers for it (an error, or the nodes in it, sorted by
    name), and the error of [os.Open], if any. *)
#[warnings="-register-all"]
Inductive fsnode : Type :=
| FsNode (info : FileInfo) (readdir_err : option error) (children : list fsnode)
    (open_err : option error).

Definition node_info (nd : fsnode) : FileInfo :=
  match nd with
  | FsNode info _ _ _ => info
  end.

Record FormatHeader := mkFormatHeader {
  Size : Z;
  Type_ : Z;
}.

Record FormatEntry := mkFormatEntry {
  entry_header : FormatHeader;
  FeatureFlags : Z;
  UID : Z;
  GID : Z;
  Mode : Z;
  MTime : Z;
}.

Record FormatGoodbyeItem := mkFormatGoodbyeItem {
  Offset : Z;
  item_Size : Z;
  Hash : Z;
}.

(** The elements handed to the encoder; the payload is the file at a path. *)
Inductive element : Type :=
| Entry (e : FormatEntry)
| Filename (h : FormatHeader) (name : string)
| Payload (h : FormatHeader) (data : string)
| Goodbye (h : FormatHeader) (items : list FormatGoodbyeItem).

Section Tar.

(** The constants and functions of the format that are not part of the
    sources at hand, Go's [filepath] functions, the encoder (what [Encode]
    returns for an element, given the elements encoded before it), and the
    context (whether it is cancelled by the time the stream has got so far). *)
Variable CaFormatEntry CaFormatFilename CaFormatPayload CaFormatGoodbye : Z.
Variable CaFormatGoodbyeTailMarker : Z.
Variable feature_flags : list Z.
Variable SipHash : string → Z.
Variable makeGoodbyeBST : list FormatGoodbyeItem → list FormatGoodbyeItem.
Variable filepath_Join : string → string → string.
Variable filepath_Abs : string → string + error.
Variable filepath_VolumeName : string → string.
Variable Encode : list element → element → Z * option error.
Variable cancelled : list element → bool.

(** [TarFeatureFlags]: the flags of the format, or-ed together. *)
Definition TarFeatureFlags : Z := foldr Z.lor 0 feature_flags.

Definition getVolumeID (src : string) : Z * option error :=
  match filepath_Abs src with
  | inr err => (0, Some err)
  | inl absPath => (hash (filepath_VolumeName absPath), None)
  end.

(** The loop that fixes the offsets of the items: each becomes the distance
    back from the start of the goodbye element. *)
Definition fix_offsets (n : Z) (items : list FormatGoodbyeItem)
  : list FormatGoodbyeItem :=
  map (λ it, mkFormatGoodbyeItem (uint64 (uint64 n - Offset it)) (item_Size it)
               (Hash it)) items.

(** The loop of [tar] over the entries of a directory, with [tar_rec] the
    recursive call; it ends with the goodbye element. *)
Fixpoint each_child
    (tar_rec : list element → string → fsnode → list element * Z * option error)
    (path : string) (dev : Z) (stats : list fsnode) (out : list element)
    (n : Z) (items : list FormatGoodbyeItem) {struct stats}
  : list element * Z * option error :=
  match stats with
  | [] =>
      let items := fix_offsets n items in
      let items := makeGoodbyeBST items in
      let items :=
        items ++
        [mkFormatGoodbyeItem (uint64 n) (uint64 (16 + len items * 24 + 24))
           CaFormatGoodbyeTailMarker] in
      let goodbye :=
        Goodbye (mkFormatHeader (uint64 (16 + len items * 24)) CaFormatGoodbye)
          items in
      let r := Encode out goodbye in
      (out ++ [goodbye], int64 (n + r.1), r.2)
  | s :: rest =>
      let name := fi_Name (node_info s) in
      let skip :=
        if dev =? 0 then false
        else
          let v := getVolumeID (filepath_Join path name) in
          match v.2 with
          | Some _ => true
          | None => negb (v.1 =? dev)
          end in
      if skip then each_child tar_rec path dev rest out n items
      else
        let start := n in
        let filename :=
          Filename
            (mkFormatHeader (uint64 (16 + Z.of_nat (String.length name) + 1))
               CaFormatFilename) name in
        let r := Encode out filename in
        let out := out ++ [filename] in
        let n := int64 (n + r.1) in
        match r.2 with
        | Some err => (out, n, Some err)
        | None =>
            let r := tar_rec out (filepath_Join path name) s in
            let out := r.1.1 in
            let n := int64 (n + r.1.2) in
            match r.2 with
            | Some err => (out, n, Some err)
            | None =>
                each_child tar_rec path dev rest out n
                  (items ++
                     [mkFormatGoodbyeItem (uint64 start) (uint64 (n - start))
                        (SipHash name)])
            end
        end
  end.

(** [tar]: returns the elements encoded so far, [n] and the error.  The
    symlink and device cases of its [switch] cannot be reached (the node is
    a directory or a regular file there); they fall under the last case. *)
Fixpoint tar (out : list element) (path : string) (nd : fsnode) (dev : Z)
    {struct nd} : list element * Z * option error :=
  if cancelled out then (out, 0, Some Interrupted)
  else
    match nd with
    | FsNode info readdir_err children open_err =>
        let m := fi_Mode info in
        if negb (IsDir m || IsRegular m) then (out, 0, None)
        else
          let uid := 1000 in
          let gid := 1000 in
          let mode := if IsDir m then 0x41c0 else 0x81a4 in
          let entry :=
            Entry {| entry_header := mkFormatHeader 64 CaFormatEntry;
                     FeatureFlags := TarFeatureFlags;
                     UID := uid; GID := gid; Mode := mode;
                     MTime := fi_ModTime info |} in
          let r := Encode out entry in
          let out := out ++ [entry] in
          let n := int64 r.1 in
          match r.2 with
          | Some err => (out, n, Some err)
          | None =>
              if IsDir m then
                match readdir_err with
                | Some err => (out, n, Some err)
                | None =>
                    each_child (λ o p s, tar o p s dev) path dev children out n []
                end
              else if IsRegular m then
                match open_err with
                | Some err => (out, n, Some err)
                | None =>
                    let payload :=
                      Payload (mkFormatHeader (uint64 (16 + uint64 (fi_Size info)))
                                 CaFormatPayload) path in
                    let r := Encode out payload in
                    (out ++ [payload], int64 (n + r.1), r.2)
                end
              else (out, n, Some (Failure ("unable to determine node type of '" ++ path ++ "'")%string))
          end
    end.

(** [Tar] *)
Definition Tar (src : string) (root : option error * fsnode) (oneFileSystem : bool)
  : list element * option error :=
  match root.1 with
  | Some err => ([], Some err)
  | None =>
      let dev := if oneFileSystem then getVolumeID src else (0, None) in
      match dev.2 with
      | Some err => ([], Some err)
      | None =>
          let r := tar [] src root.2 dev.1 in
          (r.1.1, r.2)
      end
  end.

(** *** The metadata of the entries *)

(** Induction on a tree, with the hypothesis for all children. *)
Fixpoint fsnode_rect_children (P : fsnode → Prop)
    (step : ∀ info rd children op,
        Forall P children → P (FsNode info rd children op))
    (nd : fsnode) {struct nd} : P nd :=
  match nd with
  | FsNode info rd children op =>
      step info rd children op
        ((fix all (l : list fsnode) : Forall P l :=
            match l with
            | [] => Forall_nil_2 P
            | c :: l' =>
                Forall_cons_2 P c l' (fsnode_rect_children P step c) (all l')
            end) children)
  end.

(** The entry [tar] makes for a node: the user and group 1000, and a mode
    that depends on nothing but whether the node is a directory. *)
Definition synthesized_entry (info : FileInfo) : FormatEntry :=
  {| entry_header := mkFormatHeader 64 CaFormatEntry;
     FeatureFlags := TarFeatureFlags;
     UID := 1000; GID := 1000;
     Mode := if IsDir (fi_Mode info) then 0x41c0 else 0x81a4;
     MTime := fi_ModTime info |}.

(** The [FileInfo]s of a node and of all nodes below it. *)
Fixpoint infos (nd : fsnode) : list FileInfo :=
  match nd with
  | FsNode info _ children _ => info :: flat_map infos children
  end.

(** An element is no entry, or the synthesized entry of one of the nodes
    [l]. *)
Definition synthesized (l : list FileInfo) (el : element) : Prop :=
  match el with
  | Entry e => ∃ info, info ∈ l ∧ e = synthesized_entry info
  | _ => True
  end.

Lemma synthesized_mono l l' el : l ⊆ l' → synthesized l el → synthesized l' el.
Proof.
  intros Hl. destruct el as [e| | |]; try done.
  intros (info & Hin & ->). exists info. split; [by apply Hl|done].
Qed.

Lemma each_child_extends tar_rec path dev stats :
  Forall (λ c, ∀ o p, ∃ new, (tar_rec o p c).1.1 = o ++ new ∧
                             Forall (synthesized (infos c)) new) stats →
  ∀ out n items,
    ∃ new, (each_child tar_rec path dev stats out n items).1.1 = out ++ new ∧
           Forall (synthesized (flat_map infos stats)) new.
Proof.
  induction 1 as [|c rest Hc _ IH]; intros out n items; cbn [each_child]; cbv zeta.
  - cbn [fst snd]. eexists. split; [done|]. by repeat constructor.
  - assert (∀ r : list element * Z * option error,
              (∃ new, r.1.1 = out ++ new ∧
                      Forall (synthesized (flat_map infos rest)) new) →
              ∃ new, r.1.1 = out ++ new ∧
                     Forall (synthesized (flat_map infos (c :: rest))) new)
      as Hrest.
    { intros r (new & Hr & Hnew). exists new. split; [done|].
      eapply Forall_impl; [exact Hnew|]. intros el. apply synthesized_mono.
      cbn [flat_map]. set_solver. }
    destruct (if dev =? 0 then false else _); [apply Hrest, IH|]. clear Hrest.
    destruct (Encode out _) as [nn1 [err|]]; cbn [fst snd].
    { eexists. split; [done|]. by repeat constructor. }
    match goal with
    | |- context [tar_rec ?o ?p c] =>
        destruct (Hc o p) as (new2 & Hout & Hnew2);
        destruct (tar_rec o p c) as [[out3 n3] [err|]]; cbn [fst snd] in *
    end; subst out3.
    + eexists. rewrite <- app_assoc. split; [done|]. constructor; [done|].
      eapply Forall_impl; [exact Hnew2|]. intros el. apply synthesized_mono.
      cbn [flat_map]. set_solver.
    + match goal with
      | |- ∃ new, (each_child _ _ _ _ ?o ?n' ?it).1.1 = _ ∧ _ =>
          destruct (IH o n' it) as (new3 & -> & Hnew3)
      end.
      eexists. rewrite <- !app_assoc. split; [done|].
      constructor; [done|]. apply Forall_app. split.
      * eapply Forall_impl; [exact Hnew2|]. intros el. apply synthesized_mono.
        cbn [flat_map]. set_solver.
      * eapply Forall_impl; [exact Hnew3|]. intros el. apply synthesized_mono.
        cbn [flat_map]. set_solver.
Qed.

Lemma tar_extends nd :
  ∀ out path dev,
    ∃ new, (tar out path nd dev).1.1 = out ++ new ∧
           Forall (synthesized (infos nd)) new ∧
           (cancelled out = false →
            IsDir (fi_Mode (node_info nd)) || IsRegular (fi_Mode (node_info nd)) = true →
            ∃ rest, new = Entry (synthesized_entry (node_info nd)) :: rest).
Proof.
  induction nd as [info rd children op IH] using fsnode_rect_children.
  intros out path dev. cbn [tar node_info].
  destruct (cancelled out); [exists []; by rewrite app_nil_r|].
  destruct (IsDir (fi_Mode info) || IsRegular (fi_Mode info)) eqn:Hm; cbn [negb];
    [|exists []; by rewrite app_nil_r].
  cbv zeta. fold (synthesized_entry info).
  set (entry := Entry (synthesized_entry info)).
  set (nd := FsNode info rd children op).
  assert (synthesized (infos nd) entry) as Hentry.
  { exists info. split; [|done]. subst nd. cbn [infos]. set_solver. }
  assert (∀ r : list element * Z * option error,
            (∃ new, r.1.1 = (out ++ [entry]) ++ new ∧
                    Forall (synthesized (flat_map infos children)) new) →
            ∃ new, r.1.1 = out ++ new ∧ Forall (synthesized (infos nd)) new ∧
                   (false = false → true = true → ∃ rest, new = entry :: rest))
    as Hwrap.
  { intros r (new & -> & Hnew). exists (entry :: new).
    rewrite <- app_assoc. split; [done|]. split; [|by eauto].
    constructor; [done|]. eapply Forall_impl; [exact Hnew|].
    intros el. apply synthesized_mono. subst nd. cbn [infos]. set_solver. }
  apply Hwrap. clear Hwrap.
  destruct (Encode out entry) as [nn [err|]]; cbn [fst snd].
  { exists []. by rewrite app_nil_r. }
  destruct (IsDir (fi_Mode info)).
  - destruct rd as [err|]; [exists []; by rewrite app_nil_r|].
    apply each_child_extends.
    eapply Forall_impl; [exact IH|]. intros c Hc o p.
    destruct (Hc o p dev) as (new & Hout & Hnew & _). eauto.
  - destruct (IsRegular (fi_Mode info)).
    + destruct op as [err|]; [exists []; by rewrite app_nil_r|].
      cbn [fst snd]. eexists. split; [done|]. by repeat constructor.
    + exists []. by rewrite app_nil_r.
Qed.

(** C7.  Every entry the Windows [tar] hands to the encoder, for the node it
    is called on and for every node below it, is the synthesized entry of one
    of these nodes; for each node that is encoded (a directory or a regular
    file, the context not cancelled) the first element is its synthesized
    entry; and the synthesized entry carries the user 1000 and the group 1000
    and, for a regular file, the mode [0x81a4], which is the regular-file type
    bit with the permissions [0o644] (420): the mode, user and group that the
    file system reports are not looked at. *)
Theorem tar_synthesizes_metadata :
  (∀ nd out path dev,
     ∃ new, (tar out path nd dev).1.1 = out ++ new ∧
            Forall (synthesized (infos nd)) new) ∧
  (∀ info rd children op out path dev,
     cancelled out = false →
     IsDir (fi_Mode info) || IsRegular (fi_Mode info) = true →
     ∃ rest, (tar out path (FsNode info rd children op) dev).1.1
             = out ++ Entry (synthesized_entry info) :: rest) ∧
  (∀ info,
     UID (synthesized_entry info) = 1000 ∧
     GID (synthesized_entry info) = 1000 ∧
     (IsDir (fi_Mode info) = false →
      Mode (synthesized_entry info) = 0x81a4 ∧
      Z.land (Mode (synthesized_entry info)) 4095 = 420 ∧
      Mode (synthesized_entry info) = Z.lor 32768 420)).
Proof.
  split; [|split].
  - intros nd out path dev.
    destruct (tar_extends nd out path dev) as (new & Hout & Hnew & _). eauto.
  - intros info rd children op out path dev Hc Hm.
    destruct (tar_extends (FsNode info rd children op) out path dev)
      as (new & Hout & _ & Hfirst).
    destruct (Hfirst Hc Hm) as [rest ->]. eauto.
  - intros info. unfold synthesized_entry. cbn. split; [done|]. split; [done|].
    by intros ->.
Qed.

End Tar.

(** *** A run on a small tree

    A directory with one regular file whose mode on the file system is
    [0o600] (384); the format constants are stand-ins, the encoder never
    fails and counts the size each header announces. *)
Definition demo_Encode (out : list element) (el : element) : Z * option error :=
  match el with
  | Entry e => (Size (entry_header e), None)
  | Filename h _ | Payload h _ | Goodbye h _ => (Size h, None)
  end.

Definition demo_file : fsnode :=
  FsNode (mkFileInfo "b" 5 384 1600000000) None [] None.

Definition demo_dir : fsnode :=
  FsNode (mkFileInfo "a" 0 (ModeDir + 493) 1600000000) None [demo_file] None.

Local Abbreviation demo_tar :=
  (tar 1 2 3 4 5 [] (λ _, 0) (λ items, items)
     (λ dir name, (dir ++ "/" ++ name)%string) (λ src, inl src) (λ _, ""%string)
     demo_Encode (λ _, false)).

Example tar_demo_dir :
  demo_tar [] "a" demo_dir 0 =
  ([Entry (mkFormatEntry (mkFormatHeader 64 1) 0 1000 1000 0x41c0 1600000000);
    Filename (mkFormatHeader 18 2) "b";
    Entry (mkFormatEntry (mkFormatHeader 64 1) 0 1000 1000 0x81a4 1600000000);
    Payload (mkFormatHeader 21 3) "a/b";
    Goodbye (mkFormatHeader 64 4)
      [mkFormatGoodbyeItem 103 103 0; mkFormatGoodbyeItem 167 64 5]],
   231, None).
Proof. vm_compute. reflexivity. Qed.

Lemma tar_synthesizes_metadata_witness :
  ∃ rest,
    (demo_tar [] "a/b" demo_file 0).1.1 =
    [] ++ Entry (synthesized_entry 1 [] (mkFileInfo "b" 5 384 1600000000)) :: rest.
Proof.
  apply (proj1 (proj2 (tar_synthesizes_metadata 1 2 3 4 5 [] (λ _, 0) (λ items, items)
           (λ dir name, (dir ++ "/" ++ name)%string) (λ src, inl src)
           (λ _, ""%string) demo_Encode (λ _, false)))).
  - reflexivity.
  - reflexivity.
Defined.

End TarWindows.

(** ** More on the self-seed: what a query finds, and how [add] advances *)
Module SelfSeedProps.
Import SelfSeed.
Section SelfSeedProps.

Context {ChunkID : Type} `{Countable ChunkID}.

(** The first [k] chunks of [chunks] carry the IDs of the index chunks at the
    positions [q], ..., [q+k-1]. *)
Definition matches (idx chunks : list (IndexChunk (ChunkID := ChunkID))) (q k : Z)
  : Prop :=
  ∀ j, 0 ≤ j < k →
       ∃ c d, index_at chunks j = Some c ∧ index_at idx (q + j) = Some d ∧
              ID c = ID d.

Lemma index_at_cons_0 {A} (x : A) l : index_at (x :: l) 0 = Some x.
Proof. done. Qed.

Lemma index_at_cons_S {A} (x : A) l j :
  0 ≤ j → index_at (x :: l) (j + 1) = index_at l j.
Proof.
  intros Hj. unfold index_at. repeat case_decide; try lia.
  replace (Z.to_nat (j + 1)) with (S (Z.to_nat j)) by lia. done.
Qed.

Lemma matches_nil idx q k : matches idx [] q k → k ≤ 0.
Proof.
  intros Hm. destruct (decide (k ≤ 0)) as [|Hk]; [done|].
  destruct (Hm 0) as (c & _ & [=] & _). lia.
Qed.

Lemma matches_cons idx c rest q k :
  0 < k → matches idx (c :: rest) q k →
  (∃ d, index_at idx q = Some d ∧ ID c = ID d) ∧ matches idx rest (q + 1) (k - 1).
Proof.
  intros Hk Hm. split.
  - destruct (Hm 0) as (c' & d & Hc & Hd & Hid); [lia|].
    rewrite index_at_cons_0 in Hc. injection Hc as <-.
    rewrite Z.add_0_r in Hd. eauto.
  - intros j Hj. destruct (Hm (j + 1)) as (c' & d & Hc & Hd & Hid); [lia|].
    rewrite index_at_cons_S in Hc by lia.
    replace (q + (j + 1)) with (q + 1 + j) in Hd by lia. eauto.
Qed.

Lemma matches_cons_2 idx c rest q k d :
  index_at idx q = Some d → ID c = ID d → matches idx rest (q + 1) (k - 1) →
  matches idx (c :: rest) q k.
Proof.
  intros Hd Hid Hm j Hj. destruct (decide (j = 0)) as [->|Hj0].
  - exists c, d. by rewrite Z.add_0_r.
  - destruct (Hm (j - 1)) as (c' & d' & Hc' & Hd' & Hid'); [lia|].
    exists c', d'. replace j with (j - 1 + 1) at 1 by lia.
    rewrite index_at_cons_S by lia.
    replace (q + j) with (q + 1 + (j - 1)) by lia. done.
Qed.

(** The loop of [maxMatchFrom] stops at the end of the longest match that
    stays below [written]. *)
Lemma match_loop_longest idx w chunks dp :
  0 ≤ dp → w ≤ len idx →
  ∃ dp', match_loop idx w chunks dp = Done dp' ∧ dp ≤ dp' ∧
         (dp' = dp ∨ dp' ≤ w) ∧
         matches idx chunks dp (dp' - dp) ∧
         ∀ k, matches idx chunks dp k → dp + k ≤ w → k ≤ dp' - dp.
Proof.
  revert dp. induction chunks as [|c rest IH]; intros dp Hdp Hw; simpl.
  - exists dp. split; [done|]. split; [lia|]. split; [by left|]. split.
    + intros j Hj. lia.
    + intros k Hk _. apply matches_nil in Hk. lia.
  - case_decide as Hwd.
    + exists dp. split; [done|]. split; [lia|]. split; [by left|]. split.
      * intros j Hj. lia.
      * intros k _ Hk. lia.
    + destruct (index_at_is_Some idx dp) as [d Hd]; [lia|]. rewrite Hd.
      case_decide as Hid.
      * destruct (IH (dp + 1)) as (dp' & Hl & Hle & Hb & Hm & Hmax); [lia..|].
        exists dp'. split; [done|]. split; [lia|]. split; [right; lia|]. split.
        -- eapply matches_cons_2; [done..|].
           by replace (dp' - dp - 1) with (dp' - (dp + 1)) by lia.
        -- intros k Hk Hkw. destruct (decide (k ≤ 0)); [lia|].
           apply matches_cons in Hk as [_ Hk]; [|lia].
           specialize (Hmax (k - 1) Hk). lia.
      * exists dp. split; [done|]. split; [lia|]. split; [by left|]. split.
        -- intros j Hj. lia.
        -- intros k Hk _. destruct (decide (k ≤ 0)); [lia|].
           apply matches_cons in Hk as [(d' & Hd' & Hid') _]; [|lia]. congruence.
Qed.

(** [maxMatchFrom] for a query that is not empty: the slice from [p] to the
    end of the longest match. *)
Lemma maxMatchFrom_run (s : selfSeed (ChunkID := ChunkID)) chunks p :
  0 ≤ p ≤ len (Chunks (seedIndex s)) →
  written s ≤ len (Chunks (seedIndex s)) →
  chunks ≠ [] →
  ∃ dp, maxMatchFrom s chunks p = Done (Some (mkSlice p dp)) ∧
        p ≤ dp ∧ (dp = p ∨ dp ≤ written s) ∧
        matches (Chunks (seedIndex s)) chunks p (dp - p) ∧
        ∀ k, matches (Chunks (seedIndex s)) chunks p k → p + k ≤ written s →
             k ≤ dp - p.
Proof.
  intros Hp Hw Hne.
  destruct (match_loop_longest (Chunks (seedIndex s)) (written s) chunks p)
    as (dp & Hl & Hle & Hb & Hm & Hmax); [lia..|].
  exists dp. split; [|done]. unfold maxMatchFrom.
  destruct chunks as [|c rest]; [done|]. rewrite Hl. cbn [obind].
  unfold slice_expr. case_decide as Hsl; [done|]. lia.
Qed.

(** X1.  [maxMatchFrom] from a position [p] of the index returns the slice
    [p..dp) of the longest run of chunks that starts at [p], carries the same
    IDs as the chunks queried, one by one from the first, and ends at or before
    [written]; from a position not below [written] the slice is empty.  For
    no chunks it returns nil. *)
Theorem maxMatchFrom_longest_run (s : selfSeed (ChunkID := ChunkID)) chunks p :
  0 ≤ p ≤ len (Chunks (seedIndex s)) →
  written s ≤ len (Chunks (seedIndex s)) →
  maxMatchFrom s [] p = Done None ∧
  (chunks ≠ [] →
   ∃ dp, maxMatchFrom s chunks p = Done (Some (mkSlice p dp)) ∧
         p ≤ dp ∧ (dp = p ∨ dp ≤ written s) ∧
         matches (Chunks (seedIndex s)) chunks p (dp - p) ∧
         ∀ k, matches (Chunks (seedIndex s)) chunks p k → p + k ≤ written s →
              k ≤ dp - p).
Proof.
  intros Hp Hw. split; [done|]. by apply maxMatchFrom_run.
Qed.

(** The loop of [LongestMatchWith] keeps the first of the longest runs. *)
Lemma longest_loop_longest (s : selfSeed (ChunkID := ChunkID)) chunks ps mtch max :
  chunks ≠ [] → written s ≤ len (Chunks (seedIndex s)) →
  (∀ p, p ∈ ps → 0 ≤ p < written s) →
  ∃ mtch' max',
    longest_loop s chunks ps mtch max = Done (mtch', max') ∧ max ≤ max' ∧
    (∀ p k, p ∈ ps → matches (Chunks (seedIndex s)) chunks p k →
            p + k ≤ written s → k ≤ max') ∧
    ((mtch' = mtch ∧ max' = max) ∨
     ∃ p, p ∈ ps ∧ mtch' = Some (mkSlice p (p + max')) ∧ max < max' ∧
          p + max' ≤ written s ∧
          matches (Chunks (seedIndex s)) chunks p max').
Proof.
  intros Hne Hw. revert mtch max.
  induction ps as [|p ps IH]; intros mtch max Hps; simpl.
  - exists mtch, max. split; [done|]. split; [lia|]. split; [|by left].
    intros p k Hp. by apply elem_of_nil in Hp.
  - assert (0 ≤ p < written s) as Hpw by (apply Hps; by left).
    destruct (maxMatchFrom_run s chunks p ltac:(lia) Hw Hne)
      as (dp & -> & Hle & Hb & Hm & Hmax).
    cbn [obind]. cbn [slice_len hi lo].
    assert (∀ q, q ∈ ps → 0 ≤ q < written s) as Hps'.
    { intros q Hq. apply Hps. by right. }
    case_decide as Hlt.
    + destruct (IH (Some (mkSlice p dp)) (dp - p) Hps')
        as (mtch' & max' & Hl & Hge & Hall & Hsel).
      exists mtch', max'. split; [done|]. split; [lia|]. split.
      * intros q k [->|Hq]%elem_of_cons Hk Hkw; [|by eapply Hall].
        specialize (Hmax k Hk Hkw). lia.
      * right. destruct Hsel as [[-> ->]|(q & Hq & -> & Hlt' & Hqw & Hqm)].
        -- exists p. split; [by left|].
           replace (p + (dp - p)) with dp by lia.
           split; [done|]. split; [lia|]. split; [lia|done].
        -- exists q. split; [by right|]. split; [done|]. split; [lia|done].
    + destruct (IH mtch max Hps') as (mtch' & max' & Hl & Hge & Hall & Hsel).
      exists mtch', max'. split; [done|]. split; [lia|]. split.
      * intros q k [->|Hq]%elem_of_cons Hk Hkw; [|by eapply Hall].
        specialize (Hmax k Hk Hkw). lia.
      * destruct Hsel as [?|(q & Hq & ?)]; [by left|].
        right. exists q. split; [by right|done].
Qed.

Lemma elem_of_positions (idx : Index (ChunkID := ChunkID)) w id q :
  q ∈ positions idx w id ↔ 0 ≤ q < w ∧ has_id idx id q.
Proof.
  unfold positions. rewrite list_elem_of_filter, elem_of_seqZ. tauto.
Qed.

(** X2.  On a seed reached by [add] calls, [LongestMatchWith] returns the
    length of the longest run of index chunks, anywhere below [written], that
    carries the IDs of the chunks queried from the first on: no run below
    [written] is longer, and when the length is positive the segment returned
    is such a run. *)
Theorem LongestMatchWith_longest_below_written f (idx : Index (ChunkID := ChunkID)) cc segs (s : selfSeed (ChunkID := ChunkID)) chunks :
  len (Chunks idx) ≤ int_max →
  Forall (well_formed idx) segs →
  add_all (newSelfSeed f idx cc) segs = Done s →
  ∃ n seg,
    LongestMatchWith s chunks = Done (n, seg) ∧ 0 ≤ n ∧
    (∀ q k, 0 ≤ q → q + k ≤ written s → matches (Chunks idx) chunks q k → k ≤ n) ∧
    (0 < n →
     ∃ q, matched (n, seg) = Some (mkSlice q (q + n)) ∧ 0 ≤ q ∧
          q + n ≤ written s ∧ matches (Chunks idx) chunks q n).
Proof.
  intros Hmax Hwf Hadd.
  destruct (recorded_add_all idx segs (newSelfSeed f idx cc) Hmax Hwf)
    as (s' & Hadd' & [Hi Hw Hc Hpos Hne]); [apply recorded_new|].
  assert (s' = s) as -> by congruence. clear Hadd'.
  assert (∀ c0 rest q k, chunks = c0 :: rest → 0 < k → 0 ≤ q → q + k ≤ written s →
            matches (Chunks idx) chunks q k → q ∈ positions idx (written s) (ID c0))
    as Hfirst.
  { intros c0 rest q k -> Hk Hq Hqk Hm.
    apply matches_cons in Hm as [(d & Hd & Hid) _]; [|done].
    apply elem_of_positions. split; [lia|]. unfold has_id. rewrite Hd. simpl.
    by rewrite Hid. }
  unfold LongestMatchWith. destruct chunks as [|c0 rest].
  { exists 0, None. split; [done|]. split; [done|]. split; [|lia].
    intros q k _ _ Hm. by apply matches_nil in Hm. }
  case_decide as Hlen.
  { exists 0, None. split; [done|]. split; [done|]. split; [|lia].
    intros q k Hq Hqk _. rewrite Hi in Hlen. lia. }
  specialize (Hpos (ID c0)).
  destruct (pos s !! ID c0) as [ps|] eqn:Hps; simpl in Hpos.
  2: { exists 0, None. split; [done|]. split; [done|]. split; [|lia].
       intros q k Hq Hqk Hm. destruct (decide (k ≤ 0)); [done|].
       specialize (Hfirst c0 rest q k eq_refl ltac:(lia) Hq Hqk Hm).
       rewrite <- Hpos in Hfirst. by apply elem_of_nil in Hfirst. }
  destruct (longest_loop_longest s (c0 :: rest) ps None 0)
    as (mtch & mx & -> & Hge & Hall & Hsel); [done|rewrite Hi; lia| |].
  { intros p Hp. rewrite Hpos in Hp. by apply elem_of_positions in Hp as [? _]. }
  cbn [obind fst snd]. eexists _, _. split; [done|]. split; [done|].
  rewrite Hi in *. split.
  - intros q k Hq Hqk Hm. destruct (decide (k ≤ 0)); [lia|].
    eapply Hall; [|done..]. rewrite Hpos.
    apply (Hfirst c0 rest q k eq_refl); [lia|done..].
  - intros Hn. destruct Hsel as [[_ ->]|(p & Hp & -> & _ & Hpw & Hm)]; [lia|].
    exists p. split; [done|]. split; [|done].
    rewrite Hpos in Hp. apply elem_of_positions in Hp. lia.
Qed.

(** *** How [add] advances *)

Lemma add_loop_settled fuel (s s' : selfSeed (ChunkID := ChunkID)) :
  add_loop fuel s = Done s' → cache s' !! written s' = None.
Proof.
  revert s. induction fuel as [|fuel IH]; intros s; simpl; [done|].
  destruct (cache s !! written s) as [next|] eqn:Hnext.
  - destruct (record_range _ _ _ _); [|done]. apply IH.
  - by intros [= <-].
Qed.

Lemma add_all_settled segs (s s' : selfSeed (ChunkID := ChunkID)) :
  cache s !! written s = None →
  add_all s segs = Done s' → cache s' !! written s' = None.
Proof.
  revert s. induction segs as [|seg segs IH]; intros s Hs; simpl.
  - by intros [= <-].
  - destruct (add s seg) as [s1| |] eqn:Hadd; simpl; [|done..].
    apply IH. by eapply add_loop_settled.
Qed.

Lemma recorded_add_loop_advances idx fuel (s : selfSeed (ChunkID := ChunkID)) :
  (size (cache s) < fuel)%nat → recorded idx s →
  ∃ s', add_loop fuel s = Done s' ∧ recorded idx s' ∧ written s ≤ written s' ∧
        ∀ next, cache s !! written s = Some next → next ≤ written s'.
Proof.
  revert s. induction fuel as [|fuel IH]; intros s Hsz Hr; [lia|]. simpl.
  destruct (cache s !! written s) as [next|] eqn:Hnext.
  2: { exists s. split; [done|]. split; [done|]. split; [lia|]. by intros ?. }
  pose proof Hr as [Hi Hw Hc Hpos Hne].
  destruct (Hc _ _ Hnext) as (_ & Hlt & Hle). rewrite Hi.
  destruct (record_range_spec idx (pos s) (written s) (Z.to_nat (next - written s)))
    as (pos' & Hrr & Happ & Hne'); [lia..|].
  rewrite Hrr.
  match goal with |- ∃ s', add_loop fuel ?s2 = _ ∧ _ =>
    destruct (IH s2) as (s' & Hl & Hr' & Hadv & _)
  end.
  { simpl. pose proof (size_delete_lt _ _ _ Hnext). lia. }
  { split; simpl; try done.
    - lia.
    - intros k v Hkv. apply Hc.
      destruct (decide (written s = k)) as [<-|];
        [by rewrite lookup_delete_eq in Hkv|].
      by rewrite lookup_delete_ne in Hkv.
    - intros id. rewrite Happ, Hpos.
      replace next with (written s + Z.of_nat (Z.to_nat (next - written s)))
        at 2 by lia.
      by rewrite positions_app by lia.
    - by apply Hne'. }
  simpl in Hadv. exists s'. split; [done|]. split; [done|]. split; [lia|].
  by intros ? [= <-].
Qed.

Lemma recorded_record idx (s : selfSeed (ChunkID := ChunkID)) seg :
  len (Chunks idx) ≤ int_max → well_formed idx seg → recorded idx s →
  recorded idx (record_segment s seg) ∧
  cache (record_segment s seg) = <[first seg := last seg + 1]> (cache s).
Proof.
  intros Hmax (Hf0 & Hfl & Hll) [Hi Hw Hc Hpos Hne].
  assert (wrap_int (last seg + 1) = last seg + 1) as Hwrap.
  { apply wrap_int_id. unfold int_max in *. lia. }
  split; [|simpl; by rewrite Hwrap].
  split; simpl; try done. rewrite Hwrap.
  intros k v. destruct (decide (first seg = k)) as [<-|Hk].
  - rewrite lookup_insert_eq. intros [= <-]. lia.
  - rewrite lookup_insert_ne by done. apply Hc.
Qed.

Lemma positions_prefix (idx : Index (ChunkID := ChunkID)) w w' id :
  0 ≤ w ≤ w' → positions idx w id `prefix_of` positions idx w' id.
Proof.
  intros Hw. replace w' with (w + (w' - w)) by lia.
  rewrite positions_app by lia. by apply prefix_app_r.
Qed.

(** X3.  On a seed reached by [add] calls, a segment that does not start at
    [written] is held back: [add] records it in the cache and leaves
    [written] and [pos] as they are.  A segment that starts at [written]
    moves [written] past its last chunk.  In both cases [written] does not
    go back, and the positions recorded for an ID are only appended to. *)
Theorem add_holds_back_or_advances f (idx : Index (ChunkID := ChunkID)) cc segs seg (s : selfSeed (ChunkID := ChunkID)) :
  len (Chunks idx) ≤ int_max →
  Forall (well_formed idx) segs → well_formed idx seg →
  add_all (newSelfSeed f idx cc) segs = Done s →
  ∃ s', add s seg = Done s' ∧
        (first seg ≠ written s →
         written s' = written s ∧ pos s' = pos s ∧
         cache s' = <[first seg := last seg + 1]> (cache s)) ∧
        (first seg = written s → last seg < written s') ∧
        written s ≤ written s' ∧
        ∀ id, default [] (pos s !! id) `prefix_of` default [] (pos s' !! id).
Proof.
  intros Hmax Hwf Hseg Hadd.
  destruct (recorded_add_all idx segs (newSelfSeed f idx cc) Hmax Hwf)
    as (s0 & Hadd0 & Hr); [apply recorded_new|].
  assert (s0 = s) as -> by congruence. clear Hadd0.
  assert (cache s !! written s = None) as Hnone.
  { by eapply add_all_settled; [|exact Hadd]. }
  destruct (recorded_record idx s seg Hmax Hseg Hr) as [Hr1 Hc1].
  destruct (recorded_add_loop_advances idx
              (S (size (cache (record_segment s seg)))) (record_segment s seg))
    as (s' & Hl & Hr' & Hadv & Hnext); [lia|done|].
  exists s'. split; [done|]. split; [|split; [|split]].
  - intros Hne. unfold add in Hl. cbn [add_loop] in Hl.
    rewrite Hc1 in Hl. cbn [written record_segment] in Hl.
    rewrite lookup_insert_ne, Hnone in Hl by done.
    injection Hl as <-. by rewrite Hc1.
  - intros Heq. specialize (Hnext (last seg + 1)). rewrite Hc1 in Hnext.
    cbn [written record_segment] in Hnext. rewrite Heq, lookup_insert_eq in Hnext.
    specialize (Hnext eq_refl). lia.
  - done.
  - intros id. destruct Hr as [_ Hw _ Hpos _]. destruct Hr' as [_ Hw' _ Hpos' _].
    rewrite Hpos, Hpos'. apply positions_prefix. simpl in Hadv. lia.
Qed.

Lemma covered_Permutation (segs segs' : list (IndexSegment (ChunkID := ChunkID))) q :
  segs ≡ₚ segs' → covered segs q → covered segs' q.
Proof.
  intros Hp (seg & Hseg & Hc). exists seg. split; [|done]. by rewrite <- Hp.
Qed.

(** What [tracks] says of [written]: the first position that no added segment
    covers. *)
Lemma tracks_first_uncovered idx added (s : selfSeed (ChunkID := ChunkID)) :
  tracks idx added s → cache s !! written s = None →
  (∀ q, 0 ≤ q < written s → covered added q) ∧ ¬ covered added (written s).
Proof.
  intros [_ _ Hpre Hwh Hpend _ _ _] Hnone. split; [done|].
  intros (seg & Hseg & Hcov). unfold covers in Hcov.
  destruct (Hwh seg Hseg) as [|Hle]; [lia|].
  assert (first seg = written s) as Hf by lia.
  specialize (Hpend seg Hseg Hle). rewrite Hf in Hpend. congruence.
Qed.

Lemma add_all_partition f (idx : Index (ChunkID := ChunkID)) cc segs :
  len (Chunks idx) ≤ int_max →
  Forall (well_formed idx) segs → one_partition segs →
  ∃ s, add_all (newSelfSeed f idx cc) segs = Done s ∧
       0 ≤ written s ≤ len (Chunks idx) ∧
       (∀ q, 0 ≤ q < written s → covered segs q) ∧
       ¬ covered segs (written s) ∧
       (∀ id, default [] (pos s !! id) = positions idx (written s) id) ∧
       (∀ id, pos s !! id ≠ Some []).
Proof.
  intros Hmax Hwf Hpart.
  destruct (tracks_add_all idx segs [] (newSelfSeed f idx cc))
    as (s & Hadd & Ht & Hnone); simpl; try done.
  { intros x Hx. by eapply Forall_forall in Hwf. }
  { apply tracks_new. }
  exists s. split; [done|].
  destruct (tracks_first_uncovered _ _ _ Ht Hnone) as [Hpre Hno].
  destruct Ht as [_ Hw _ _ _ _ Hpos Hne]. done.
Qed.

(** X4.  The order in which the segments of a partition of the index are
    added does not matter: the same segments in another order leave the same
    [written] and the same [pos]; and once segments that cover the whole
    index are added, [written] is the length of the index. *)
Theorem add_all_order_irrelevant f (idx : Index (ChunkID := ChunkID)) cc segs segs' :
  len (Chunks idx) ≤ int_max →
  Forall (well_formed idx) segs → one_partition segs → segs ≡ₚ segs' →
  ∃ s s' : selfSeed (ChunkID := ChunkID),
    add_all (newSelfSeed f idx cc) segs = Done s ∧
    add_all (newSelfSeed f idx cc) segs' = Done s' ∧
    written s = written s' ∧ pos s = pos s' ∧
    ((∀ q, 0 ≤ q < len (Chunks idx) → covered segs q) →
     written s = len (Chunks idx)).
Proof.
  intros Hmax Hwf Hpart Hperm.
  destruct (add_all_partition f idx cc segs Hmax Hwf Hpart)
    as (s & Hadd & Hw & Hpre & Hno & Hpos & Hne).
  destruct (add_all_partition f idx cc segs' Hmax)
    as (s' & Hadd' & Hw' & Hpre' & Hno' & Hpos' & Hne').
  { by rewrite <- Hperm. }
  { intros x y Hx Hy. apply Hpart; by rewrite Hperm. }
  exists s, s'. split; [done|]. split; [done|].
  assert (written s = written s') as Heq.
  { destruct (Z.lt_trichotomy (written s) (written s')) as [Hlt|[?|Hlt]]; [|done|].
    - exfalso. apply Hno. eapply covered_Permutation; [by symmetry|].
      apply Hpre'. lia.
    - exfalso. apply Hno'. eapply covered_Permutation; [done|].
      apply Hpre. lia. }
  split; [done|]. split.
  - apply map_eq. intros id. specialize (Hpos id). specialize (Hpos' id).
    rewrite Heq in Hpos. rewrite <- Hpos' in Hpos.
    specialize (Hne id). specialize (Hne' id).
    destruct (pos s !! id) as [[|]|], (pos s' !! id) as [[|]|];
      simpl in *; congruence.
  - intros Hall. destruct (decide (written s = len (Chunks idx))); [done|].
    exfalso. apply Hno. apply Hall. lia.
Qed.

Lemma record_range_overrun (chunks : list (IndexChunk (ChunkID := ChunkID))) pos i n :
  0 ≤ i ≤ len chunks → len chunks < i + Z.of_nat n →
  record_range chunks pos i n = None.
Proof.
  revert pos i. induction n as [|n IH]; intros pos i Hi Hn; simpl.
  - lia.
  - destruct (index_at chunks i) as [c|] eqn:Hc; [|done].
    apply index_at_Some in Hc. apply IH; lia.
Qed.

(** X5.  A segment that starts at [written] and whose last chunk lies beyond
    the end of the index makes [add] panic: the loop that records the chunks
    of the segment runs off the end of [index.Chunks]. *)
Theorem add_beyond_index_panics f (idx : Index (ChunkID := ChunkID)) cc segs seg (s : selfSeed (ChunkID := ChunkID)) :
  len (Chunks idx) ≤ int_max →
  Forall (well_formed idx) segs →
  add_all (newSelfSeed f idx cc) segs = Done s →
  first seg = written s → len (Chunks idx) ≤ last seg → last seg < int_max →
  add s seg = Panic.
Proof.
  intros Hmax Hwf Hadd Hf Hl Hlm.
  destruct (recorded_add_all idx segs (newSelfSeed f idx cc) Hmax Hwf)
    as (s0 & Hadd0 & [Hi Hw Hc Hpos Hne]); [apply recorded_new|].
  assert (s0 = s) as -> by congruence. clear Hadd0.
  unfold add. cbn [add_loop written cache record_segment seedIndex pos].
  rewrite Hf, lookup_insert_eq, Hi.
  rewrite wrap_int_id by (unfold int_max in *; lia).
  by rewrite record_range_overrun by lia.
Qed.

End SelfSeedProps.

Lemma maxMatchFrom_longest_run_witness :
  maxMatchFrom demo_seed [] 2 = Done None ∧
  ([mkIndexChunk 7%nat 0 10; mkIndexChunk 9%nat 10 10; mkIndexChunk 8%nat 20 10] ≠ [] →
   ∃ dp, maxMatchFrom demo_seed
           [mkIndexChunk 7%nat 0 10; mkIndexChunk 9%nat 10 10; mkIndexChunk 8%nat 20 10] 2
         = Done (Some (mkSlice 2 dp)) ∧
         2 ≤ dp ∧ (dp = 2 ∨ dp ≤ written demo_seed) ∧
         matches (Chunks (seedIndex demo_seed))
           [mkIndexChunk 7%nat 0 10; mkIndexChunk 9%nat 10 10; mkIndexChunk 8%nat 20 10]
           2 (dp - 2) ∧
         ∀ k, matches (Chunks (seedIndex demo_seed))
                [mkIndexChunk 7%nat 0 10; mkIndexChunk 9%nat 10 10;
                 mkIndexChunk 8%nat 20 10] 2 k →
              2 + k ≤ written demo_seed → k ≤ dp - 2).
Proof.
  apply (maxMatchFrom_longest_run demo_seed); unfold len; simpl; lia.
Defined.

Lemma LongestMatchWith_longest_below_written_witness :
  ∃ n seg,
    LongestMatchWith demo_seed
      [mkIndexChunk 7%nat 0 10; mkIndexChunk 9%nat 10 10; mkIndexChunk 8%nat 20 10]
    = Done (n, seg) ∧ 0 ≤ n ∧
    (∀ q k, 0 ≤ q → q + k ≤ written demo_seed →
            matches (Chunks demo_index)
              [mkIndexChunk 7%nat 0 10; mkIndexChunk 9%nat 10 10;
               mkIndexChunk 8%nat 20 10] q k → k ≤ n) ∧
    (0 < n →
     ∃ q, matched (n, seg) = Some (mkSlice q (q + n)) ∧ 0 ≤ q ∧
          q + n ≤ written demo_seed ∧
          matches (Chunks demo_index)
            [mkIndexChunk 7%nat 0 10; mkIndexChunk 9%nat 10 10;
             mkIndexChunk 8%nat 20 10] q n).
Proof.
  apply (LongestMatchWith_longest_below_written "out" demo_index true demo_segments).
  - vm_compute. discriminate.
  - repeat constructor; simpl; lia.
  - vm_compute. reflexivity.
Defined.

Lemma add_holds_back_or_advances_witness :
  ∃ s', add demo_seed (mkIndexSegment demo_index 4 4) = Done s' ∧
        (4 ≠ written demo_seed →
         written s' = written demo_seed ∧ pos s' = pos demo_seed ∧
         cache s' = <[4 := 4 + 1]> (cache demo_seed)) ∧
        (4 = written demo_seed → 4 < written s') ∧
        written demo_seed ≤ written s' ∧
        ∀ id, default [] (pos demo_seed !! id) `prefix_of` default [] (pos s' !! id).
Proof.
  apply (add_holds_back_or_advances "out" demo_index true demo_segments
           (mkIndexSegment demo_index 4 4)).
  - vm_compute. discriminate.
  - repeat constructor; simpl; lia.
  - repeat constructor; simpl; lia.
  - vm_compute. reflexivity.
Defined.

Lemma add_all_order_irrelevant_witness :
  ∃ s s' : selfSeed,
    add_all (newSelfSeed "out" demo_index true) demo_segments = Done s ∧
    add_all (newSelfSeed "out" demo_index true) (reverse demo_segments) = Done s' ∧
    written s = written s' ∧ pos s = pos s' ∧
    ((∀ q, 0 ≤ q < len (Chunks demo_index) → covered demo_segments q) →
     written s = len (Chunks demo_index)).
Proof.
  apply (add_all_order_irrelevant "out" demo_index true).
  - vm_compute. discriminate.
  - repeat constructor; simpl; lia.
  - apply demo_segments_one_partition.
  - symmetry. apply reverse_Permutation.
Defined.

Lemma add_beyond_index_panics_witness :
  add demo_seed (mkIndexSegment demo_index 4 5) = Panic.
Proof.
  apply (add_beyond_index_panics "out" demo_index true demo_segments).
  - vm_compute. discriminate.
  - repeat constructor; simpl; lia.
  - vm_compute. reflexivity.
  - reflexivity.
  - vm_compute. discriminate.
  - reflexivity.
Defined.

End SelfSeedProps.

(** ** More on the stores: removing, pruning and naming chunks *)
Module StoresProps.
Import GoStrings Stores.
Local Open Scope string_scope.

Section StoresProps.

Context {ChunkID : Type} `{Countable ChunkID}.
Variable ChunkID_String : ChunkID → string.
Variable ChunkIDFromString : string → option ChunkID.
Variable filepath_Join : string → string → string.

Local Abbreviation nameFromID := (Stores.nameFromID ChunkID_String filepath_Join).
Local Abbreviation RemoveChunk := (Stores.RemoveChunk ChunkID_String filepath_Join).
Local Abbreviation prune_verdict := (Stores.prune_verdict ChunkIDFromString).
Local Abbreviation prune_walkFn :=
  (Stores.prune_walkFn ChunkID_String ChunkIDFromString filepath_Join).
Local Abbreviation Prune :=
  (Stores.Prune ChunkID_String ChunkIDFromString filepath_Join).
Local Abbreviation gcs_nameFromID := (Stores.gcs_nameFromID ChunkID_String).
Local Abbreviation idFromName := (Stores.idFromName ChunkIDFromString).
Local Abbreviation gcs_RemoveChunk := (Stores.gcs_RemoveChunk ChunkID_String).
Local Abbreviation gcs_prune_verdict := (Stores.gcs_prune_verdict ChunkIDFromString).
Local Abbreviation gcs_Prune := (Stores.gcs_Prune ChunkID_String ChunkIDFromString).

(** [LocalStore.HasChunk], on the files of [Stores.RemoveChunk]. *)
Definition LocalStore_HasChunk (s : LocalStore) (fs : gmap string entry)
    (id : ChunkID) (f : faults) : bool * option (error (ChunkID := ChunkID)) :=
  let p := (nameFromID s id).2 in
  let err := fs_Stat fs p f in
  match err with
  | None => (true, None)
  | Some _ => if os_IsNotExist err then (false, None) else (false, err)
  end.

Lemma RemoveChunk_nil (s : LocalStore) fs (id : ChunkID) f fs' :
  RemoveChunk s fs id f = (fs', None) →
  is_Some (fs !! (nameFromID s id).2) ∧ fs' = delete (nameFromID s id).2 fs.
Proof.
  unfold Stores.RemoveChunk, fs_Stat, fs_Remove.
  destruct (stat_fault f); [done|].
  destruct (fs !! _) as [x|] eqn:Hx; [|done].
  destruct (remove_fault f); [done|]. by intros [= <-].
Qed.

(** X6.  [LocalStore.RemoveChunk] reports every failure of [os.Stat] as
    [ChunkMissing], also one that is no not-exist error and also when the
    file is there, and then removes nothing; [HasChunk] returns such a
    failure as an error.  When [RemoveChunk] returns nil the file of the
    chunk, and no other, is gone: [HasChunk] then answers false, and a second
    [RemoveChunk] fails with [ChunkMissing]. *)
Theorem RemoveChunk_reports_ChunkMissing (s : LocalStore) fs (id : ChunkID) :
  (∀ f e, stat_fault f = Some e →
          RemoveChunk s fs id f = (fs, Some (ChunkMissing id)) ∧
          (e ≠ ENOENT →
           LocalStore_HasChunk s fs id f = (false, Some (PathError e)))) ∧
  (∀ f, fs !! (nameFromID s id).2 = None →
        RemoveChunk s fs id f = (fs, Some (ChunkMissing id))) ∧
  (∀ f fs', RemoveChunk s fs id f = (fs', None) →
            is_Some (fs !! (nameFromID s id).2) ∧
            fs' = delete (nameFromID s id).2 fs ∧
            LocalStore_HasChunk s fs' id (mkFaults None None) = (false, None) ∧
            ∀ f', RemoveChunk s fs' id f' = (fs', Some (ChunkMissing id))).
Proof.
  unfold Stores.RemoveChunk, LocalStore_HasChunk, fs_Stat, fs_Remove.
  split; [|split].
  - intros f e ->. split; [done|]. intros He. by destruct e.
  - intros f ->. by destruct (stat_fault f).
  - intros f fs' Hrm. apply RemoveChunk_nil in Hrm as [Hsome ->].
    split; [done|]. split; [done|]. cbn [stat_fault].
    rewrite lookup_delete_eq. split; [done|].
    intros f'. by destruct (stat_fault f').
Qed.

(** *** What a prune that returns nil has removed *)

Lemma RemoveChunk_shrinks (s : LocalStore) fs (id : ChunkID) f path :
  (RemoveChunk s fs id f).1 !! path = None ∨
  (RemoveChunk s fs id f).1 !! path = fs !! path.
Proof.
  unfold Stores.RemoveChunk, fs_Remove. destruct (fs_Stat _ _ _); [by right|].
  destruct (remove_fault f); [by right|]. destruct (fs !! _); [|by right].
  cbn [fst]. destruct (decide ((nameFromID s id).2 = path)) as [<-|Hne].
  - left. apply lookup_delete_eq.
  - right. by apply lookup_delete_ne.
Qed.

Lemma Prune_shrinks (s : LocalStore) ids fs visits path :
  (Prune s ids fs visits).1 !! path = None ∨
  (Prune s ids fs visits).1 !! path = fs !! path.
Proof.
  unfold Stores.Prune. revert fs.
  induction visits as [|v rest IH]; intros fs; [by right|].
  cbn [Walk]. cbv zeta.
  assert (∀ info err,
            (prune_walkFn s ids fs v info err).1 !! path = None ∨
            (prune_walkFn s ids fs v info err).1 !! path = fs !! path) as Hstep.
  { intros info err. unfold Stores.prune_walkFn.
    destruct (Stores.prune_verdict _ _ _ _ _ _ _); [by right..|].
    apply RemoveChunk_shrinks. }
  destruct (fs !! v_path v) as [info|].
  - specialize (Hstep (Some info) (v_err v)).
    destruct (prune_walkFn s ids fs v (Some info) (v_err v)) as [fs1 [e|]];
      cbn [fst snd] in *; [done|].
    destruct (IH fs1) as [Hn|He]; [by left|]. rewrite He. done.
  - specialize (Hstep None (Some (PathError ENOENT))).
    destruct (prune_walkFn s ids fs v None _) as [fs1 [e|]];
      cbn [fst snd] in *; [done|].
    destruct (IH fs1) as [Hn|He]; [by left|]. rewrite He. done.
Qed.

Lemma gcs_RemoveChunk_shrinks (s : GCSStore) bucket (id : ChunkID) fault name :
  (gcs_RemoveChunk s bucket id fault).1 !! name = None ∨
  (gcs_RemoveChunk s bucket id fault).1 !! name = bucket !! name.
Proof.
  unfold Stores.gcs_RemoveChunk. destruct fault; [by right|].
  destruct (bucket !! _); [|by right]. cbn [fst].
  destruct (decide (gcs_nameFromID s id = name)) as [<-|Hne].
  - left. apply lookup_delete_eq.
  - right. by apply lookup_delete_ne.
Qed.

Lemma gcs_Prune_shrinks (s : GCSStore) ids bucket listings name :
  (gcs_Prune s ids bucket listings).1 !! name = None ∨
  (gcs_Prune s ids bucket listings).1 !! name = bucket !! name.
Proof.
  revert bucket. induction listings as [|l rest IH]; intros bucket; [by right|].
  cbn [Stores.gcs_Prune].
  destruct (Stores.gcs_prune_verdict _ _ _ _) as [e| |id]; [by right|apply IH|].
  cbv zeta. pose proof (gcs_RemoveChunk_shrinks s bucket id (l_fault l) name) as Hstep.
  destruct (gcs_RemoveChunk s bucket id (l_fault l)) as [b1 [e|]];
    cbn [fst snd] in *; [done|].
  destruct (IH b1) as [Hn|He]; [by left|]. rewrite He. done.
Qed.

(** The file name of a chunk gives back the string of its ID. *)
Lemma nameFromID_parses (s : LocalStore) (id : ChunkID) :
  contains_byte (ChunkID_String id) "/" = false →
  (∃ dir', filepath_Join (filepath_Join (Base s) (string_take 4 (ChunkID_String id)))
             (ChunkID_String id) = dir' ++ String "/" (ChunkID_String id)) →
  HasSuffix (nameFromID s id).2 (chunk_ext (opt s)) = true ∧
  TrimSuffix (filepath_Base (nameFromID s id).2) (chunk_ext (opt s))
  = ChunkID_String id.
Proof.
  intros Hplain [dir' Hjoin]. unfold Stores.nameFromID. cbn [snd]. rewrite Hjoin.
  destruct (chunk_ext_plain (opt s)) as [Hne Hsl].
  split; [apply HasSuffix_app|].
  rewrite append_assoc_sep, filepath_Base_app, TrimSuffix_app; [done| |].
  - destruct (ChunkID_String id); [done|discriminate].
  - by rewrite contains_byte_app, Hplain, Hsl.
Qed.

Lemma prune_verdict_chunk (s : LocalStore) ids (id : ChunkID) :
  contains_byte (ChunkID_String id) "/" = false →
  (∃ dir', filepath_Join (filepath_Join (Base s) (string_take 4 (ChunkID_String id)))
             (ChunkID_String id) = dir' ++ String "/" (ChunkID_String id)) →
  ChunkIDFromString (ChunkID_String id) = Some id →
  prune_verdict s ids (nameFromID s id).2 false (Some RegularFile) None
  = if decide (id ∈ ids) then Skip else Drop id.
Proof.
  intros Hplain Hjoin Hparse.
  destruct (nameFromID_parses s id Hplain Hjoin) as [Hsuf Htrim].
  unfold Stores.prune_verdict. unfold chunk_ext in *.
  destruct (Uncompressed (opt s)); rewrite Hsuf; cbn [negb];
    by rewrite Htrim, Hparse.
Qed.

(** X7.  When [Prune] returns nil, every chunk file that the walk came to
    under the name the store gives the chunk, and whose ID is not in the live
    set, is gone; likewise every such object that the listing of a GCS store
    came to.  (A directory under such a name is skipped.) *)
Theorem Prune_nil_removed_stale_chunks :
  (∀ (s : LocalStore) ids fs visits fs' v (id : ChunkID),
     Prune s ids fs visits = (fs', None) →
     v ∈ visits → v_path v = (nameFromID s id).2 →
     fs !! v_path v ≠ Some Directory →
     contains_byte (ChunkID_String id) "/" = false →
     (∃ dir', filepath_Join (filepath_Join (Base s) (string_take 4 (ChunkID_String id)))
                (ChunkID_String id) = dir' ++ String "/" (ChunkID_String id)) →
     ChunkIDFromString (ChunkID_String id) = Some id →
     id ∉ ids →
     fs' !! v_path v = None) ∧
  (∀ (s : GCSStore) ids bucket listings bucket' l (id : ChunkID),
     gcs_Prune s ids bucket listings = (bucket', None) →
     l ∈ listings → l_next l = inr (gcs_nameFromID s id) →
     Stores.idFromName ChunkIDFromString s (gcs_nameFromID s id) = Some id →
     id ∉ ids →
     bucket' !! gcs_nameFromID s id = None).
Proof.
  split.
  - intros s ids fs visits fs' v id Hprune Hv Hpath Hdir Hplain Hjoin Hparse Hid.
    apply list_elem_of_split in Hv as (pre & post & ->).
    unfold Stores.Prune in Hprune. rewrite Walk_app in Hprune.
    pose proof (Prune_shrinks s ids fs pre (v_path v)) as Hpre.
    unfold Stores.Prune in Hpre.
    destruct (Walk _ fs pre) as [fs1 [e|]] eqn:Hw; cbn [fst snd] in *; [done|].
    cbn [Walk] in Hprune. cbv zeta in Hprune.
    destruct (fs1 !! v_path v) as [info|] eqn:Hinfo.
    2: { unfold Stores.prune_walkFn, Stores.prune_verdict in Hprune.
         by destruct (v_cancelled v). }
    assert (info = RegularFile) as ->.
    { destruct Hpre as [?|Hpre]; [congruence|]. rewrite Hpre in Hinfo.
      destruct info; [done|congruence]. }
    remember (prune_walkFn s ids fs1 v (Some RegularFile) (v_err v)) as r eqn:Hr.
    unfold Stores.prune_walkFn in Hr.
    destruct (v_cancelled v) eqn:Hcan.
    { unfold Stores.prune_verdict in Hr. by subst r. }
    destruct (v_err v) as [e|] eqn:Herr.
    { unfold Stores.prune_verdict in Hr. by subst r. }
    rewrite Hpath, (prune_verdict_chunk s ids id Hplain Hjoin Hparse) in Hr.
    rewrite decide_False in Hr by done.
    destruct (RemoveChunk s fs1 id (v_faults v)) as [fs2 [e|]] eqn:Hrm;
      subst r; cbn [fst snd] in Hprune; [done|].
    apply RemoveChunk_nil in Hrm as [_ ->].
    match type of Hprune with Walk ?f ?m post = _ =>
      pose proof (Prune_shrinks s ids m post (nameFromID s id).2) as Hpost
    end.
    unfold Stores.Prune in Hpost. rewrite Hprune in Hpost. cbn [fst] in Hpost.
    rewrite lookup_delete_eq in Hpost. rewrite Hpath. by destruct Hpost.
  - intros s ids bucket listings bucket' l id Hprune Hl Hnext Hparse Hid.
    apply list_elem_of_split in Hl as (pre & post & ->).
    rewrite gcs_Prune_app in Hprune.
    destruct (gcs_Prune s ids bucket pre) as [b1 [e|]] eqn:Hw;
      cbn [fst snd] in *; [done|].
    cbn [Stores.gcs_Prune] in Hprune.
    unfold Stores.gcs_prune_verdict in Hprune at 1. rewrite Hnext in Hprune.
    destruct (l_cancelled l); [done|]. rewrite Hparse in Hprune.
    rewrite decide_False in Hprune by done. cbv zeta in Hprune.
    unfold Stores.gcs_RemoveChunk in Hprune at 1 2 3.
    destruct (l_fault l); [done|].
    destruct (b1 !! gcs_nameFromID s id) eqn:Hb; cbn [fst snd] in Hprune; [|done].
    match type of Hprune with Stores.gcs_Prune _ _ _ _ ?m post = _ =>
      pose proof (gcs_Prune_shrinks s ids m post (gcs_nameFromID s id)) as Hpost
    end.
    rewrite Hprune in Hpost. cbn [fst] in Hpost.
    rewrite lookup_delete_eq in Hpost. by destruct Hpost.
Qed.

(** X8.  [Prune] looks at the context before anything else at each step:
    once the walk of a local store comes to a path with the context
    cancelled, or the listing of a GCS store yields an object with the
    context cancelled, the prune returns [Interrupted] and the store stays as
    it was at that point.  A GCS listing that fails returns its own error,
    cancelled or not. *)
Theorem Prune_cancelled_returns_Interrupted :
  (∀ (s : LocalStore) ids fs pre v rest fs1,
     Prune s ids fs pre = (fs1, None) → v_cancelled v = true →
     Prune s ids fs (pre ++ v :: rest) = (fs1, Some Interrupted)) ∧
  (∀ (s : GCSStore) ids bucket pre l rest b1 name,
     gcs_Prune s ids bucket pre = (b1, None) →
     l_next l = inr name → l_cancelled l = true →
     gcs_Prune s ids bucket (pre ++ l :: rest) = (b1, Some Interrupted)) ∧
  (∀ (s : GCSStore) ids bucket pre l rest b1 err,
     gcs_Prune s ids bucket pre = (b1, None) →
     l_next l = inl err →
     gcs_Prune s ids bucket (pre ++ l :: rest) = (b1, Some err)).
Proof.
  split; [|split].
  - intros s ids fs pre v rest fs1 Hpre Hcan.
    unfold Stores.Prune in *. rewrite Walk_app, Hpre. cbn [fst snd Walk]. cbv zeta.
    unfold Stores.prune_walkFn, Stores.prune_verdict. rewrite Hcan.
    by destruct (fs1 !! v_path v).
  - intros s ids bucket pre l rest b1 name Hpre Hnext Hcan.
    rewrite gcs_Prune_app, Hpre. cbn [fst snd Stores.gcs_Prune].
    unfold Stores.gcs_prune_verdict. by rewrite Hnext, Hcan.
  - intros s ids bucket pre l rest b1 err Hpre Hnext.
    rewrite gcs_Prune_app, Hpre. cbn [fst snd Stores.gcs_Prune].
    unfold Stores.gcs_prune_verdict. by rewrite Hnext.
Qed.

(** *** Object names of the GCS store *)

Lemma append_assoc (a b c : string) : (a ++ b) ++ c = a ++ (b ++ c).
Proof. induction a as [|x a IH]; [done|]. exact (f_equal (String x) IH). Qed.

(** [idFromName] on a name made of the prefix, a leading part of the ID
    string, a slash, the ID string and the extension. *)
Lemma idFromName_take (s : GCSStore) (id : ChunkID) n :
  contains_byte (ChunkID_String id) "/" = false →
  ChunkIDFromString (ChunkID_String id) = Some id →
  idFromName s
    (prefix s ++ (string_take n (ChunkID_String id) ++
                  String "/" (ChunkID_String id)) ++ chunk_ext (gcs_opt s))
  = Some id.
Proof.
  intros Hplain Hparse.
  assert (∀ ext,
            HasSuffix (prefix s ++ (string_take n (ChunkID_String id) ++
                         String "/" (ChunkID_String id)) ++ ext) ext = true ∧
            match Split (TrimSuffix (TrimPrefix
                     (prefix s ++ (string_take n (ChunkID_String id) ++
                        String "/" (ChunkID_String id)) ++ ext) (prefix s)) ext) "/"
            with
            | [idx; sid] =>
                if negb (HasPrefix sid idx) then None else ChunkIDFromString sid
            | _ => None
            end = Some id) as Hgen.
  { intros ext. split.
    - rewrite <- append_assoc. apply HasSuffix_app.
    - rewrite TrimPrefix_app, TrimSuffix_app.
      rewrite Split_app by by apply contains_byte_take.
      rewrite Split_no_sep by done.
      by rewrite HasPrefix_string_take. }
  unfold Stores.idFromName, chunk_ext.
  destruct (Uncompressed (gcs_opt s)).
  - destruct (Hgen UncompressedChunkExt) as [-> Hs]. done.
  - destruct (Hgen CompressedChunkExt) as [-> Hs]. done.
Qed.

Lemma gcs_nameFromID_take (s : GCSStore) (id : ChunkID) :
  gcs_nameFromID s id =
  prefix s ++ (string_take 4 (ChunkID_String id) ++
               String "/" (ChunkID_String id)) ++ chunk_ext (gcs_opt s).
Proof.
  unfold Stores.gcs_nameFromID, chunk_ext.
  change (string_take 4 (ChunkID_String id) ++ "/" ++ ChunkID_String id)
    with (string_take 4 (ChunkID_String id) ++ String "/" (ChunkID_String id)).
  destruct (Uncompressed (gcs_opt s)); by rewrite <- !append_assoc.
Qed.

(** X9.  [idFromName] reads the ID back from the name [nameFromID] gives a
    chunk.  It asks less of a name than that: the part before the slash may be
    any leading part of the ID string, of any length, the empty one too, not
    only the first four characters. *)
Theorem idFromName_nameFromID (s : GCSStore) (id : ChunkID) :
  contains_byte (ChunkID_String id) "/" = false →
  ChunkIDFromString (ChunkID_String id) = Some id →
  idFromName s (gcs_nameFromID s id) = Some id ∧
  ∀ n, idFromName s
         (prefix s ++ (string_take n (ChunkID_String id) ++
                       String "/" (ChunkID_String id)) ++ chunk_ext (gcs_opt s))
       = Some id.
Proof.
  intros Hplain Hparse. split.
  - rewrite gcs_nameFromID_take. by apply idFromName_take.
  - intros n. by apply idFromName_take.
Qed.

(** *** What a prune keeps *)

Section Live.

(** As for [Stores.Prune_only_pruned]: the string of an ID has no path
    separator, an ID that was parsed prints to a string that parses to it
    again, and [filepath.Join] ends its result with a slash and the name. *)
Hypothesis String_parse :
  ∀ str id, ChunkIDFromString str = Some id →
            ChunkIDFromString (ChunkID_String id) = Some id.
Hypothesis String_plain :
  ∀ id, contains_byte (ChunkID_String id) "/" = false.
Hypothesis Join_plain :
  ∀ dir id, ∃ dir', filepath_Join dir (ChunkID_String id)
                    = dir' ++ String "/" (ChunkID_String id).


End Live.

(** *** What [StoreChunk] removes *)

Variable Chunk : Type.
Variable chunk_ID : Chunk → ChunkID.
Variable chunk_digest : Chunk → ChunkID.

Local Abbreviation GetChunk := (Stores.GetChunk ChunkID_String filepath_Join Chunk).
Local Abbreviation getChunkForceValidate :=
  (Stores.getChunkForceValidate ChunkID_String filepath_Join Chunk chunk_digest).
Local Abbreviation inspect_destination :=
  (Stores.inspect_destination ChunkID_String filepath_Join Chunk chunk_digest).
Local Abbreviation rename_loop :=
  (Stores.rename_loop ChunkID_String filepath_Join Chunk chunk_digest).
Local Abbreviation StoreChunk :=
  (Stores.StoreChunk ChunkID_String filepath_Join Chunk chunk_ID chunk_digest).
Local Abbreviation exec := (Stores.exec Chunk).
Local Abbreviation env := (Stores.env (ChunkID := ChunkID) Chunk).
Local Abbreviation event := (Stores.event (ChunkID := ChunkID) Chunk).

(** The names handed to [os.Remove] in a run, in order. *)
Definition removed_name (ev : event) : option string :=
  match ev with
  | Ev _ _ c _ =>
      match c with
      | os_Remove _ name => Some name
      | _ => None
      end
  end.

Definition removals (tr : list event) : list string := omap removed_name tr.

Lemma removals_app tr1 tr2 : removals (tr1 ++ tr2) = (removals tr1 ++ removals tr2)%list.
Proof. apply omap_app. Qed.

Lemma removals_cons ev tr :
  removals (ev :: tr) =
  match removed_name ev with
  | Some name => name :: removals tr
  | None => removals tr
  end.
Proof. done. Qed.

Lemma GetChunk_removals (e : env) h s id :
  removals (exec e h (GetChunk s id)).1 = [].
Proof.
  unfold Stores.GetChunk. cbn [Stores.exec]. cbv zeta.
  destruct (os_IsNotExist _); [done|].
  by destruct (Uncompressed (opt s)).
Qed.

Lemma getChunkForceValidate_removals (e : env) h s id :
  removals (exec e h (getChunkForceValidate s id)).1 = [].
Proof.
  unfold Stores.getChunkForceValidate. rewrite exec_bind. cbv zeta. cbn [fst snd].
  rewrite removals_app, GetChunk_removals.
  destruct (exec e h (GetChunk s id)) as [trg [chunk|err]]; cbn [fst snd]; [|done].
  destruct (SkipVerify (opt s)); [|done]. by case_decide.
Qed.

Lemma inspect_destination_removals (e : env) h s id tmp p :
  let st := e _ h (os_Stat Chunk p) in
  let rv := exec e (h ++ [Ev Chunk _ (os_Stat Chunk p) st])%list
              (getChunkForceValidate s id) in
  removals (exec e h (inspect_destination s id tmp p)).1 =
  if os_IsNotExist st then []
  else match rv.2 with
       | Some (ChunkInvalid _ _) => [p]
       | None => [tmp]
       | Some _ => []
       end.
Proof.
  cbv zeta. unfold Stores.inspect_destination. cbn [Stores.exec]. cbv zeta.
  destruct (os_IsNotExist _); [done|].
  rewrite exec_bind. cbv zeta. cbn [fst snd].
  change (removals (?x :: ?l)) with (removals ([x] ++ l)).
  rewrite !removals_app, getChunkForceValidate_removals.
  destruct (Stores.exec _ e _ (getChunkForceValidate s id)) as [trv [[]|]];
    cbn [fst snd Stores.exec]; cbv zeta; try done.
  - destruct (e _ _ (os_Remove Chunk p)) as [rerr|]; [|done].
    by destruct (os_IsNotExist (Some rerr)).
  - by destruct (e _ _ (os_Remove Chunk tmp)).
Qed.

Lemma inspect_destination_keeps (e : env) h s id tmp p :
  tmp ≠ p →
  (∀ h a b, (exec e h (getChunkForceValidate s id)).2 ≠ Some (ChunkInvalid a b)) →
  p ∉ removals (exec e h (inspect_destination s id tmp p)).1.
Proof.
  intros Htmp Hvalid. rewrite inspect_destination_removals. cbv zeta.
  destruct (os_IsNotExist _); [apply not_elem_of_nil|].
  match goal with |- context [Stores.exec _ e ?h' (getChunkForceValidate s id)] =>
    pose proof (Hvalid h') as Hv;
    destruct (Stores.exec _ e h' (getChunkForceValidate s id)) as [trv [[]|]]
  end; cbn [snd] in *; try apply not_elem_of_nil.
  - by exfalso; eapply Hv.
  - intros [?|Hin]%elem_of_cons; [done|]. by apply elem_of_nil in Hin.
Qed.

Lemma rename_loop_keeps (e : env) s id tmp p :
  tmp ≠ p →
  (∀ h a b, (exec e h (getChunkForceValidate s id)).2 ≠ Some (ChunkInvalid a b)) →
  ∀ n h err, p ∉ removals (exec e h (rename_loop s id tmp p n err)).1.
Proof.
  intros Htmp Hvalid. induction n as [|n IH]; intros h [err0|];
    try (cbn; apply not_elem_of_nil); rewrite exec_rename_loop; cbv zeta;
    pose proof (inspect_destination_keeps e h s id tmp p Htmp Hvalid) as Hi;
    destruct (Stores.exec _ e h (inspect_destination s id tmp p)) as [tr1 [r|]];
    cbn [fst snd] in *; try done.
  match goal with
  | |- context [Stores.exec _ e ?h' (rename_loop s id tmp p n ?err')] =>
      pose proof (IH h' err') as Hr;
      destruct (Stores.exec _ e h' (rename_loop s id tmp p n err')) as [tr2 r2]
  end.
  cbn [fst snd] in *. rewrite removals_app. cbn.
  by intros [?|?]%elem_of_app.
Qed.

(** X10.  [StoreChunk] never removes a destination that it has not found
    invalid: when no validation of the chunk in the store answers
    [ChunkInvalid] (and the temp file has another name than the destination),
    no [os.Remove] of the destination is in the run, however often the rename
    fails. *)
Theorem StoreChunk_keeps_valid_destination (e : env) (s : LocalStore) (chunk : Chunk) :
  let p := (nameFromID s (chunk_ID chunk)).2 in
  (∀ h dir pfx sfx mode,
     (e _ h (tempfile_NewSuffixAndMode Chunk dir pfx sfx mode)).1 ≠ p) →
  (∀ h a b, (exec e h (getChunkForceValidate s (chunk_ID chunk))).2
            ≠ Some (ChunkInvalid a b)) →
  p ∉ removals (exec e [] (StoreChunk s chunk)).1.
Proof.
  intros p Htmp Hvalid. subst p. unfold Stores.StoreChunk.
  destruct (Stores.nameFromID _ _ s (chunk_ID chunk)) as [d p].
  cbn [snd] in *. cbn [Stores.exec]. cbv zeta.
  destruct (os_IsExist _); [cbn; apply not_elem_of_nil|].
  cbn [Stores.exec fst snd]. cbv zeta.
  match goal with |- context [e _ ?h ?c] =>
    match c with
    | (if _ then _ else _) =>
        assert (removed_name (Ev Chunk _ c (e _ h c)) = None) as Hc
          by (by destruct (Uncompressed (opt s)));
        destruct (e _ h c) as [b [eb|]]
    end
  end; cbn [Stores.exec fst snd]; cbv zeta.
  { rewrite !removals_cons, Hc. cbn. apply not_elem_of_nil. }
  match goal with |- context [e _ ?h (os_MkdirAll Chunk d 493)] =>
    destruct (e _ h (os_MkdirAll Chunk d 493)) as [em|]
  end; cbn [Stores.exec fst snd]; cbv zeta.
  { rewrite !removals_cons, Hc. cbn. apply not_elem_of_nil. }
  match goal with |- context [e _ ?h (tempfile_NewSuffixAndMode Chunk d ?a ?b ?c)] =>
    pose proof (Htmp h d a b c) as Hne;
    destruct (e _ h (tempfile_NewSuffixAndMode Chunk d a b c)) as [tmp [et|]]
  end; cbn [Stores.exec fst snd] in *; cbv zeta.
  { rewrite !removals_cons, Hc. cbn. apply not_elem_of_nil. }
  match goal with |- context [e _ ?h (file_Write Chunk tmp b)] =>
    destruct (e _ h (file_Write Chunk tmp b)) as [ew|]
  end; cbn [Stores.exec fst snd]; cbv zeta.
  { rewrite !removals_cons, Hc. cbn.
    intros [?|Hin]%elem_of_cons; [congruence|]. by apply elem_of_nil in Hin. }
  match goal with
  | |- context [Stores.exec _ e ?h' (rename_loop s _ tmp p 10 ?err')] =>
      pose proof (rename_loop_keeps e s (chunk_ID chunk) tmp p Hne Hvalid 10 h' err')
        as Hloop;
      destruct (Stores.exec _ e h' (rename_loop s (chunk_ID chunk) tmp p 10 err'))
        as [tr2 r2]
  end.
  cbn [fst snd] in *. rewrite !removals_cons, Hc. by cbn.
Qed.

Lemma rename_loop_gives_up (e : env) s id tmp p :
  (∀ h, os_IsNotExist (e _ h (os_Stat Chunk p)) = true) →
  (∀ h, e _ h (os_Rename Chunk tmp p) ≠ None) →
  ∀ n h err0,
    let r := exec e h (rename_loop s id tmp p n (Some err0)) in
    count Chunk (is_rename Chunk) r.1 = n ∧
    count Chunk (is_sleep Chunk 200) r.1 = n ∧
    removals r.1 = [] ∧ r.2 ≠ None.
Proof.
  intros Hstat Hren. induction n as [|n IH]; intros h err0; cbv zeta;
    rewrite exec_rename_loop; cbv zeta;
    destruct (inspect_not_exist ChunkID_String filepath_Join Chunk chunk_digest
                e h s id tmp p (Hstat h)) as [msg ->];
    cbn [fst snd].
  - done.
  - match goal with
    | |- context [e (option error) ?hx (os_Rename Chunk tmp p)] =>
        pose proof (Hren hx) as Hne;
        destruct (e (option error) hx (os_Rename Chunk tmp p)) as [err1|]; [|done]
    end.
    match goal with
    | |- context [Stores.exec _ e ?h' (rename_loop s id tmp p n (Some err1))] =>
        destruct (IH h' err1) as (Hc & Hs & Hrm & Hn);
        destruct (Stores.exec _ e h' (rename_loop s id tmp p n (Some err1)))
          as [tr2 r2]
    end.
    cbn [fst snd app] in *. rewrite !count_cons, !removals_cons.
    cbn [is_rename is_sleep removed_name]. rewrite bool_decide_eq_true_2 by done.
    split; [lia|]. split; [lia|]. done.
Qed.

(** X11.  When the destination never shows up and every rename fails,
    [StoreChunk] renames eleven times (the first attempt and ten retries, a
    200 ms sleep before each retry) and returns an error; in that run there
    is no [os.Remove] at all: the temp file it has created and written is
    left behind. *)
Theorem StoreChunk_gives_up_leaving_temp_file (e : env) (s : LocalStore)
    (chunk : Chunk) :
  let p := (nameFromID s (chunk_ID chunk)).2 in
  let r := exec e [] (StoreChunk s chunk) in
  (∀ h, os_IsNotExist (e _ h (os_Stat Chunk p)) = true) →
  (∀ h tmp, e _ h (os_Rename Chunk tmp p) ≠ None) →
  (1 ≤ count Chunk (is_rename Chunk) r.1)%nat →
  count Chunk (is_rename Chunk) r.1 = 11%nat ∧
  count Chunk (is_sleep Chunk 200) r.1 = 10%nat ∧
  removals r.1 = [] ∧ r.2 ≠ None.
Proof.
  intros p r Hstat Hren. subst r p. unfold Stores.StoreChunk.
  destruct (Stores.nameFromID _ _ s (chunk_ID chunk)) as [d p].
  cbn [snd] in *. cbn [Stores.exec]. cbv zeta.
  destruct (os_IsExist _);
    [cbn [Stores.exec fst snd]; rewrite !count_cons; cbn; lia|].
  cbn [Stores.exec fst snd]. cbv zeta.
  match goal with |- context [e _ ?h ?c] =>
    match c with
    | (if _ then _ else _) =>
        assert (removed_name (Ev Chunk _ c (e _ h c)) = None) as Hc
          by (by destruct (Uncompressed (opt s)));
        assert (is_rename Chunk (Ev Chunk _ c (e _ h c)) = false) as Hr
          by (by destruct (Uncompressed (opt s)));
        assert (is_sleep Chunk 200 (Ev Chunk _ c (e _ h c)) = false) as Hs
          by (by destruct (Uncompressed (opt s)));
        destruct (e _ h c) as [b [eb|]]
    end
  end; cbn [Stores.exec fst snd]; cbv zeta.
  { rewrite !count_cons, Hr. cbn. lia. }
  match goal with |- context [e _ ?h (os_MkdirAll Chunk d 493)] =>
    destruct (e _ h (os_MkdirAll Chunk d 493)) as [em|]
  end; cbn [Stores.exec fst snd]; cbv zeta.
  { rewrite !count_cons, Hr. cbn. lia. }
  match goal with |- context [e _ ?h (tempfile_NewSuffixAndMode Chunk d ?a ?b ?c)] =>
    destruct (e _ h (tempfile_NewSuffixAndMode Chunk d a b c)) as [tmp [et|]]
  end; cbn [Stores.exec fst snd] in *; cbv zeta.
  { rewrite !count_cons, Hr. cbn. lia. }
  match goal with |- context [e _ ?h (file_Write Chunk tmp b)] =>
    destruct (e _ h (file_Write Chunk tmp b)) as [ew|]
  end; cbn [Stores.exec fst snd]; cbv zeta.
  { rewrite !count_cons, Hr. cbn. lia. }
  intros _.
  match goal with
  | |- context [e (option error) ?hx (os_Rename Chunk tmp p)] =>
      pose proof (Hren hx tmp) as Hne;
      destruct (e (option error) hx (os_Rename Chunk tmp p)) as [err1|]; [|done]
  end.
  match goal with
  | |- context [Stores.exec _ e ?h' (rename_loop s _ tmp p 10 (Some err1))] =>
      destruct (rename_loop_gives_up e s (chunk_ID chunk) tmp p Hstat
                  (λ h, Hren h tmp) 10 h' err1) as (Hn & Hsl & Hrm & Hres);
      destruct (Stores.exec _ e h' (rename_loop s (chunk_ID chunk) tmp p 10 (Some err1)))
        as [tr2 r2]
  end.
  cbn [fst snd] in *.
  rewrite !count_cons, !removals_cons, Hr, Hs, Hc, Hn, Hsl, Hrm. cbn.
  done.
Qed.

End StoresProps.

Lemma RemoveChunk_reports_ChunkMissing_witness :
  LocalStore_HasChunk HexID.ChunkID_String demo_Join demo_local
    (delete chunk_cd demo_fs) id_cd (mkFaults None None) = (false, None).
Proof.
  apply (proj2 (proj2 (RemoveChunk_reports_ChunkMissing HexID.ChunkID_String demo_Join
                         demo_local demo_fs id_cd)) no_faults).
  match goal with |- _ = ?r => vm_cast_no_check (eq_refl r) end.
Defined.

Lemma Prune_nil_removed_stale_chunks_witness :
  ({[ stray_ab := RegularFile ]} : gmap string entry)
    !! v_path (mkVisit (ChunkID := HexID.ChunkID) chunk_cd false None no_faults) = None.
Proof.
  apply (proj1 (Prune_nil_removed_stale_chunks HexID.ChunkID_String
                  HexID.ChunkIDFromString demo_Join)
           demo_local ∅ demo_fs [mkVisit chunk_cd false None no_faults] _ _ id_cd).
  - match goal with |- _ = ?r => vm_cast_no_check (eq_refl r) end.
  - apply list_elem_of_singleton. reflexivity.
  - vm_compute. reflexivity.
  - vm_compute. discriminate.
  - vm_compute. reflexivity.
  - exists "/store/cdcd". vm_compute. reflexivity.
  - vm_compute. reflexivity.
  - apply not_elem_of_empty.
Defined.

Lemma Prune_cancelled_returns_Interrupted_witness :
  Stores.Prune HexID.ChunkID_String HexID.ChunkIDFromString demo_Join demo_local ∅
    demo_fs ([] ++ mkVisit chunk_cd true None no_faults :: [])
  = (demo_fs, Some Interrupted).
Proof.
  apply (proj1 (Prune_cancelled_returns_Interrupted HexID.ChunkID_String
                  HexID.ChunkIDFromString demo_Join)); reflexivity.
Defined.

Lemma idFromName_nameFromID_witness :
  Stores.idFromName HexID.ChunkIDFromString demo_gcs
    (Stores.gcs_nameFromID HexID.ChunkID_String demo_gcs id_ab) = Some id_ab ∧
  ∀ n, Stores.idFromName HexID.ChunkIDFromString demo_gcs
         (prefix demo_gcs ++
          (string_take n (HexID.ChunkID_String id_ab) ++
           String "/" (HexID.ChunkID_String id_ab)) ++ chunk_ext (gcs_opt demo_gcs))
       = Some id_ab.
Proof.
  apply (idFromName_nameFromID HexID.ChunkID_String HexID.ChunkIDFromString).
  - vm_compute. reflexivity.
  - vm_compute. reflexivity.
Defined.


(** A system on which the destination is there and valid, nothing can be
    removed, every rename fails and the temp file is always the same. *)
Definition steady_env (there : bool) : Stores.env (ChunkID := HexID.ChunkID) string :=
  λ T h c,
    match c in call _ T return T → T with
    | tempfile_NewSuffixAndMode _ _ _ _ _ => λ _, (demo_tmp, None)
    | _ => λ answer, answer
    end (demo_env there true false T h c).

Lemma StoreChunk_keeps_valid_destination_witness :
  demo_p ∉ removals string
             (Stores.exec string (steady_env true) []
                (Stores.StoreChunk HexID.ChunkID_String demo_Join string
                   demo_chunk_ID demo_chunk_ID demo_local "data")).1.
Proof.
  apply (StoreChunk_keeps_valid_destination HexID.ChunkID_String demo_Join string
           demo_chunk_ID demo_chunk_ID (steady_env true) demo_local "data").
  - intros h dir pfx sfx mode. vm_compute. discriminate.
  - intros h a b. vm_compute. discriminate.
Defined.

Lemma StoreChunk_gives_up_leaving_temp_file_witness :
  count string (is_rename string)
    (Stores.exec string (steady_env false) []
       (Stores.StoreChunk HexID.ChunkID_String demo_Join string
          demo_chunk_ID demo_chunk_ID demo_local "data")).1 = 11%nat ∧
  count string (is_sleep string 200)
    (Stores.exec string (steady_env false) []
       (Stores.StoreChunk HexID.ChunkID_String demo_Join string
          demo_chunk_ID demo_chunk_ID demo_local "data")).1 = 10%nat ∧
  removals string
    (Stores.exec string (steady_env false) []
       (Stores.StoreChunk HexID.ChunkID_String demo_Join string
          demo_chunk_ID demo_chunk_ID demo_local "data")).1 = [] ∧
  (Stores.exec string (steady_env false) []
     (Stores.StoreChunk HexID.ChunkID_String demo_Join string
        demo_chunk_ID demo_chunk_ID demo_local "data")).2 ≠ None.
Proof.
  apply (StoreChunk_gives_up_leaving_temp_file HexID.ChunkID_String demo_Join string
           demo_chunk_ID demo_chunk_ID (steady_env false) demo_local "data").
  - intros h. reflexivity.
  - intros h tmp. discriminate.
  - vm_compute. lia.
Defined.

End StoresProps.

(** ** More on the store locations and options *)
Module StoreUtilsProps.
Import GoStrings Stores.
Local Open Scope string_scope.

(** X12.  [MergedWith] lays the command line over the options of the config
    file: merging twice is merging once; the concurrency always comes from
    the command line; [SkipVerify] and [TrustInsecure] can be switched on by
    the command line but not off; a certificate, key or CA file of the
    config is kept exactly when the command line gives none; and the
    timeout, the retry count and the compression setting are never taken from
    the command line. *)
Theorem MergedWith_idempotent (o : CmdStoreOptions) (opt : StoreOptions) :
  MergedWith o (MergedWith o opt) = MergedWith o opt ∧
  N (MergedWith o opt) = cmd_N o ∧
  SkipVerify (MergedWith o opt) = cmd_SkipVerify o || SkipVerify opt ∧
  TrustInsecure (MergedWith o opt) = cmd_TrustInsecure o || TrustInsecure opt ∧
  (ClientCert (MergedWith o opt) = ClientCert opt ↔
   cmd_ClientCert o = "" ∨ cmd_ClientCert o = ClientCert opt) ∧
  (ClientKey (MergedWith o opt) = ClientKey opt ↔
   cmd_ClientKey o = "" ∨ cmd_ClientKey o = ClientKey opt) ∧
  (CACert (MergedWith o opt) = CACert opt ↔
   cmd_CaCert o = "" ∨ cmd_CaCert o = CACert opt) ∧
  Timeout (MergedWith o opt) = Timeout opt ∧
  ErrorRetry (MergedWith o opt) = ErrorRetry opt ∧
  Uncompressed (MergedWith o opt) = Uncompressed opt.
Proof.
  destruct o as [n cert key ca skip trust], opt as [n' cert' key' ca' skip' trust' t r u].
  unfold MergedWith. cbn.
  destruct (String.eqb_spec cert ""), (String.eqb_spec key ""),
    (String.eqb_spec ca ""), skip, trust; cbn;
    repeat split; try done; try tauto; try (intros [?|?]; congruence);
    try (by right).
Qed.

Section StoreUtilsProps.

Context {ChunkID : Type} `{Countable ChunkID}.
Variable url_Parse : string → result (ChunkID := ChunkID) URL.
Variable Cfg_GetStoreOptionsFor : string → StoreOptions.
Variable Cfg_HTTPTimeout : Z.
Variable Cfg_HTTPErrorRetry : Z.
Variable os_Stat_IsDir : string → result (ChunkID := ChunkID) bool.
Variable Remote : Type.
Variable NewRemoteSSHStore : URL → StoreOptions → result (ChunkID := ChunkID) Remote.
Variable NewSFTPStore : URL → StoreOptions → result (ChunkID := ChunkID) Remote.
Variable NewRemoteHTTPStore : URL → StoreOptions → result (ChunkID := ChunkID) Remote.
Variable NewS3Store : URL → StoreOptions → string → result (ChunkID := ChunkID) Remote.
Variable storage_NewClient : URL → option (error (ChunkID := ChunkID)).

Local Abbreviation NewGCSStore := (Stores.NewGCSStore storage_NewClient).
Local Abbreviation StoreFromLocation :=
  (Stores.StoreFromLocation url_Parse Cfg_GetStoreOptionsFor Cfg_HTTPTimeout
     Cfg_HTTPErrorRetry os_Stat_IsDir Remote NewRemoteSSHStore NewSFTPStore
     NewRemoteHTTPStore NewS3Store storage_NewClient).

(** X13.  A [gs] URL without a path, such as [gs://bucket], makes
    [NewGCSStore], and with it [StoreFromLocation], panic: [u.Path[1:]] is out
    of range for the empty path.  When [NewGCSStore] returns a store, its
    prefix is the path without its first character, with a slash appended
    unless that is empty: so the prefix is empty or ends in a slash. *)
Theorem NewGCSStore_empty_path_panics :
  (∀ u opt, Scheme u = "gs" → Path u = "" → NewGCSStore u opt = Crash) ∧
  (∀ location cmdOpt u,
     url_Parse location = Ok u → Scheme u = "gs" → Path u = "" →
     StoreFromLocation location cmdOpt = Crash) ∧
  (∀ u opt s,
     NewGCSStore u opt = Ok s →
     ∃ c rest, Path u = String c rest ∧ gcs_opt s = opt ∧
               prefix s = (if String.eqb rest "" then "" else rest ++ "/") ∧
               (prefix s = "" ∨ HasSuffix (prefix s) "/" = true)).
Proof.
  split; [|split].
  - intros u opt Hs Hp. unfold Stores.NewGCSStore. by rewrite Hs, Hp.
  - intros location cmdOpt u Hu Hs Hp. unfold Stores.StoreFromLocation.
    rewrite Hu, Hs. cbn. unfold Stores.NewGCSStore. by rewrite Hs, Hp.
  - intros u opt s. unfold Stores.NewGCSStore.
    destruct (negb _); [done|]. destruct (Path u) as [|c rest]; [done|].
    destruct (storage_NewClient u); [done|]. intros [= <-]. cbn.
    exists c, rest. split; [done|]. split; [done|].
    destruct (String.eqb_spec rest "") as [->|Hne].
    + split; [done|by left].
    + split; [done|]. right. apply HasSuffix_app.
Qed.

End StoreUtilsProps.

Lemma NewGCSStore_empty_path_panics_witness :
  Stores.NewGCSStore (ChunkID := HexID.ChunkID) (λ _, None)
    (mkURL "gs" "bucket" "" "") demo_opt = Crash.
Proof.
  apply (proj1 (NewGCSStore_empty_path_panics (λ _, Ok (mkURL "gs" "bucket" "" ""))
                  (λ _, demo_opt) 0 0 (λ _, Ok true) Empty_set no_remote no_remote
                  no_remote (λ u o _, no_remote u o) (λ _, None)));
    reflexivity.
Defined.

End StoreUtilsProps.

(** ** The configuration (src/cmd/desync/prune.go, second part) *)
Module Config.
Import GoStrings Stores.
Local Open Scope string_scope.

Record S3Creds := mkS3Creds {
  AccessKey : string;
  SecretKey : string;
  AwsCredentialsFile : string;
  AwsProfile : string;
  AwsRegion : string;
}.

(** What [NewStaticCredentials] and [NewRefreshableSharedCredentials] are
    called with (the two are not part of the sources at hand). *)
Inductive Credentials : Type :=
| NewStaticCredentials (accessKey secretKey : string)
| NewRefreshableSharedCredentials (file profile : string).

Section Config.

(** [os.Getenv], and [url.URL.String] for a URL with a scheme and a host
    only. *)
Variable os_Getenv : string → string.
Variable url_String : string → string → string.

(** [Config.GetS3CredentialsFor]; a key that is not in the map
    [S3Credentials] reads as the zero [S3Creds]. *)
Definition GetS3CredentialsFor (S3Credentials : gmap string S3Creds) (u : URL)
  : Credentials * string :=
  let accessKey := os_Getenv "S3_ACCESS_KEY" in
  let region := os_Getenv "S3_REGION" in
  let secretKey := os_Getenv "S3_SECRET_KEY" in
  if negb (String.eqb accessKey "") || negb (String.eqb secretKey "") then
    (NewStaticCredentials accessKey secretKey, region)
  else
    let key := url_String (TrimPrefix (Scheme u) "s3+") (Host u) in
    let credsConfig := default (mkS3Creds "" "" "" "" "") (S3Credentials !! key) in
    let creds := NewStaticCredentials "" "" in
    let region := AwsRegion credsConfig in
    let creds :=
      if negb (String.eqb (AccessKey credsConfig) "") then
        NewStaticCredentials (AccessKey credsConfig) (SecretKey credsConfig)
      else if negb (String.eqb (AwsCredentialsFile credsConfig) "") then
        NewRefreshableSharedCredentials (AwsCredentialsFile credsConfig)
          (AwsProfile credsConfig)
      else creds in
    (creds, region).

End Config.

(** X14.  The credentials of an S3 location.  When the environment sets
    [S3_ACCESS_KEY] or [S3_SECRET_KEY], they and [S3_REGION] are returned
    whatever the config holds.  When it sets neither, the environment does not
    count at all, [S3_REGION] included: the entry of the config for the scheme
    (without a leading [s3+]) and the host decides, its access key before its
    credentials file, and a location without an entry gets empty static
    credentials and no region. *)
Theorem GetS3CredentialsFor_precedence (url_String : string → string → string)
    (u : URL) :
  (∀ getenv config config',
     getenv "S3_ACCESS_KEY" ≠ "" ∨ getenv "S3_SECRET_KEY" ≠ "" →
     GetS3CredentialsFor getenv url_String config u =
       (NewStaticCredentials (getenv "S3_ACCESS_KEY") (getenv "S3_SECRET_KEY"),
        getenv "S3_REGION") ∧
     GetS3CredentialsFor getenv url_String config u =
     GetS3CredentialsFor getenv url_String config' u) ∧
  (∀ getenv getenv' config,
     getenv "S3_ACCESS_KEY" = "" → getenv "S3_SECRET_KEY" = "" →
     getenv' "S3_ACCESS_KEY" = "" → getenv' "S3_SECRET_KEY" = "" →
     GetS3CredentialsFor getenv url_String config u =
     GetS3CredentialsFor getenv' url_String config u) ∧
  (∀ getenv config,
     getenv "S3_ACCESS_KEY" = "" → getenv "S3_SECRET_KEY" = "" →
     match config !! url_String (TrimPrefix (Scheme u) "s3+") (Host u) with
     | None =>
         GetS3CredentialsFor getenv url_String config u = (NewStaticCredentials "" "", "")
     | Some c =>
         (GetS3CredentialsFor getenv url_String config u).2 = AwsRegion c ∧
         (AccessKey c ≠ "" →
          (GetS3CredentialsFor getenv url_String config u).1
          = NewStaticCredentials (AccessKey c) (SecretKey c)) ∧
         (AccessKey c = "" → AwsCredentialsFile c ≠ "" →
          (GetS3CredentialsFor getenv url_String config u).1
          = NewRefreshableSharedCredentials (AwsCredentialsFile c) (AwsProfile c)) ∧
         (AccessKey c = "" → AwsCredentialsFile c = "" →
          (GetS3CredentialsFor getenv url_String config u).1 = NewStaticCredentials "" "")
     end).
Proof.
  split; [|split].
  - intros getenv config config' Henv. unfold GetS3CredentialsFor.
    assert (negb (String.eqb (getenv "S3_ACCESS_KEY") "")
            || negb (String.eqb (getenv "S3_SECRET_KEY") "") = true) as ->; [|done].
    destruct (String.eqb_spec (getenv "S3_ACCESS_KEY") ""),
      (String.eqb_spec (getenv "S3_SECRET_KEY") ""); cbn; try done.
    by destruct Henv.
  - intros getenv getenv' config Ha Hs Ha' Hs'. unfold GetS3CredentialsFor.
    by rewrite Ha, Hs, Ha', Hs'.
  - intros getenv config Ha Hs. unfold GetS3CredentialsFor. rewrite Ha, Hs. cbn.
    destruct (config !! _) as [c|]; [|done]. cbn.
    split; [done|].
    destruct (String.eqb_spec (AccessKey c) ""),
      (String.eqb_spec (AwsCredentialsFile c) ""); cbn; repeat split; done.
Qed.

End Config.

(** ** The prune and list-chunks commands (src/cmd/desync) *)
Module Cmd.
Import GoStrings Stores.
Local Open Scope string_scope.

Record pruneOptions := mkPruneOptions {
  po_CmdStoreOptions : CmdStoreOptions;
  po_store : string;
  po_yes : bool;
}.

Section Prune.

Context {ChunkID : Type} `{Countable ChunkID}.

Local Abbreviation error := (Stores.error (ChunkID := ChunkID)).
Local Abbreviation result := (Stores.result (ChunkID := ChunkID)).
Local Abbreviation Index := (SelfSeed.Index (ChunkID := ChunkID)).

(** The functions of the command package and of the library that the
    commands call and that are not part of the sources at hand, and the
    stores with whether they can be pruned. *)
Variable validate : CmdStoreOptions → option error.
Variable Store : Type.
Variable storeFromLocation : string → CmdStoreOptions → result Store.
Variable is_PruneStore : Store → bool.
Variable ReadCaibxFile : string → CmdStoreOptions → result Index.

(** How [runPrune] ends: with a [return] of its own, with the call
    [s.Prune(ctx, ids)] whose result it returns, or in a panic of a function it
    called. *)
Inductive decision : Type :=
| Return (err : option error)
| CallPrune (s : Store) (ids : gset ChunkID)
| Panicked.

(** [for _, c := range c.Chunks { ids[c.ID] = struct{}{} }] *)
Definition add_ids (ids : gset ChunkID) (c : Index) : gset ChunkID :=
  foldl (λ ids ch, {[SelfSeed.ID ch]} ∪ ids) ids (SelfSeed.Chunks c).

(** The loop over the index files. *)
Fixpoint read_ids (o : CmdStoreOptions) (args : list string) (ids : gset ChunkID)
  : result (gset ChunkID) :=
  match args with
  | [] => Ok ids
  | name :: rest =>
      match ReadCaibxFile name o with
      | Ok c => read_ids o rest (add_ids ids c)
      | Err _ e => Err None e
      | Crash => Crash
      end
  end.

(** The loop [ask]; [answers] holds what each [fmt.Fscanln(os.Stdin, &a)]
    in turn leaves in [a], and once the input is used up [a] stays empty.
    [true]: the loop was left by [break ask]; [false]: by [return nil]. *)
Fixpoint ask (answers : list string) : bool :=
  match answers with
  | [] => false
  | a :: rest =>
      if String.eqb a "y" || String.eqb a "Y" then true
      else if String.eqb a "n" || String.eqb a "N" || String.eqb a "" then false
      else ask rest
  end.

(** [runPrune] *)
Definition runPrune (opt : pruneOptions) (args : list string)
    (answers : list string) : decision :=
  match validate (po_CmdStoreOptions opt) with
  | Some err => Return (Some err)
  | None =>
      if String.eqb (po_store opt) "" then Return (Some (Failure "no store provided"))
      else
        match storeFromLocation (po_store opt) (po_CmdStoreOptions opt) with
        | Err _ err => Return (Some err)
        | Crash => Panicked
        | Ok sr =>
            if negb (is_PruneStore sr) then
              Return (Some (Failure ("store '" ++ po_store opt ++
                                     "' does not support pruning")))
            else
              match read_ids (po_CmdStoreOptions opt) args ∅ with
              | Err _ err => Return (Some err)
              | Crash => Panicked
              | Ok ids =>
                  if negb (po_yes opt) then
                    if ask answers then CallPrune sr ids else Return None
                  else CallPrune sr ids
              end
        end
  end.

(** The first answer that is not asked again for is a yes. *)
Definition confirmed (answers : list string) : Prop :=
  ∃ pre a rest,
    answers = (pre ++ a :: rest)%list ∧ (a = "y" ∨ a = "Y") ∧
    Forall (λ x, x ∉ ["y"; "Y"; "n"; "N"; ""]) pre.

Lemma ask_confirmed answers : ask answers = true ↔ confirmed answers.
Proof.
  induction answers as [|a rest IH]; cbn [ask].
  - split; [done|]. intros (pre & a & rest & Hl & _). by destruct pre.
  - destruct (String.eqb_spec a "y") as [->|Hy].
    { split; [|done]. intros _. exists [], "y", rest. by eauto. }
    destruct (String.eqb_spec a "Y") as [->|HY].
    { split; [|done]. intros _. exists [], "Y", rest. by eauto. }
    cbn [orb].
    destruct (String.eqb_spec a "n") as [->|Hn].
    { split; [done|]. intros ([|x pre] & b & rest' & [= Hx Hr] & Hb & Hpre).
      - subst b. by destruct Hb.
      - subst x. apply Forall_cons in Hpre as [Hx _]. exfalso. apply Hx.
        repeat constructor. }
    destruct (String.eqb_spec a "N") as [->|HN].
    { split; [done|]. intros ([|x pre] & b & rest' & [= Hx Hr] & Hb & Hpre).
      - subst b. by destruct Hb.
      - subst x. apply Forall_cons in Hpre as [Hx _]. exfalso. apply Hx.
        repeat constructor. }
    destruct (String.eqb_spec a "") as [->|He].
    { split; [done|]. intros ([|x pre] & b & rest' & [= Hx Hr] & Hb & Hpre).
      - subst b. by destruct Hb.
      - subst x. apply Forall_cons in Hpre as [Hx _]. exfalso. apply Hx.
        repeat constructor. }
    cbn [orb]. rewrite IH. split.
    + intros (pre & b & rest' & -> & Hb & Hpre).
      exists (a :: pre), b, rest'. split; [done|]. split; [done|].
      constructor; [|done]. intros Hin.
      repeat (apply elem_of_cons in Hin as [?|Hin]; [done|]).
      by apply elem_of_nil in Hin.
    + intros ([|x pre] & b & rest' & [= Hx Hr] & Hb & Hpre).
      * subst b. by destruct Hb.
      * apply Forall_cons in Hpre as [_ Hpre]. by exists pre, b, rest'.
Qed.

Lemma elem_of_add_ids ids (c : Index) id :
  id ∈ add_ids ids c ↔ id ∈ ids ∨ ∃ ch, ch ∈ SelfSeed.Chunks c ∧ SelfSeed.ID ch = id.
Proof.
  unfold add_ids. revert ids.
  induction (SelfSeed.Chunks c) as [|ch l IH]; intros ids; cbn [foldl].
  - split; [by left|]. intros [?|(ch & Hch & _)]; [done|].
    by apply elem_of_nil in Hch.
  - rewrite IH, elem_of_union, elem_of_singleton. split.
    + intros [[->|?]|(ch' & Hch' & <-)].
      * right. exists ch. split; [by left|done].
      * by left.
      * right. exists ch'. split; [by right|done].
    + intros [?|(ch' & [->|Hch']%elem_of_cons & <-)].
      * left. by right.
      * left. by left.
      * right. by exists ch'.
Qed.

Lemma read_ids_Ok o args ids0 ids :
  read_ids o args ids0 = Ok ids →
  ∃ idxs, Forall2 (λ name c, ReadCaibxFile name o = Ok c) args idxs ∧
          ∀ id, id ∈ ids ↔
                id ∈ ids0 ∨
                ∃ c ch, c ∈ idxs ∧ ch ∈ SelfSeed.Chunks c ∧ SelfSeed.ID ch = id.
Proof.
  revert ids0. induction args as [|name rest IH]; intros ids0; cbn [read_ids].
  - intros [= <-]. exists []. split; [constructor|]. intros id. split; [by left|].
    intros [?|(c & ch & Hc & _)]; [done|]. by apply elem_of_nil in Hc.
  - destruct (ReadCaibxFile name o) as [c|a e|] eqn:Hread; [|done..].
    intros (idxs & Hall & Hids)%IH. exists (c :: idxs).
    split; [by constructor|]. intros id. rewrite Hids, elem_of_add_ids. split.
    + intros [[?|(ch & Hch & Hid)]|(c' & ch & Hc' & Hch & Hid)].
      * by left.
      * right. exists c, ch. split; [by left|done].
      * right. exists c', ch. split; [by right|done].
    + intros [?|(c' & ch & [->|Hc']%elem_of_cons & Hch & Hid)].
      * left. by left.
      * left. right. by exists ch.
      * right. by exists c', ch.
Qed.

(** X15.  [runPrune] gets to [s.Prune] only when the options are valid, a
    store is named, opens and can be pruned, every index file was read, and
    either [--yes] was given or the first answer that is not asked again for
    is [y] or [Y] (any other answer but [n], [N] and the empty one is asked
    again for; the end of the input counts as the empty answer).  The live
    set it passes holds exactly the IDs of the chunks of the index files. *)
Theorem runPrune_prunes_when_confirmed opt args answers s ids :
  runPrune opt args answers = CallPrune s ids →
  validate (po_CmdStoreOptions opt) = None ∧
  po_store opt ≠ "" ∧
  storeFromLocation (po_store opt) (po_CmdStoreOptions opt) = Ok s ∧
  is_PruneStore s = true ∧
  (∃ idxs,
     Forall2 (λ name c, ReadCaibxFile name (po_CmdStoreOptions opt) = Ok c)
       args idxs ∧
     ∀ id, id ∈ ids ↔
           ∃ c ch, c ∈ idxs ∧ ch ∈ SelfSeed.Chunks c ∧ SelfSeed.ID ch = id) ∧
  (po_yes opt = true ∨ confirmed answers).
Proof.
  unfold runPrune. destruct (validate _); [done|].
  destruct (String.eqb_spec (po_store opt) ""); [done|].
  destruct (storeFromLocation _ _) as [sr|a e|]; [|done..].
  destruct (is_PruneStore sr) eqn:Hp; [|done]. cbn [negb].
  destruct (read_ids _ _ _) as [ids'|a e|] eqn:Hread; [|done..].
  apply read_ids_Ok in Hread as (idxs & Hall & Hids).
  assert (∀ id, id ∈ ids' ↔
                ∃ c ch, c ∈ idxs ∧ ch ∈ SelfSeed.Chunks c ∧ SelfSeed.ID ch = id)
    as Hids'.
  { intros id. rewrite Hids. split; [|by right]. intros [Hin|?]; [|done].
    by apply elem_of_empty in Hin. }
  destruct (po_yes opt); cbn [negb].
  - intros [= <- <-]. repeat split; try done. eauto. by left.
  - destruct (ask answers) eqn:Hask; [|done]. intros [= <- <-].
    repeat split; try done. eauto. right. by apply ask_confirmed.
Qed.

End Prune.

Section List.

Context {ChunkID : Type} `{Countable ChunkID}.

Local Abbreviation error := (Stores.error (ChunkID := ChunkID)).
Local Abbreviation result := (Stores.result (ChunkID := ChunkID)).
Local Abbreviation Index := (SelfSeed.Index (ChunkID := ChunkID)).

Variable ReadCaibxFile : string → CmdStoreOptions → result Index.

(** [runList]: what it prints and what it returns.  [cancelled k] is whether
    the context is done once [k] IDs are printed. *)
Fixpoint list_loop (chunks : list (SelfSeed.IndexChunk (ChunkID := ChunkID)))
    (cancelled : nat → bool) (printed : nat) : list ChunkID :=
  match chunks with
  | [] => []
  | chunk :: rest =>
      SelfSeed.ID chunk ::
      (if cancelled (S printed) then [] else list_loop rest cancelled (S printed))
  end.

(** [Validate] of src/options.go *)
Definition Validate (o : CmdStoreOptions) : option error :=
  if negb (Bool.eqb (String.eqb (cmd_ClientKey o) "") (String.eqb (cmd_ClientCert o) ""))
  then Some (Failure
    "--client-key and --client-cert options need to be provided together")
  else None.

Definition runList (o : CmdStoreOptions) (args : list string)
    (cancelled : nat → bool) : outcome (list ChunkID * option error) :=
  match Validate o with
  | Some err => Done ([], Some err)
  | None =>
      match args with
      | [] => Panic
      | arg0 :: _ =>
          match ReadCaibxFile arg0 o with
          | Err _ err => Done ([], Some err)
          | Crash => Panic
          | Ok c => Done (list_loop (SelfSeed.Chunks c) cancelled 0, None)
          end
      end
  end.

Lemma list_loop_prefix chunks cancelled printed :
  list_loop chunks cancelled printed `prefix_of` (SelfSeed.ID <$> chunks) ∧
  ((∀ k, cancelled k = false) →
   list_loop chunks cancelled printed = SelfSeed.ID <$> chunks).
Proof.
  revert printed. induction chunks as [|ch rest IH]; intros printed; cbn.
  - done.
  - destruct (IH (S printed)) as [Hpre Hall]. split.
    + destruct (cancelled (S printed)).
      * by exists (SelfSeed.ID <$> rest).
      * by apply prefix_cons.
    + intros Hn. rewrite Hn. f_equal. by apply Hall.
Qed.

(** X16.  With valid options ([--client-key] and [--client-cert] both given
    or both left out) and an index that reads, [runList] prints chunk IDs of
    the index in order and returns nil; it looks at the context only after
    printing an ID, so a cancelled context cuts the list short but never
    before the first ID, and without a cancellation every ID is printed. *)
Theorem runList_prints_prefix o arg0 args cancelled :
  (cmd_ClientKey o = "" ↔ cmd_ClientCert o = "") →
  ∀ c, ReadCaibxFile arg0 o = Ok c →
  ∃ out, runList o (arg0 :: args) cancelled = Done (out, None) ∧
         out `prefix_of` (SelfSeed.ID <$> SelfSeed.Chunks c) ∧
         (SelfSeed.Chunks c ≠ [] → out ≠ []) ∧
         ((∀ k, cancelled k = false) → out = SelfSeed.ID <$> SelfSeed.Chunks c).
Proof.
  intros Hkeys c Hread. unfold runList, Validate.
  assert (Bool.eqb (String.eqb (cmd_ClientKey o) "")
            (String.eqb (cmd_ClientCert o) "") = true) as ->.
  { destruct (String.eqb_spec (cmd_ClientKey o) ""),
      (String.eqb_spec (cmd_ClientCert o) ""); try done; tauto. }
  cbn [negb]. rewrite Hread. eexists. split; [done|].
  destruct (list_loop_prefix (SelfSeed.Chunks c) cancelled 0) as [Hpre Hall].
  split; [done|]. split; [|done].
  by destruct (SelfSeed.Chunks c).
Qed.

End List.

(** A run of the commands: every index file reads as the index of
    [SelfSeed.demo_index], every store opens and can be pruned. *)
Definition demo_prune : pruneOptions := mkPruneOptions demo_cmdOpt "/store" false.

Local Abbreviation demo_runPrune :=
  (runPrune (ChunkID := nat) (λ _, None) unit (λ _ _, Ok ()) (λ _, true)
     (λ _ _, Ok SelfSeed.demo_index)).

Lemma runPrune_prunes_when_confirmed_witness :
  po_yes demo_prune = true ∨ confirmed ["maybe"; "y"; "n"].
Proof.
  apply (runPrune_prunes_when_confirmed (ChunkID := nat) (λ _, None) unit
           (λ _ _, Ok ()) (λ _, true) (λ _ _, Ok SelfSeed.demo_index)
           demo_prune ["file.caibx"] ["maybe"; "y"; "n"] ()
           (add_ids ∅ SelfSeed.demo_index)).
  reflexivity.
Defined.

Lemma runList_prints_prefix_witness :
  ∃ out, runList (ChunkID := nat) (λ _ _, Ok SelfSeed.demo_index) demo_cmdOpt
           ["file.caibx"] (λ _, true) = Done (out, None) ∧
         out `prefix_of` (SelfSeed.ID <$> SelfSeed.Chunks SelfSeed.demo_index) ∧
         (SelfSeed.Chunks SelfSeed.demo_index ≠ [] → out ≠ []) ∧
         ((∀ k, (λ _ : nat, true) k = false) →
          out = SelfSeed.ID <$> SelfSeed.Chunks SelfSeed.demo_index).
Proof.
  apply (runList_prints_prefix (λ _ _, Ok SelfSeed.demo_index)
           demo_cmdOpt "file.caibx" [] (λ _, true)).
  - reflexivity.
  - reflexivity.
Defined.

(** With the context cancelled from the start, the first ID is printed all
    the same. *)
Example runList_cancelled_at_once :
  runList (ChunkID := nat) (λ _ _, Ok SelfSeed.demo_index) demo_cmdOpt
    ["file.caibx"] (λ _, true) = Done ([7%nat], None).
Proof. reflexivity. Qed.

End Cmd.

(** ** More on the Windows tar: errors, skipped nodes, goodbye and count *)
Module TarWindowsProps.
Import TarWindows.

(** A tree that can be read: no directory fails [ioutil.ReadDir], no file
    fails [os.Open]. *)
#[warnings="-register-all"]
Inductive readable : fsnode → Prop :=
| readable_node info children :
    Forall readable children → readable (FsNode info None children None).

Section TarWindowsProps.

Variable CaFormatEntry CaFormatFilename CaFormatPayload CaFormatGoodbye : Z.
Variable CaFormatGoodbyeTailMarker : Z.
Variable feature_flags : list Z.
Variable SipHash : string → Z.
Variable makeGoodbyeBST : list FormatGoodbyeItem → list FormatGoodbyeItem.
Variable filepath_Join : string → string → string.
Variable filepath_Abs : string → string + error.
Variable filepath_VolumeName : string → string.
Variable Encode : list element → element → Z * option error.
Variable cancelled : list element → bool.

Local Abbreviation tar :=
  (TarWindows.tar CaFormatEntry CaFormatFilename CaFormatPayload CaFormatGoodbye
     CaFormatGoodbyeTailMarker feature_flags SipHash makeGoodbyeBST filepath_Join
     filepath_Abs filepath_VolumeName Encode cancelled).
Local Abbreviation each_child :=
  (TarWindows.each_child CaFormatFilename CaFormatGoodbye CaFormatGoodbyeTailMarker
     SipHash makeGoodbyeBST filepath_Join filepath_Abs filepath_VolumeName Encode).
Local Abbreviation synthesized_entry :=
  (TarWindows.synthesized_entry CaFormatEntry feature_flags).

(** The filename element [tar] writes for an entry of a directory. *)
Definition filename_of (s : fsnode) : element :=
  Filename
    (mkFormatHeader
       (uint64 (16 + Z.of_nat (String.length (fi_Name (node_info s))) + 1))
       CaFormatFilename)
    (fi_Name (node_info s)).

(** The goodbye element that ends a directory whose item list is [items]
    when the count stands at [n]. *)
Definition goodbye_of (n : Z) (items : list FormatGoodbyeItem) : element :=
  let items := makeGoodbyeBST (fix_offsets n items) in
  let items :=
    items ++
    [mkFormatGoodbyeItem (uint64 n) (uint64 (16 + len items * 24 + 24))
       CaFormatGoodbyeTailMarker] in
  Goodbye (mkFormatHeader (uint64 (16 + len items * 24)) CaFormatGoodbye) items.

Lemma each_child_no_error tar_rec path dev stats :
  (∀ out el, (Encode out el).2 = None) →
  Forall (λ c, ∀ o p, (tar_rec o p c).2 = None) stats →
  ∀ out n items, (each_child tar_rec path dev stats out n items).2 = None.
Proof.
  intros Henc. induction 1 as [|c rest Hc _ IH]; intros out n items;
    cbn [TarWindows.each_child]; cbv zeta.
  - cbn [fst snd]. apply Henc.
  - destruct (if dev =? 0 then false else _); [apply IH|].
    rewrite Henc.
    match goal with
    | |- context [tar_rec ?o ?p c] =>
        pose proof (Hc o p) as Hres;
        destruct (tar_rec o p c) as [[out3 n3] r3]; cbn [fst snd] in *
    end.
    subst r3. apply IH.
Qed.

(** X17.  [tar] returns an error only when the context is cancelled, the
    encoder fails, or a directory or a file cannot be read: on a tree that can
    be read, with an encoder that works and a context that is not cancelled,
    it returns nil; the error of the last case of its [switch] ("unable to
    determine node type") does not come up there. *)
Theorem tar_fails_only_with_its_environment nd :
  (∀ out el, (Encode out el).2 = None) →
  (∀ out, cancelled out = false) →
  readable nd →
  ∀ out path dev, (tar out path nd dev).2 = None.
Proof.
  intros Henc Hcan.
  induction nd as [info rd children op IH] using fsnode_rect_children.
  intros Hread out path dev. inversion Hread as [info' children' Hchildren]; subst.
  cbn [TarWindows.tar]. rewrite Hcan.
  destruct (IsDir (fi_Mode info)); cbn [orb negb]; cbv zeta.
  - rewrite Henc. apply each_child_no_error; [done|].
    rewrite Forall_forall in IH, Hchildren. apply Forall_forall.
    intros c Hc o p. by apply IH, Hchildren.
  - destruct (IsRegular (fi_Mode info)); cbn [negb]; [|done].
    rewrite Henc. cbn [fst snd]. apply Henc.
Qed.

(** A mode with one of the type bits of [os.ModeType] set is not regular. *)
Lemma type_bit_not_regular m k :
  0 ≤ k → Z.testbit ModeType k = true → Z.testbit m k = true →
  IsRegular m = false.
Proof.
  intros Hk Ht Hm. unfold IsRegular. apply Z.eqb_neq. intros H0.
  assert (Z.testbit (Z.land m ModeType) k = true) as Hb.
  { by rewrite Z.land_spec, Hm, Ht. }
  by rewrite H0, Z.bits_0 in Hb.
Qed.

Lemma land_pow2 m k :
  0 ≤ k → Z.land m (2 ^ k) ≠ 0 → Z.testbit m k = true.
Proof.
  intros Hk Hne. destruct (Z.testbit m k) eqn:Hm; [done|]. exfalso. apply Hne.
  apply Z.bits_inj'. intros n Hn. rewrite Z.land_spec, Z.bits_0.
  destruct (decide (n = k)) as [->|Hnk].
  - by rewrite Hm.
  - by rewrite Z.pow2_bits_false, andb_false_r by done.
Qed.

(** X24.  A symlink and a device ([isSymlink], [isDevice]) are not regular
    files, so [tar] skips one that is no directory: it encodes nothing for
    it, counts nothing and returns nil (or [Interrupted], the context being
    cancelled).  The cases of its [switch] for symlinks and for devices are
    never taken. *)
Theorem tar_skips_symlinks_and_devices info rd children op out path dev :
  isSymlink (fi_Mode info) || isDevice (fi_Mode info) = true →
  IsRegular (fi_Mode info) = false ∧
  (IsDir (fi_Mode info) = false →
   tar out path (FsNode info rd children op) dev =
   if cancelled out then (out, 0, Some Interrupted) else (out, 0, None)).
Proof.
  intros Hm. assert (IsRegular (fi_Mode info) = false) as Hreg.
  { apply orb_true_iff in Hm as [Hs|Hd].
    - apply (type_bit_not_regular _ 27); [lia|done|].
      apply land_pow2; [lia|]. unfold isSymlink in Hs.
      apply negb_true_iff, Z.eqb_neq in Hs. exact Hs.
    - apply (type_bit_not_regular _ 26); [lia|done|].
      apply land_pow2; [lia|]. unfold isDevice in Hd.
      apply negb_true_iff, Z.eqb_neq in Hd. exact Hd. }
  split; [done|]. intros Hdir. cbn [TarWindows.tar].
  by rewrite Hdir, Hreg.
Qed.

Lemma each_child_skipped tar_rec path stats :
  (∀ out el, (Encode out el).2 = None) →
  Forall (λ c, ∀ o p, tar_rec o p c = (o, 0, None)) stats →
  ∀ out n items,
    ∃ n' items',
      each_child tar_rec path 0 stats out n items =
      (out ++ (filename_of <$> stats) ++ [goodbye_of n' items'],
       int64 (n' + (Encode (out ++ (filename_of <$> stats))
                      (goodbye_of n' items')).1),
       None) ∧
      length items' = (length items + length stats)%nat.
Proof.
  intros Henc. induction 1 as [|c rest Hc _ IH]; intros out n items;
    cbn [TarWindows.each_child]; cbv zeta.
  - exists n, items. cbn [fmap list_fmap app]. rewrite app_nil_r.
    fold (goodbye_of n items). rewrite Henc. split; [done|]. cbn. lia.
  - cbn [Z.eqb]. fold (filename_of c).
    pose proof (Henc out (filename_of c)) as Hf.
    destruct (Encode out (filename_of c)) as [nn1 e1]. cbn [fst snd] in *. subst e1.
    rewrite Hc. cbn [fst snd].
    match goal with
    | |- context [TarWindows.each_child _ _ _ _ _ _ _ _ _ _ _ _ rest ?o ?m ?it] =>
        destruct (IH o m it) as (n' & items' & -> & Hlen)
    end.
    exists n', items'. rewrite fmap_cons, <- !app_assoc. cbn [app].
    split; [done|]. rewrite length_app in Hlen. cbn in *. lia.
Qed.

(** X18.  For an entry of a directory that it cannot encode (a symlink, a
    device, a pipe or a socket) [tar] writes the filename element all the
    same and nothing after it: a directory that holds only such entries is
    archived as its own entry, one filename element for each of them, and a
    goodbye element with one item for each of them and the tail marker. *)
Theorem tar_names_what_it_skips info children op out path :
  (∀ out el, (Encode out el).2 = None) →
  (∀ out, cancelled out = false) →
  IsDir (fi_Mode info) = true →
  Forall (λ c, IsDir (fi_Mode (node_info c)) || IsRegular (fi_Mode (node_info c))
               = false) children →
  ∃ n items,
    (tar out path (FsNode info None children op) 0).1.1 =
      out ++ Entry (synthesized_entry info) :: (filename_of <$> children) ++
             [goodbye_of n items] ∧
    (tar out path (FsNode info None children op) 0).2 = None ∧
    length items = length children.
Proof.
  intros Henc Hcan Hdir Hskip. cbn [TarWindows.tar]. rewrite Hcan, Hdir.
  cbn [orb negb]. cbv zeta. rewrite Henc.
  match goal with
  | |- context [TarWindows.each_child _ _ _ _ _ _ _ _ _ ?rec path 0 children ?o ?m ?it] =>
      destruct (each_child_skipped rec path children Henc) with (out := o) (n := m)
        (items := it) as (n' & items' & -> & Hlen)
  end.
  { eapply Forall_impl; [exact Hskip|]. intros [ci crd cch cop] Hc o p.
    cbn [node_info] in Hc. cbn [TarWindows.tar]. by rewrite Hcan, Hc. }
  exists n', items'. cbn [fst snd]. rewrite <- app_assoc. cbn [app].
  split; [unfold TarWindows.synthesized_entry; by rewrite Hdir|].
  split; [done|]. cbn in Hlen. lia.
Qed.

Lemma each_child_ends_with_goodbye tar_rec path dev stats :
  ∀ out n items,
    (each_child tar_rec path dev stats out n items).2 = None →
    ∃ n' items',
      last (each_child tar_rec path dev stats out n items).1.1
      = Some (goodbye_of n' items').
Proof.
  induction stats as [|c rest IH]; intros out n items;
    cbn [TarWindows.each_child]; cbv zeta.
  - intros _. exists n, items. cbn [fst snd]. by rewrite last_snoc.
  - destruct (if dev =? 0 then false else _); [apply IH|].
    destruct (Encode out _) as [nn1 [e1|]]; cbn [fst snd]; [done|].
    destruct (tar_rec _ _ c) as [[out3 n3] [e3|]]; cbn [fst snd]; [done|].
    apply IH.
Qed.

(** X19.  When [tar] returns nil for a directory, the last element it has
    handed to the encoder is the goodbye element of that directory; its last
    item is the tail marker, the size in the header and the size in the tail
    marker are the same number, 16 bytes and 24 bytes for each item, the tail
    marker included. *)
Theorem tar_goodbye_sizes info rd children op out path dev :
  IsDir (fi_Mode info) = true →
  (tar out path (FsNode info rd children op) dev).2 = None →
  ∃ h items tail,
    last (tar out path (FsNode info rd children op) dev).1.1
      = Some (Goodbye h (items ++ [tail])) ∧
    Type_ h = CaFormatGoodbye ∧
    Hash tail = CaFormatGoodbyeTailMarker ∧
    Size h = item_Size tail ∧
    Size h = uint64 (16 + 24 * len (items ++ [tail])).
Proof.
  intros Hdir. cbn [TarWindows.tar]. destruct (cancelled out); [done|].
  rewrite Hdir. cbn [orb negb]. cbv zeta.
  destruct (Encode out _) as [nn [e|]]; cbn [fst snd]; [done|].
  destruct rd as [e|]; [done|]. intros Hres.
  destruct (each_child_ends_with_goodbye _ _ _ _ _ _ _ Hres) as (n' & items' & ->).
  unfold goodbye_of. eexists _, _, _. split; [done|]. cbn.
  split; [done|]. split; [done|].
  unfold len. rewrite length_app. cbn [length].
  split; f_equal; lia.
Qed.

(** *** The count that [tar] returns *)

(** What the encoder returns in total for the elements [new], handed to it
    one after the other after [out]. *)
Fixpoint encoded (out new : list element) : Z :=
  match new with
  | [] => 0
  | el :: rest => (Encode out el).1 + encoded (out ++ [el]) rest
  end.

Lemma encoded_app out new1 new2 :
  encoded out (new1 ++ new2) = encoded out new1 + encoded (out ++ new1) new2.
Proof.
  revert out. induction new1 as [|el new1 IH]; intros out; cbn [encoded app].
  - by rewrite app_nil_r.
  - rewrite IH, <- app_assoc. cbn [app]. lia.
Qed.

Lemma int64_add_l a b : int64 (int64 a + b) = int64 (a + b).
Proof.
  unfold int64, wrap_int.
  replace ((a + 2 ^ 63) `mod` 2 ^ 64 - 2 ^ 63 + b + 2 ^ 63)
    with ((a + 2 ^ 63) `mod` 2 ^ 64 + b) by lia.
  rewrite Zplus_mod_idemp_l. f_equal. f_equal. lia.
Qed.

Lemma int64_add_r a b : int64 (a + int64 b) = int64 (a + b).
Proof. rewrite (Z.add_comm a), int64_add_l. f_equal. lia. Qed.

Lemma each_child_counts tar_rec path dev stats :
  Forall (λ c, ∀ o p, ∃ new, (tar_rec o p c).1.1 = o ++ new ∧
                             (tar_rec o p c).1.2 = int64 (encoded o new)) stats →
  ∀ out n items,
    ∃ new, (each_child tar_rec path dev stats out n items).1.1 = out ++ new ∧
           (each_child tar_rec path dev stats out n items).1.2
           = int64 (n + encoded out new).
Proof.
  induction 1 as [|c rest Hc _ IH]; intros out n items;
    cbn [TarWindows.each_child]; cbv zeta.
  - cbn [fst snd]. eexists. split; [done|]. cbn [encoded]. f_equal. lia.
  - destruct (if dev =? 0 then false else _); [apply IH|].
    match goal with |- context [Encode out ?f] => set (filename := f) end.
    destruct (Encode out filename) as [nn1 e1] eqn:Hf. cbn [fst snd].
    assert (encoded out [filename] = nn1) as Hone.
    { cbn [encoded]. rewrite Hf. cbn. lia. }
    destruct e1 as [err|].
    { exists [filename]. cbn [fst snd]. split; [done|]. by rewrite Hone. }
    match goal with
    | |- context [tar_rec ?o ?p c] =>
        destruct (Hc o p) as (new2 & Hout & Hn);
        destruct (tar_rec o p c) as [[out3 n3] e3]; cbn [fst snd] in *
    end.
    subst out3 n3.
    assert (int64 (int64 (n + nn1) + int64 (encoded (out ++ [filename]) new2))
            = int64 (n + encoded out (filename :: new2))) as Hsum.
    { rewrite int64_add_r, int64_add_l. f_equal.
      change (filename :: new2) with ([filename] ++ new2).
      rewrite encoded_app, Hone. lia. }
    destruct e3 as [err|].
    { exists (filename :: new2). cbn [fst snd]. rewrite <- app_assoc.
      split; [done|]. exact Hsum. }
    match goal with
    | |- context [TarWindows.each_child _ _ _ _ _ _ _ _ _ _ _ _ rest ?o ?m ?it] =>
        destruct (IH o m it) as (new3 & -> & ->)
    end.
    exists (filename :: new2 ++ new3). rewrite <- !app_assoc. cbn [app].
    split; [done|]. rewrite Hsum, int64_add_l. f_equal.
    change (filename :: new2 ++ new3) with ((filename :: new2) ++ new3).
    rewrite (encoded_app out (filename :: new2)).
    change (out ++ filename :: new2) with (out ++ [filename] ++ new2).
    by rewrite Z.add_assoc.
Qed.

(** X20.  The count [tar] returns is, in [int64] arithmetic, the sum of the
    counts the encoder returned for the elements that [tar] handed to it, the
    elements of all nodes below included, and also when it returns an
    error. *)
Theorem tar_counts_what_is_encoded nd out path dev :
  ∃ new, (tar out path nd dev).1.1 = out ++ new ∧
         (tar out path nd dev).1.2 = int64 (encoded out new).
Proof.
  revert out path dev.
  induction nd as [info rd children op IH] using fsnode_rect_children.
  intros out path dev. cbn [TarWindows.tar].
  destruct (cancelled out); [exists []; by rewrite app_nil_r|].
  destruct (negb _); [exists []; by rewrite app_nil_r|]. cbv zeta.
  match goal with |- context [Encode out ?f] => set (entry := f) end.
  destruct (Encode out entry) as [nn e] eqn:He. cbn [fst snd].
  assert (encoded out [entry] = nn) as Hone.
  { cbn [encoded]. rewrite He. cbn. lia. }
  destruct e as [err|].
  { exists [entry]. cbn [fst snd]. split; [done|]. by rewrite Hone. }
  destruct (IsDir (fi_Mode info)).
  - destruct rd as [err|].
    { exists [entry]. cbn [fst snd]. split; [done|]. by rewrite Hone. }
    match goal with
    | |- context [TarWindows.each_child _ _ _ _ _ _ _ _ _ ?rec path dev children ?o ?m ?it] =>
        destruct (each_child_counts rec path dev children) with (out := o) (n := m)
          (items := it) as (new & -> & ->)
    end.
    { eapply Forall_impl; [exact IH|]. intros c Hc o p. apply Hc. }
    exists (entry :: new). rewrite <- app_assoc. split; [done|].
    rewrite int64_add_l. f_equal.
    change (entry :: new) with ([entry] ++ new). rewrite encoded_app, Hone. done.
  - destruct (IsRegular (fi_Mode info)).
    + destruct op as [err|].
      { exists [entry]. cbn [fst snd]. split; [done|]. by rewrite Hone. }
      match goal with |- context [Encode (out ++ [entry]) ?f] =>
        set (payload := f) end.
      exists [entry; payload]. cbn [fst snd]. rewrite <- app_assoc.
      split; [done|]. rewrite int64_add_l. f_equal.
      cbn [encoded]. rewrite He. cbn [fst]. lia.
    + exists [entry]. cbn [fst snd]. split; [done|]. by rewrite Hone.
Qed.

End TarWindowsProps.

(** A directory that holds a symlink and a named pipe. *)
Definition demo_links : fsnode :=
  FsNode (mkFileInfo "l" 0 (ModeDir + 493) 1600000000) None
    [FsNode (mkFileInfo "s" 0 (ModeSymlink + 511) 1600000000) None [] None;
     FsNode (mkFileInfo "p" 0 (ModeNamedPipe + 420) 1600000000) None [] None]
    None.

Lemma tar_fails_only_with_its_environment_witness :
  (TarWindows.tar 1 2 3 4 5 [] (λ _, 0) (λ items, items)
     (λ dir name, (dir ++ "/" ++ name)%string) (λ src, inl src) (λ _, ""%string)
     demo_Encode (λ _, false) [] "a" demo_dir 0).2 = None.
Proof.
  apply (tar_fails_only_with_its_environment 1 2 3 4 5 [] (λ _, 0) (λ items, items)
           (λ dir name, (dir ++ "/" ++ name)%string) (λ src, inl src)
           (λ _, ""%string) demo_Encode (λ _, false) demo_dir).
  - intros out el. by destruct el.
  - reflexivity.
  - repeat constructor.
Defined.

Lemma tar_skips_symlinks_and_devices_witness :
  IsRegular (fi_Mode (mkFileInfo "s" 0 (ModeSymlink + 511) 1600000000)) = false ∧
  (IsDir (fi_Mode (mkFileInfo "s" 0 (ModeSymlink + 511) 1600000000)) = false →
   TarWindows.tar 1 2 3 4 5 [] (λ _, 0) (λ items, items)
     (λ dir name, (dir ++ "/" ++ name)%string) (λ src, inl src) (λ _, ""%string)
     demo_Encode (λ _, false) [] "l/s"
     (FsNode (mkFileInfo "s" 0 (ModeSymlink + 511) 1600000000) None [] None) 0 =
   if (λ _ : list element, false) [] then ([], 0, Some Interrupted)
   else ([], 0, None)).
Proof.
  apply (tar_skips_symlinks_and_devices 1 2 3 4 5 [] (λ _, 0) (λ items, items)
           (λ dir name, (dir ++ "/" ++ name)%string) (λ src, inl src)
           (λ _, ""%string) demo_Encode (λ _, false)).
  reflexivity.
Defined.

Lemma tar_names_what_it_skips_witness :
  ∃ n items,
    (TarWindows.tar 1 2 3 4 5 [] (λ _, 0) (λ items, items)
       (λ dir name, (dir ++ "/" ++ name)%string) (λ src, inl src) (λ _, ""%string)
       demo_Encode (λ _, false) [] "l" demo_links 0).1.1 =
      [] ++ Entry (TarWindows.synthesized_entry 1 []
                     (mkFileInfo "l" 0 (ModeDir + 493) 1600000000)) ::
            (filename_of 2 <$>
               [FsNode (mkFileInfo "s" 0 (ModeSymlink + 511) 1600000000) None [] None;
                FsNode (mkFileInfo "p" 0 (ModeNamedPipe + 420) 1600000000) None [] None])
            ++ [goodbye_of 4 5 (λ items, items) n items] ∧
    (TarWindows.tar 1 2 3 4 5 [] (λ _, 0) (λ items, items)
       (λ dir name, (dir ++ "/" ++ name)%string) (λ src, inl src) (λ _, ""%string)
       demo_Encode (λ _, false) [] "l" demo_links 0).2 = None ∧
    length items = 2%nat.
Proof.
  apply (tar_names_what_it_skips 1 2 3 4 5 [] (λ _, 0) (λ items, items)
           (λ dir name, (dir ++ "/" ++ name)%string) (λ src, inl src)
           (λ _, ""%string) demo_Encode (λ _, false)).
  - intros out el. by destruct el.
  - reflexivity.
  - reflexivity.
  - repeat constructor.
Defined.

Lemma tar_goodbye_sizes_witness :
  ∃ h items tail,
    last (TarWindows.tar 1 2 3 4 5 [] (λ _, 0) (λ items, items)
            (λ dir name, (dir ++ "/" ++ name)%string) (λ src, inl src)
            (λ _, ""%string) demo_Encode (λ _, false) [] "a" demo_dir 0).1.1
      = Some (Goodbye h (items ++ [tail])) ∧
    Type_ h = 4 ∧ Hash tail = 5 ∧ Size h = item_Size tail ∧
    Size h = uint64 (16 + 24 * len (items ++ [tail])).
Proof.
  apply (tar_goodbye_sizes 1 2 3 4 5 [] (λ _, 0) (λ items, items)
           (λ dir name, (dir ++ "/" ++ name)%string) (λ src, inl src)
           (λ _, ""%string) demo_Encode (λ _, false)).
  - reflexivity.
  - vm_compute. reflexivity.
Defined.

End TarWindowsProps.

(** ** Device numbers of the disk file system (src/gcs.go, third part) *)
Module DiskFS.
Import TarWindows.

(** [mkdev], on [uint64] *)
Definition mkdev (major minor : Z) : Z :=
  let dev := uint64 (Z.shiftl (Z.land major 0x00000fff) 8) in
  let dev := Z.lor dev (uint64 (Z.shiftl (Z.land major 0xfffff000) 32)) in
  let dev := Z.lor dev (uint64 (Z.shiftl (Z.land minor 0x000000ff) 0)) in
  Z.lor dev (uint64 (Z.shiftl (Z.land minor 0xffffff00) 12)).

(** The way back, as the C library has it ([major] and [minor] of a device
    number); it is used to state what [mkdev] keeps. *)
Definition dev_major (dev : Z) : Z :=
  Z.lor (Z.land (Z.shiftr dev 8) 0xfff) (Z.land (Z.shiftr dev 32) 0xfffff000).

Definition dev_minor (dev : Z) : Z :=
  Z.lor (Z.land dev 0xff) (Z.land (Z.shiftr dev 12) 0xffffff00).

Lemma testbit_ones k n : 0 ≤ k → Z.testbit (Z.ones k) n = (0 <=? n) && (n <? k).
Proof.
  intros Hk. destruct (Z.leb_spec 0 n).
  - by rewrite Z.testbit_ones_nonneg.
  - by rewrite Z.testbit_neg_r.
Qed.

Lemma testbit_0xfff n : Z.testbit 0xfff n = (0 <=? n) && (n <? 12).
Proof. change 0xfff with (Z.ones 12). by apply testbit_ones. Qed.

Lemma testbit_0xff n : Z.testbit 0xff n = (0 <=? n) && (n <? 8).
Proof. change 0xff with (Z.ones 8). by apply testbit_ones. Qed.

Lemma testbit_0xfffff000 n : Z.testbit 0xfffff000 n = (12 <=? n) && (n <? 32).
Proof.
  change 0xfffff000 with (Z.shiftl (Z.ones 20) 12).
  destruct (Z.leb_spec 0 n).
  - rewrite Z.shiftl_spec, testbit_ones by lia.
    destruct (Z.leb_spec 0 (n - 12)), (Z.leb_spec 12 n),
      (Z.ltb_spec (n - 12) 20), (Z.ltb_spec n 32); try done; lia.
  - rewrite Z.testbit_neg_r by lia. by destruct (Z.leb_spec 12 n); [lia|].
Qed.

Lemma testbit_0xffffff00 n : Z.testbit 0xffffff00 n = (8 <=? n) && (n <? 32).
Proof.
  change 0xffffff00 with (Z.shiftl (Z.ones 24) 8).
  destruct (Z.leb_spec 0 n).
  - rewrite Z.shiftl_spec, testbit_ones by lia.
    destruct (Z.leb_spec 0 (n - 8)), (Z.leb_spec 8 n),
      (Z.ltb_spec (n - 8) 24), (Z.ltb_spec n 32); try done; lia.
  - rewrite Z.testbit_neg_r by lia. by destruct (Z.leb_spec 8 n); [lia|].
Qed.

Lemma testbit_uint64 z n : 0 ≤ n → Z.testbit (uint64 z) n = (n <? 64) && Z.testbit z n.
Proof.
  intros Hn. unfold uint64. by rewrite Z.testbit_mod_pow2 by lia.
Qed.

Lemma testbit_above z k n : 0 ≤ z < 2 ^ k → k ≤ n → Z.testbit z n = false.
Proof.
  intros Hz Hn. destruct (decide (z = 0)) as [->|Hz0]; [apply Z.bits_0|].
  apply Z.bits_above_log2; [lia|].
  assert (Z.log2 z < k) by (apply Z.log2_lt_pow2; lia). lia.
Qed.

(** Case analysis on every comparison of bit positions in the goal. *)
Ltac bit_cases :=
  repeat match goal with
    | |- context [?a <? ?b] => destruct (Z.ltb_spec a b)
    | |- context [?a <=? ?b] => destruct (Z.leb_spec a b)
    end;
  try lia; cbn [andb orb];
  rewrite ?andb_true_r, ?andb_false_r, ?orb_false_r, ?orb_true_r; cbn [andb orb];
  try done; try (f_equal; lia).

(** The bits of [mkdev major minor]: the low 8 bits of the minor, over them
    the low 12 bits of the major, then the bits 8 to 31 of the minor, then
    the bits 12 to 31 of the major. *)
Lemma testbit_mkdev major minor n :
  0 ≤ n →
  Z.testbit (mkdev major minor) n =
  if n <? 8 then Z.testbit minor n
  else if n <? 20 then Z.testbit major (n - 8)
  else if n <? 44 then Z.testbit minor (n - 12)
  else if n <? 64 then Z.testbit major (n - 32)
  else false.
Proof.
  intros Hn. unfold mkdev. cbv zeta.
  rewrite !Z.lor_spec, !testbit_uint64, !Z.shiftl_spec, !Z.land_spec by done.
  rewrite Z.sub_0_r, testbit_0xff, testbit_0xfff, testbit_0xfffff000,
    testbit_0xffffff00.
  bit_cases.
Qed.

Lemma dev_major_mkdev major minor :
  dev_major (mkdev major minor) = major `mod` 2 ^ 32.
Proof.
  apply Z.bits_inj'. intros n Hn. unfold dev_major.
  rewrite Z.lor_spec, !Z.land_spec, !Z.shiftr_spec, !testbit_mkdev by lia.
  rewrite testbit_0xfff, testbit_0xfffff000, Z.testbit_mod_pow2 by lia.
  bit_cases.
Qed.

Lemma dev_minor_mkdev major minor :
  dev_minor (mkdev major minor) = minor `mod` 2 ^ 32.
Proof.
  apply Z.bits_inj'. intros n Hn. unfold dev_minor.
  rewrite Z.lor_spec, !Z.land_spec, !Z.shiftr_spec, !testbit_mkdev by lia.
  rewrite testbit_0xff, testbit_0xffffff00, Z.testbit_mod_pow2 by lia.
  bit_cases.
Qed.

Lemma mkdev_uint64 major minor : mkdev major minor = uint64 (mkdev major minor).
Proof.
  apply Z.bits_inj'. intros n Hn.
  rewrite testbit_uint64, !testbit_mkdev by lia. bit_cases.
Qed.

(** X21.  [mkdev] packs the low 32 bits of the major and of the minor number
    into one 64-bit device number without losing any of them: the major and
    the minor can be read back, so two pairs of 32-bit numbers with the same
    device number are the same pair; the bits above the 32nd of either are
    dropped; and for a major below 4096 and a minor below 256 the device
    number is [major * 256 + minor]. *)
Theorem mkdev_keeps_32_bits major minor :
  0 ≤ mkdev major minor < 2 ^ 64 ∧
  dev_major (mkdev major minor) = major `mod` 2 ^ 32 ∧
  dev_minor (mkdev major minor) = minor `mod` 2 ^ 32 ∧
  mkdev major minor = mkdev (major `mod` 2 ^ 32) (minor `mod` 2 ^ 32) ∧
  (∀ major' minor',
     0 ≤ major < 2 ^ 32 → 0 ≤ minor < 2 ^ 32 →
     0 ≤ major' < 2 ^ 32 → 0 ≤ minor' < 2 ^ 32 →
     mkdev major minor = mkdev major' minor' →
     major = major' ∧ minor = minor') ∧
  (0 ≤ major < 2 ^ 12 → 0 ≤ minor < 2 ^ 8 →
   mkdev major minor = major * 256 + minor).
Proof.
  split; [|split; [|split; [|split; [|split]]]].
  - rewrite mkdev_uint64. unfold uint64. apply Z.mod_pos_bound. lia.
  - apply dev_major_mkdev.
  - apply dev_minor_mkdev.
  - apply Z.bits_inj'. intros n Hn.
    rewrite !testbit_mkdev, !Z.testbit_mod_pow2 by lia. bit_cases.
  - intros major' minor' Hma Hmi Hma' Hmi' Heq.
    pose proof (dev_major_mkdev major minor) as Hj.
    pose proof (dev_minor_mkdev major minor) as Hn.
    rewrite Heq, dev_major_mkdev in Hj. rewrite Heq, dev_minor_mkdev in Hn.
    rewrite !Z.mod_small in Hj, Hn by lia. done.
  - intros Hma Hmi.
    replace (major * 256) with (Z.shiftl major 8) by (rewrite Z.shiftl_mul_pow2; lia).
    assert (Z.land (Z.shiftl major 8) minor = 0) as Hdisjoint.
    { apply Z.bits_inj'. intros n Hn.
      rewrite Z.land_spec, Z.shiftl_spec, Z.bits_0 by done.
      destruct (Z.ltb_spec n 8).
      - by rewrite Z.testbit_neg_r by lia.
      - by rewrite (testbit_above minor 8), andb_false_r by lia. }
    rewrite Z.add_nocarry_lxor, Z.lxor_lor by done.
    apply Z.bits_inj'. intros n Hn.
    rewrite testbit_mkdev, Z.lor_spec, Z.shiftl_spec by done.
    destruct (Z.ltb_spec n 8).
    { by rewrite (Z.testbit_neg_r major (n - 8)) by lia. }
    rewrite (testbit_above minor 8 n), orb_false_r by lia.
    destruct (Z.ltb_spec n 20); [done|].
    rewrite (testbit_above major 12 (n - 8)) by lia.
    destruct (Z.ltb_spec n 44).
    { by rewrite (testbit_above minor 8) by lia. }
    destruct (Z.ltb_spec n 64); [|done].
    by rewrite (testbit_above major 12) by lia.
Qed.

End DiskFS.

(** ** Writing a GNU tar archive (src/tarfs.go) *)
Module TarFS.
Import DiskFS.

(** [archive/tar] of Go's library: the type flags and formats used here, and
    the fields of a header that the code sets. *)
Inductive Typeflag : Type := TypeReg | TypeDir | TypeSymlink | TypeChar | TypeBlock.
Inductive Format : Type := FormatUnknown | FormatGNU.

Record Header := mkHeader {
  h_Typeflag : Typeflag;
  h_Name : string;
  h_Linkname : string;
  h_Uid : Z;
  h_Gid : Z;
  h_Mode : Z;
  h_ModTime : Z;
  h_Size : Z;
  h_Xattrs : gmap string string;
  h_Devmajor : Z;
  h_Devminor : Z;
  h_Format : Format;
}.

(** Modelled from the spec: a device node of an archive (the node types are
    not part of the sources at hand); these are the fields [CreateDevice]
    reads. *)
Record NodeDevice := mkNodeDevice {
  nd_Name : string;
  nd_UID : Z;
  nd_GID : Z;
  nd_Mode : Z;
  nd_Major : Z;
  nd_Minor : Z;
  nd_MTime : Z;
  nd_Xattrs : gmap string string;
}.

Record TarWriteFS := mkTarWriteFS {
  format : Format;
}.

(** [NewTarWriteFS]; the writer itself is the list of headers written, see
    [CreateDevice]. *)
Definition NewTarWriteFS : TarWriteFS := mkTarWriteFS FormatGNU.

Definition modeChar : Z := 0x4000.

(** [TarWriteFS.CreateDevice]: the header handed to [WriteHeader].  The
    fields the code does not set have their zero values. *)
Definition CreateDevice (fs : TarWriteFS) (n : NodeDevice) : Header :=
  let typ := if negb (Z.land (nd_Mode n) modeChar =? 0) then TypeChar else TypeBlock in
  {| h_Typeflag := typ;
     h_Name := nd_Name n;
     h_Linkname := ""%string;
     h_Uid := nd_UID n;
     h_Gid := nd_GID n;
     h_Mode := TarWindows.int64 (nd_Mode n);
     h_ModTime := nd_MTime n;
     h_Size := 0;
     h_Xattrs := nd_Xattrs n;
     h_Devmajor := TarWindows.int64 (nd_Major n);
     h_Devminor := TarWindows.int64 (nd_Minor n);
     h_Format := FormatUnknown |}.

Lemma land_modeChar m :
  Z.land m modeChar = if Z.testbit m 14 then modeChar else 0.
Proof.
  apply Z.bits_inj'. intros n Hn. rewrite Z.land_spec.
  change modeChar with (2 ^ 14). rewrite Z.pow2_bits_eqb by lia.
  destruct (Z.eqb_spec 14 n) as [<-|Hne].
  - rewrite andb_true_r. destruct (Z.testbit m 14) eqn:Hm; [|by rewrite Z.bits_0].
    by rewrite Z.pow2_bits_true.
  - rewrite andb_false_r. destruct (Z.testbit m 14); [|by rewrite Z.bits_0].
    by rewrite Z.pow2_bits_false.
Qed.

(** X22.  [CreateDevice] writes the type flag of a character device exactly
    when bit [0x4000] of the node's mode is set, and that of a block device
    otherwise.  In the mode bits of the system a character device has the
    type bits [0o020000] ([0x2000]), where that bit is clear, and a block device
    [0o060000] ([0x6000]), where it is set: a character device is written as a block
    device and a block device as a character device, whatever the permission
    bits.  The header of a device never carries the format of the writer. *)
Theorem CreateDevice_typeflag (fs : TarWriteFS) (n : NodeDevice) :
  (h_Typeflag (CreateDevice fs n) = TypeChar ↔ Z.testbit (nd_Mode n) 14 = true) ∧
  (h_Typeflag (CreateDevice fs n) = TypeBlock ↔ Z.testbit (nd_Mode n) 14 = false) ∧
  (∀ perm, 0 ≤ perm < 0x1000 → nd_Mode n = 0x2000 + perm →
           h_Typeflag (CreateDevice fs n) = TypeBlock) ∧
  (∀ perm, 0 ≤ perm < 0x1000 → nd_Mode n = 0x6000 + perm →
           h_Typeflag (CreateDevice fs n) = TypeChar) ∧
  h_Format (CreateDevice fs n) = FormatUnknown.
Proof.
  assert (h_Typeflag (CreateDevice fs n)
          = if Z.testbit (nd_Mode n) 14 then TypeChar else TypeBlock) as Htyp.
  { unfold CreateDevice. cbn [h_Typeflag]. rewrite land_modeChar.
    destruct (Z.testbit (nd_Mode n) 14); reflexivity. }
  rewrite Htyp. split; [|split; [|split; [|split]]].
  - by destruct (Z.testbit (nd_Mode n) 14).
  - by destruct (Z.testbit (nd_Mode n) 14).
  - intros perm Hperm ->. by rewrite (testbit_above _ 14) by lia.
  - intros perm Hperm ->.
    replace (0x6000 + perm) with (0x2000 + perm + 1 * 2 ^ 14) by lia.
    rewrite Z.testbit_odd, Z.shiftr_div_pow2, Z.div_add, Z.div_small by lia.
    done.
  - done.
Qed.

End TarFS.
